(** * Read_Geometry: the coordinate extractor of [readgeom.py]

    A shallow embedding of the extraction engine of [readgeom.py]
    (classes [MolecularFileParser] and [MolecularFormulaGenerator]) and
    the properties of its specification checked against it.

    Modelling conventions.
    - A Python [str] is a list of characters ([str := list ascii]).  The
      character classes ([str.isspace], [\s], [\d], [A-Za-z]) and the case
      mappings are those of Python on code points below 128; characters
      above 127 are kept as ordinary symbols, so the development speaks
      of ASCII text.
    - A file is a list of bytes read in text mode: decoding is the
      identity and CR LF and CR become LF.  A read that fails raises.
    - A Python [float] is an IEEE binary64 value ([spec_float] of the
      standard library); [float(s)] rounds the decimal literal to the
      nearest binary64, ties to even.  [int] has no bound on the number
      of digits.
    - A call that may raise returns a [result]; [try ... except] is the
      handler [try_except].  Debug printing and the warning for an
      unknown file type have no effect on results and are left out.
    - Loops are recursive functions over the iterated list; [break] and
      [continue] are the places where the recursion stops or goes on.
    - A pattern of [re] is a term of [regex], matched by a backtracking
      matcher with the priorities of [re]. *)

From Stdlib Require Import List Ascii Bool Arith ZArith Lia.
From Stdlib Require Import Sorting.Sorted Sorting.Permutation.
From Stdlib Require Import Floats.SpecFloat.
From Stdlib Require String DecimalString.
From Stdlib Require DecimalPos DecimalZ.
Import ListNotations.

Set Implicit Arguments.

(** ** Strings *)

Definition str := list ascii.

Inductive strlit := lit_nil | lit_cons (a : ascii) (l : strlit).

Fixpoint strlit_of_bytes (l : list Byte.byte) : strlit :=
  match l with
  | [] => lit_nil
  | b :: t => lit_cons (ascii_of_byte b) (strlit_of_bytes t)
  end.

Fixpoint bytes_of_strlit (l : strlit) : list Byte.byte :=
  match l with
  | lit_nil => []
  | lit_cons a t => byte_of_ascii a :: bytes_of_strlit t
  end.

Declare Scope str_scope.
Delimit Scope str_scope with str.
#[warnings="-via-type-remapping,-via-type-mismatch"]
String Notation str strlit_of_bytes bytes_of_strlit
  (via strlit mapping [[nil] => lit_nil, [cons] => lit_cons]) : str_scope.
Open Scope str_scope.
Open Scope nat_scope.

Definition LF : ascii := ascii_of_nat 10.
Definition CR : ascii := ascii_of_nat 13.
Definition BACKSLASH : ascii := ascii_of_nat 92.

Definition ord (c : ascii) : nat := nat_of_ascii c.

Definition in_range (lo hi : nat) (c : ascii) : bool :=
  (lo <=? ord c) && (ord c <=? hi).

(** [str.isspace] on one character: TAB, LF, VT, FF, CR, FS, GS, RS, US
    and the space. *)
Definition isspace (c : ascii) : bool := in_range 9 13 c || in_range 28 32 c.

Definition isdigit (c : ascii) : bool := in_range 48 57 c.
Definition isupper (c : ascii) : bool := in_range 65 90 c.
Definition islower (c : ascii) : bool := in_range 97 122 c.
Definition isalpha (c : ascii) : bool := isupper c || islower c.
Definition isalnum (c : ascii) : bool := isalpha c || isdigit c.

Definition lower_char (c : ascii) : ascii :=
  if isupper c then ascii_of_nat (ord c + 32) else c.
Definition upper_char (c : ascii) : ascii :=
  if islower c then ascii_of_nat (ord c - 32) else c.

Definition lower (s : str) : str := map lower_char s.
Definition upper (s : str) : str := map upper_char s.

Definition eqc (a b : ascii) : bool := Ascii.eqb a b.

Fixpoint str_eqb (a b : str) : bool :=
  match a, b with
  | [], [] => true
  | x :: a', y :: b' => eqc x y && str_eqb a' b'
  | _, _ => false
  end.

(** [s.startswith(p)] *)
Fixpoint startswith (p s : str) : bool :=
  match p, s with
  | [], _ => true
  | x :: p', y :: s' => eqc x y && startswith p' s'
  | _ :: _, [] => false
  end.

(** [sub in s] *)
Fixpoint contains (sub s : str) : bool :=
  startswith sub s ||
  match s with
  | [] => false
  | _ :: t => contains sub t
  end.

(** [s.find(sub)], with [None] for Python's -1. *)
Fixpoint find (sub s : str) : option nat :=
  if startswith sub s then Some 0
  else match s with
       | [] => None
       | _ :: t => option_map S (find sub t)
       end.

Fixpoint dropwhile (p : ascii -> bool) (s : str) : str :=
  match s with
  | [] => []
  | c :: t => if p c then dropwhile p t else s
  end.

Definition lstrip (s : str) : str := dropwhile isspace s.
Definition rstrip (s : str) : str := rev (dropwhile isspace (rev s)).
(** [s.strip()] *)
Definition strip (s : str) : str := lstrip (rstrip s).

Definition cons_first (c : ascii) (l : list str) : list str :=
  match l with
  | h :: r => (c :: h) :: r
  | [] => [[c]]
  end.

(** [s.split(sep)] for a non-empty separator: the pieces between the
    occurrences of [sep], found left to right without overlap.  [skip]
    counts the characters of an occurrence still to be passed over. *)
Fixpoint split_go (sep : str) (skip : nat) (s : str) : list str :=
  match s with
  | [] => [[]]
  | c :: t =>
      match skip with
      | S k => split_go sep k t
      | O =>
          if startswith sep s
          then [] :: split_go sep (length sep - 1) t
          else cons_first c (split_go sep 0 t)
      end
  end.

Definition split (sep s : str) : list str := split_go sep 0 s.

(** [s.split()]: the maximal runs of non-whitespace characters. *)
Fixpoint split_ws_go (cur : str) (s : str) : list str :=
  match s with
  | [] => match cur with [] => [] | _ => [rev cur] end
  | c :: t =>
      if isspace c
      then match cur with
           | [] => split_ws_go [] t
           | _ => rev cur :: split_ws_go [] t
           end
      else split_ws_go (c :: cur) t
  end.

Definition split_ws (s : str) : list str := split_ws_go [] s.

(** [''.join(l)] *)
Definition join (l : list str) : str := concat l.

(** [re.sub(r'\s+', '', s)]: every whitespace run is deleted. *)
Definition remove_whitespace (s : str) : str :=
  filter (fun c => negb (isspace c)) s.

(** Lexicographic order on code points, the [<] of Python on [str]. *)
Fixpoint str_ltb (a b : str) : bool :=
  match a, b with
  | [], [] => false
  | [], _ :: _ => true
  | _ :: _, [] => false
  | x :: a', y :: b' =>
      if ord x <? ord y then true
      else if ord y <? ord x then false
      else str_ltb a' b'
  end.

(** ** Exceptions *)

Inductive exn :=
| ValueError
| IndexError
| FileNotFoundError
| PermissionError
| UnicodeDecodeError
| OSError.

Inductive result (A : Type) :=
| Ok (a : A)
| Raise (e : exn).
Arguments Ok {A} a.
Arguments Raise {A} e.

Definition bind {A B} (m : result A) (f : A -> result B) : result B :=
  match m with
  | Ok a => f a
  | Raise e => Raise e
  end.

Notation "x <- m ;; k" := (bind m (fun x => k))
  (at level 61, m at next level, right associativity).

(** [try: body except <classes>: handler]; [classes e] says whether the
    [except] clause names the class of [e]. *)
Definition try_except {A} (body : result A) (classes : exn -> bool)
    (handler : exn -> result A) : result A :=
  match body with
  | Ok a => Ok a
  | Raise e => if classes e then handler e else Raise e
  end.

(** Every modelled exception derives from [Exception]. *)
Definition Exception (e : exn) : bool := true.

Definition is_ValueError (e : exn) : bool :=
  match e with
  | ValueError | UnicodeDecodeError => true
  | _ => false
  end.

Definition is_IndexError (e : exn) : bool :=
  match e with
  | IndexError => true
  | _ => false
  end.

Definition is_FileNotFoundError (e : exn) : bool :=
  match e with
  | FileNotFoundError => true
  | _ => false
  end.

(** [l[i]] for a non-negative index. *)
Definition item {A} (l : list A) (i : nat) : result A :=
  match nth_error l i with
  | Some a => Ok a
  | None => Raise IndexError
  end.

(** ** Numbers *)

Definition float := spec_float.

(** The whitespace that [int] and [float] skip around a number in an
    ASCII string: TAB, LF, VT, FF, CR and the space. *)
Definition Py_ISSPACE (c : ascii) : bool := in_range 9 13 c || (ord c =? 32).

Definition strip_number (s : str) : str :=
  dropwhile Py_ISSPACE (rev (dropwhile Py_ISSPACE (rev s))).

Definition digit_value (c : ascii) : N := N.of_nat (ord c - 48).

Definition digits_value (d : str) : N :=
  fold_left (fun acc c => (10 * acc + digit_value c)%N) d 0%N.

(** After a digit of a [digitpart]: [(["_"] digit)*].  Returns the digits
    read (underscores dropped) and the text left. *)
Fixpoint digitpart_more (s : str) : str * str :=
  match s with
  | c :: t =>
      if isdigit c
      then let (d, r) := digitpart_more t in (c :: d, r)
      else if eqc c "_"%char
           then match t with
                | c' :: t' =>
                    if isdigit c'
                    then let (d, r) := digitpart_more t' in (c' :: d, r)
                    else ([], s)
                | [] => ([], s)
                end
           else ([], s)
  | [] => ([], s)
  end.

(** [digitpart ::= digit (["_"] digit)*] *)
Definition digitpart (s : str) : option (str * str) :=
  match s with
  | c :: t =>
      if isdigit c
      then let (d, r) := digitpart_more t in Some (c :: d, r)
      else None
  | [] => None
  end.

(** An optional sign: whether it is a minus, and the text after it. *)
Definition sign (s : str) : bool * str :=
  match s with
  | c :: t =>
      if eqc c "-"%char then (true, t)
      else if eqc c "+"%char then (false, t)
      else (false, s)
  | [] => (false, s)
  end.

(** [int(s)] in base 10. *)
Definition py_int (s : str) : result Z :=
  let (neg, u) := sign (strip_number s) in
  match digitpart u with
  | Some (d, []) =>
      let v := Z.of_N (digits_value d) in
      Ok (if neg then (- v)%Z else v)
  | _ => Raise ValueError
  end.

(** The binary64 nearest to [(-1)^neg * m * 10^e], ties to even. *)
Definition binary64_of_decimal (neg : bool) (m : N) (e : Z) : float :=
  match m with
  | N0 => S754_zero neg
  | Npos p =>
      match e with
      | Zneg k =>
          SFdiv 53 1024 (S754_finite neg p 0)
                        (S754_finite false (Pos.pow 10 k) 0)
      | Z0 => binary_round 53 1024 neg p 0
      | Zpos k => binary_round 53 1024 neg (p * Pos.pow 10 k) 0
      end
  end.

(** The exponent part and the end of a float literal:
    [[("e" | "E") [sign] digitpart]]. *)
Definition float_exponent (s : str) : option Z :=
  match s with
  | [] => Some 0%Z
  | c :: t =>
      if eqc (lower_char c) "e"%char
      then let (neg, u) := sign t in
           match digitpart u with
           | Some (d, []) =>
               let v := Z.of_N (digits_value d) in
               Some (if neg then (- v)%Z else v)
           | _ => None
           end
      else None
  end.

Definition float_finish (neg : bool) (ip fp rest : str) : result float :=
  match float_exponent rest with
  | Some ev =>
      Ok (binary64_of_decimal neg (digits_value (ip ++ fp))
            (ev - Z.of_nat (length fp))%Z)
  | None => Raise ValueError
  end.

(** [float(s)]: [[sign] (floatnumber | "inf" | "infinity" | "nan")] with
    [number ::= [digitpart] "." digitpart | digitpart ["."]]. *)
Definition py_float (s : str) : result float :=
  let (neg, u) := sign (strip_number s) in
  if str_eqb (lower u) "inf" || str_eqb (lower u) "infinity"
  then Ok (S754_infinity neg)
  else if str_eqb (lower u) "nan" then Ok S754_nan
  else
    match digitpart u with
    | Some (ip, r) =>
        match r with
        | c :: r' =>
            if eqc c "."%char
            then match digitpart r' with
                 | Some (fp, r'') => float_finish neg ip fp r''
                 | None => float_finish neg ip [] r'
                 end
            else float_finish neg ip [] r
        | [] => float_finish neg ip [] r
        end
    | None =>
        match u with
        | c :: r' =>
            if eqc c "."%char
            then match digitpart r' with
                 | Some (fp, r'') => float_finish neg [] fp r''
                 | None => Raise ValueError
                 end
            else Raise ValueError
        | [] => Raise ValueError
        end
    end.

Definition is_finite (f : float) : bool :=
  match f with
  | S754_zero _ | S754_finite _ _ _ => true
  | S754_infinity _ | S754_nan => false
  end.

(** [str(n)] for an integer. *)
Definition py_str_int (n : Z) : str :=
  String.list_ascii_of_string
    (DecimalString.NilZero.string_of_int (Z.to_int n)).

(** ** Regular expressions

    The patterns of the source are terms of [regex]; [rmatch] is a
    backtracking matcher with the priorities of Python's [re]: the left
    branch of an alternative first, as many iterations as possible first.
    The continuation receives the text left and the text of group 1.
    [Chr p] is a character class, [Dollar] is [$] (the end of the text,
    or just before a newline that ends it); the [^] of a pattern given to
    [re.match] asks nothing, since the match starts at the beginning. *)

Inductive regex :=
| Eps
| Chr (p : ascii -> bool)
| Cat (r1 r2 : regex)
| Alt (r1 r2 : regex)
| Star (r : regex)
| Group (r : regex)
| Dollar.

(** The iterations of [r*], greedy: [step] matches [r] once; an iteration
    has to consume a character, so [length s] iterations are enough. *)
Fixpoint star_loop {A}
    (step : str -> option str -> (str -> option str -> option A) -> option A)
    (k : str -> option str -> option A)
    (fuel : nat) (s : str) (g : option str) : option A :=
  match fuel with
  | O => k s g
  | S fuel' =>
      match step s g
              (fun s' g' =>
                 if length s' <? length s then star_loop step k fuel' s' g'
                 else None) with
      | Some a => Some a
      | None => k s g
      end
  end.

Fixpoint rmatch {A} (r : regex) (s : str) (g : option str)
    (k : str -> option str -> option A) : option A :=
  match r with
  | Eps => k s g
  | Chr p =>
      match s with
      | c :: t => if p c then k t g else None
      | [] => None
      end
  | Cat r1 r2 => rmatch r1 s g (fun s' g' => rmatch r2 s' g' k)
  | Alt r1 r2 =>
      match rmatch r1 s g k with
      | Some a => Some a
      | None => rmatch r2 s g k
      end
  | Star r1 =>
      star_loop (fun s' g' k' => rmatch r1 s' g' k') k (length s) s g
  | Group r1 =>
      rmatch r1 s g
        (fun s' _ => k s' (Some (firstn (length s - length s') s)))
  | Dollar =>
      match s with
      | [] => k s g
      | [c] => if eqc c LF then k s g else None
      | _ => None
      end
  end.

Definition Plus (r : regex) : regex := Cat r (Star r).
Definition Opt (r : regex) : regex := Alt r Eps.

(** A literal under [re.IGNORECASE]. *)
Fixpoint LitI (s : str) : regex :=
  match s with
  | [] => Eps
  | c :: t => Cat (Chr (fun x => eqc (lower_char x) (lower_char c))) (LitI t)
  end.

(** A match object: [group(1)] and the text from [end()] on. *)
Record match_obj := { group1 : option str; after : str }.

(** [re.match(r, s)]: a match at the start of [s]. *)
Definition re_match (r : regex) (s : str) : option match_obj :=
  rmatch r s None (fun s' g => Some {| group1 := g; after := s' |}).

(** The truth value of [re.match(r, s)]. *)
Definition is_match (r : regex) (s : str) : bool :=
  match re_match r s with
  | Some _ => true
  | None => false
  end.

(** [re.finditer(r, s)]: the matches from left to right, each search
    starting where the previous match ended. *)
Fixpoint finditer_go (fuel : nat) (r : regex) (s : str) : list match_obj :=
  match fuel with
  | O => []
  | S fuel' =>
      let next :=
        match s with
        | [] => []
        | _ :: t => finditer_go fuel' r t
        end in
      match re_match r s with
      | Some m =>
          m :: (if length (after m) <? length s
                then finditer_go fuel' r (after m)
                else next)
      | None => next
      end
  end.

Definition finditer (r : regex) (s : str) : list match_obj :=
  finditer_go (S (length s)) r s.

(** ** The data model *)

(** [@dataclass class AtomCoordinate] *)
Record AtomCoordinate := {
  element : str;
  x : float;
  y : float;
  z : float
}.

(** A [pathlib.Path], already parsed: the directories and the final
    component. *)
Record Path := { parent : list str; name : str }.

(** [rfind] of one character: the index of its last occurrence. *)
Fixpoint rfind_char (c : ascii) (s : str) : option nat :=
  match s with
  | [] => None
  | a :: t =>
      match rfind_char c t with
      | Some i => Some (S i)
      | None => if eqc a c then Some 0 else None
      end
  end.

(** [Path.suffix]: the final component from its last dot on, unless the
    dot is its first or its last character. *)
Definition suffix (p : Path) : str :=
  match rfind_char "."%char (name p) with
  | Some i =>
      if (0 <? i) && (i <? length (name p) - 1)
      then skipn i (name p)
      else []
  | None => []
  end.

(** What opening and reading a file gives: its bytes, or the exception
    raised. *)
Definition filesystem := Path -> result str.

(** Text mode with universal newlines: CR LF and CR are read as LF. *)
Fixpoint universal_newlines (s : str) : str :=
  match s with
  | [] => []
  | c :: t =>
      if eqc c CR
      then LF :: match t with
                 | c' :: t' =>
                     if eqc c' LF then universal_newlines t'
                     else universal_newlines t
                 | [] => []
                 end
      else c :: universal_newlines t
  end.

(** [Path.read_text(encoding='utf-8')] *)
Definition read_text (fs : filesystem) (p : Path) : result str :=
  data <- fs p ;; Ok (universal_newlines data).

(** ** [MolecularFileParser] *)

Definition ELEMENT_MAP : list (Z * str) :=
  [(1, "H"); (2, "He"); (3, "Li"); (4, "Be"); (5, "B"); (6, "C"); (7, "N");
   (8, "O"); (9, "F"); (10, "Ne"); (11, "Na"); (12, "Mg"); (13, "Al");
   (14, "Si"); (15, "P"); (16, "S"); (17, "Cl"); (18, "Ar"); (19, "K");
   (20, "Ca"); (21, "Sc"); (22, "Ti"); (23, "V"); (24, "Cr"); (25, "Mn");
   (26, "Fe"); (27, "Co"); (28, "Ni"); (29, "Cu"); (30, "Zn"); (31, "Ga");
   (32, "Ge"); (33, "As"); (34, "Se"); (35, "Br"); (36, "Kr"); (37, "Rb");
   (38, "Sr"); (39, "Y"); (40, "Zr"); (41, "Nb"); (42, "Mo"); (43, "Tc");
   (44, "Ru"); (45, "Rh"); (46, "Pd"); (47, "Ag"); (48, "Cd"); (49, "In");
   (50, "Sn"); (51, "Sb"); (52, "Te"); (53, "I"); (54, "Xe"); (55, "Cs");
   (56, "Ba"); (57, "La"); (58, "Ce"); (59, "Pr"); (60, "Nd"); (61, "Pm");
   (62, "Sm"); (63, "Eu"); (64, "Gd"); (65, "Tb"); (66, "Dy"); (67, "Ho");
   (68, "Er"); (69, "Tm"); (70, "Yb"); (71, "Lu"); (72, "Hf"); (73, "Ta");
   (74, "W"); (75, "Re"); (76, "Os"); (77, "Ir"); (78, "Pt"); (79, "Au");
   (80, "Hg"); (81, "Tl"); (82, "Pb"); (83, "Bi"); (84, "Po"); (85, "At");
   (86, "Rn"); (87, "Fr"); (88, "Ra"); (89, "Ac"); (90, "Th"); (91, "Pa");
   (92, "U"); (93, "Np"); (94, "Pu"); (95, "Am"); (96, "Cm"); (97, "Bk");
   (98, "Cf"); (99, "Es"); (100, "Fm"); (101, "Md"); (102, "No");
   (103, "Lr"); (104, "Rf"); (105, "Db"); (106, "Sg"); (107, "Bh");
   (108, "Hs"); (109, "Mt"); (110, "Ds"); (111, "Rg"); (112, "Cn");
   (113, "Nh"); (114, "Fl"); (115, "Mc"); (116, "Lv"); (117, "Ts");
   (118, "Og")]%Z.

(** [d.get(k, default)] on a dictionary with integer keys. *)
Fixpoint int_dict_get (d : list (Z * str)) (k : Z) (default : str) : str :=
  match d with
  | [] => default
  | (k', v) :: d' => if Z.eqb k' k then v else int_dict_get d' k default
  end.

Definition _read_file_content (fs : filesystem) (file_path : Path)
    : result (option str) :=
  try_except
    (try_except
       (content <- read_text fs file_path ;; Ok (Some content))
       is_FileNotFoundError (fun _ => Ok None))
    Exception (fun _ => Ok None).

Definition normal_termination_text : str := "Normal termination".

Definition _check_normal_termination (fs : filesystem) (file_path : Path)
    : result bool :=
  try_except
    (data <- fs file_path ;;
     let file_size := length data in
     let buffer_size := min 1000 file_size in
     let content_at_end :=
       universal_newlines (skipn (max 0 (file_size - buffer_size)) data) in
     let lines := split [LF] (strip content_at_end) in
     let last_line := last lines [] in
     Ok (contains normal_termination_text last_line))
    Exception (fun _ => Ok false).

Definition punch_marker : str := "The archive entry for this job was punched.".

(** The loop of [_find_punch_string] over the reversed lines. *)
Fixpoint punch_scan (lines : list str) (punch_lines : list str)
    (found_punch_start_delimiter : bool) : list str :=
  match lines with
  | [] => punch_lines
  | line :: rest =>
      let line := strip line in
      match line with
      | [] =>
          if found_punch_start_delimiter then punch_lines
          else punch_scan rest punch_lines found_punch_start_delimiter
      | _ :: _ =>
          if contains [BACKSLASH] line
          then punch_scan rest (punch_lines ++ [line]) true
          else if found_punch_start_delimiter then punch_lines
               else punch_scan rest punch_lines found_punch_start_delimiter
      end
  end.

Definition _find_punch_string (content : str) : option str :=
  match find punch_marker content with
  | None => None
  | Some punch_end_index =>
      let lines_before_marker :=
        split [LF] (strip (firstn punch_end_index content)) in
      match punch_scan (rev lines_before_marker) [] false with
      | [] => None
      | punch_lines => Some (join (rev punch_lines))
      end
  end.

Definition _get_element_symbol (atomic_number : Z) : str :=
  int_dict_get ELEMENT_MAP atomic_number (py_str_int atomic_number).

Definition _parse_coordinate_line (line : str)
    : result (option AtomCoordinate) :=
  let parts := split_ws line in
  if 6 <=? length parts
  then
    try_except
      (p1 <- item parts 1 ;;
       atomic_num <- py_int p1 ;;
       p3 <- item parts 3 ;;
       x_coord <- py_float p3 ;;
       p4 <- item parts 4 ;;
       y_coord <- py_float p4 ;;
       p5 <- item parts 5 ;;
       z_coord <- py_float p5 ;;
       let element_symbol := _get_element_symbol atomic_num in
       Ok (Some {| element := element_symbol;
                   x := x_coord; y := y_coord; z := z_coord |}))
      (fun e => is_ValueError e || is_IndexError e)
      (fun _ => Ok None)
  else Ok None.

(** [^[A-Za-z]+$] *)
Definition alpha_re : regex := Cat (Plus (Chr isalpha)) Dollar.

Definition _parse_input_coordinate_line (line : str)
    : result (option AtomCoordinate) :=
  let parts := split_ws line in
  if 4 <=? length parts
  then
    try_except
      (p0 <- item parts 0 ;;
       let element_symbol := strip p0 in
       if negb (is_match alpha_re element_symbol) then Ok None
       else
         p1 <- item parts 1 ;;
         x_coord <- py_float p1 ;;
         p2 <- item parts 2 ;;
         y_coord <- py_float p2 ;;
         p3 <- item parts 3 ;;
         z_coord <- py_float p3 ;;
         Ok (Some {| element := element_symbol;
                     x := x_coord; y := y_coord; z := z_coord |}))
      (fun e => is_ValueError e || is_IndexError e)
      (fun _ => Ok None)
  else Ok None.

(** [(?i)standard\s+orientation:] *)
Definition standard_orientation_re : regex :=
  Cat (LitI "standard") (Cat (Plus (Chr isspace)) (LitI "orientation:")).

Definition header_keywords : list str :=
  ["Center"; "Number"; "Atomic"; "Coordinates"; "Type"].

(** [any(kw in line for kw in kws)] *)
Definition any_in (kws : list str) (line : str) : bool :=
  existsb (fun kw => contains kw line) kws.

(** ['-----' in line and len(line) > 20] *)
Definition is_dash_line (line : str) : bool :=
  contains "-----" line && (20 <? length line).

(** The loop of [_extract_from_standard_orientation]. *)
Fixpoint standard_orientation_loop (lines : list str) (dash_line_count : nat)
    (coordinates_found : list AtomCoordinate)
    : result (list AtomCoordinate) :=
  match lines with
  | [] => Ok coordinates_found
  | line :: rest =>
      let line := strip line in
      if is_dash_line line
      then standard_orientation_loop rest (dash_line_count + 1)
             coordinates_found
      else
        match line with
        | [] => standard_orientation_loop rest dash_line_count
                  coordinates_found
        | _ :: _ =>
            if (dash_line_count =? 1) && any_in header_keywords line
            then standard_orientation_loop rest dash_line_count
                   coordinates_found
            else if dash_line_count =? 2
            then
              coord <- _parse_coordinate_line line ;;
              match coord with
              | Some c =>
                  standard_orientation_loop rest dash_line_count
                    (coordinates_found ++ [c])
              | None =>
                  standard_orientation_loop rest dash_line_count
                    coordinates_found
              end
            else if 3 <=? dash_line_count
            then Ok coordinates_found
            else standard_orientation_loop rest dash_line_count
                   coordinates_found
        end
  end.

Definition _extract_from_standard_orientation (content : str)
    : result (list AtomCoordinate) :=
  let matches := finditer standard_orientation_re content in
  match matches with
  | [] => Ok []
  | m :: matches' =>
      let last_match := last matches' m in
      let section_content := after last_match in
      let lines_in_section := split [LF] section_content in
      standard_orientation_loop lines_in_section 0 []
  end.

(** [^[A-Za-z]+(?:-[A-Za-z0-9]+)?$] *)
Definition punch_element_re : regex :=
  Cat (Plus (Chr isalpha))
      (Cat (Opt (Cat (Chr (eqc "-"%char)) (Plus (Chr isalnum)))) Dollar).

(** One turn of the loop of [_extract_from_punch] over the atom entries:
    the list of coordinates after the entry [entry_str]. *)
Definition punch_entry (entry_str : str)
    (coordinates_found : list AtomCoordinate)
    : result (list AtomCoordinate) :=
  match entry_str with
  | [] => Ok coordinates_found
  | _ :: _ =>
      let parts := split "," entry_str in
      if length parts =? 4
      then
        try_except
          (p0 <- item parts 0 ;;
           let element_symbol := strip p0 in
           let rest_of_body :=
             p1 <- item parts 1 ;;
             x_coord <- py_float p1 ;;
             p2 <- item parts 2 ;;
             y_coord <- py_float p2 ;;
             p3 <- item parts 3 ;;
             z_coord <- py_float p3 ;;
             Ok (coordinates_found ++
                 [{| element := element_symbol;
                     x := x_coord; y := y_coord; z := z_coord |}]) in
           if negb (is_match punch_element_re element_symbol)
           then if negb (is_match alpha_re element_symbol)
                then Ok coordinates_found
                else rest_of_body
           else rest_of_body)
          is_ValueError
          (fun _ => Ok coordinates_found)
      else Ok coordinates_found
  end.

Fixpoint punch_entries (atom_entries_list : list str)
    (coordinates_found : list AtomCoordinate)
    : result (list AtomCoordinate) :=
  match atom_entries_list with
  | [] => Ok coordinates_found
  | entry_str :: rest =>
      found <- punch_entry entry_str coordinates_found ;;
      punch_entries rest found
  end.

Definition _extract_from_punch (content : str)
    : result (list AtomCoordinate) :=
  match _find_punch_string content with
  | None | Some [] => Ok []
  | Some punch_string =>
      let punch_no_space := remove_whitespace punch_string in
      let punch_sections := split "\\" punch_no_space in
      if length punch_sections <? 4 then Ok []
      else
        coordinate_data_string <- item punch_sections 3 ;;
        match coordinate_data_string with
        | [] => Ok []
        | _ :: _ =>
            let atom_entries_list :=
              split [BACKSLASH] coordinate_data_string in
            punch_entries atom_entries_list []
        end
  end.

(** [^[+-]?\d+\s+[+-]?\d+\s*$] *)
Definition charge_multiplicity_re : regex :=
  let sign_re := Opt (Chr (fun c => eqc c "+"%char || eqc c "-"%char)) in
  Cat sign_re
    (Cat (Plus (Chr isdigit))
       (Cat (Plus (Chr isspace))
          (Cat sign_re
             (Cat (Plus (Chr isdigit)) (Cat (Star (Chr isspace)) Dollar))))).

(** The first loop of [_extract_from_input_file]: the index after the
    first charge and multiplicity line, [None] for -1. *)
Fixpoint find_charge_multiplicity (lines : list str) (i : nat) : option nat :=
  match lines with
  | [] => None
  | line_content :: rest =>
      let current_line_stripped := strip line_content in
      if is_match charge_multiplicity_re current_line_stripped
      then Some (i + 1)
      else find_charge_multiplicity rest (i + 1)
  end.

(** The second loop of [_extract_from_input_file], over the indices of
    [range(coord_section_start_line_idx, len(lines))]. *)
Fixpoint input_loop (lines : list str) (indices : list nat)
    (coordinates_found : list AtomCoordinate)
    : result (list AtomCoordinate) :=
  match indices with
  | [] => Ok coordinates_found
  | i :: rest =>
      line <- item lines i ;;
      let current_line_stripped := strip line in
      match current_line_stripped with
      | [] => Ok coordinates_found
      | _ :: _ =>
          coord <- _parse_input_coordinate_line current_line_stripped ;;
          match coord with
          | Some c => input_loop lines rest (coordinates_found ++ [c])
          | None => Ok coordinates_found
          end
      end
  end.

Definition _extract_from_input_file (content : str)
    : result (list AtomCoordinate) :=
  let lines := split [LF] content in
  match find_charge_multiplicity lines 0 with
  | None => Ok []
  | Some coord_section_start_line_idx =>
      input_loop lines
        (seq coord_section_start_line_idx
           (length lines - coord_section_start_line_idx)) []
  end.

(** [(?:angstrom|bohr|au)?\s*;?\s*(?:geometry|geom)\s*=\s*\{(BODY)\}]
    where [BODY] is [[^}]*], under [re.IGNORECASE | re.DOTALL]. *)
Definition geom_block_pattern : regex :=
  let ws := Star (Chr isspace) in
  Cat (Opt (Alt (LitI "angstrom") (Alt (LitI "bohr") (LitI "au"))))
    (Cat ws
       (Cat (Opt (Chr (eqc ";"%char)))
          (Cat ws
             (Cat (Alt (LitI "geometry") (LitI "geom"))
                (Cat ws
                   (Cat (Chr (eqc "="%char))
                      (Cat ws
                         (Cat (Chr (eqc "{"%char))
                            (Cat (Group
                                    (Star (Chr (fun c =>
                                                 negb (eqc c "}"%char)))))
                               (Chr (eqc "}"%char))))))))))).

Definition molpro_keywords : list str :=
  ["angstrom"; "bohr"; "au"; "symmetry"].

(** The inner loop of [_extract_from_molpro_file] over the lines of one
    geometry block. *)
Fixpoint molpro_block_loop (geom_lines : list str)
    (current_block_coords : list AtomCoordinate)
    : result (list AtomCoordinate) :=
  match geom_lines with
  | [] => Ok current_block_coords
  | line_content :: rest =>
      let line_stripped := strip line_content in
      match line_stripped with
      | [] => molpro_block_loop rest current_block_coords
      | _ :: _ =>
          if existsb (fun p => startswith p line_stripped) ["#"; "!"; "*"]
          then molpro_block_loop rest current_block_coords
          else if existsb (str_eqb (lower line_stripped)) molpro_keywords
                  || contains "=" line_stripped
          then molpro_block_loop rest current_block_coords
          else
            coord <- _parse_input_coordinate_line line_stripped ;;
            match coord with
            | Some c =>
                molpro_block_loop rest (current_block_coords ++ [c])
            | None => molpro_block_loop rest current_block_coords
            end
      end
  end.

(** The text of [match.group(1)] of a geometry block. *)
Definition block_body (m : match_obj) : str :=
  match group1 m with
  | Some b => b
  | None => []
  end.

(** The outer loop of [_extract_from_molpro_file] over the matches. *)
Fixpoint molpro_blocks_loop (blocks : list match_obj)
    : result (list AtomCoordinate) :=
  match blocks with
  | [] => Ok []
  | m :: rest =>
      let block_content_str := block_body m in
      let geom_lines := split [LF] (strip block_content_str) in
      current_block_coords <- molpro_block_loop geom_lines [] ;;
      match current_block_coords with
      | _ :: _ => Ok current_block_coords
      | [] => molpro_blocks_loop rest
      end
  end.

Definition _extract_from_molpro_file (content : str)
    : result (list AtomCoordinate) :=
  molpro_blocks_loop (finditer geom_block_pattern content).

Definition _is_gaussian_input_file (file_path : Path) : bool :=
  str_eqb (lower (suffix file_path)) ".com".

Definition _is_gaussian_log_file (file_path : Path) : bool :=
  str_eqb (lower (suffix file_path)) ".log".

Definition _is_molpro_file (file_path : Path) : bool :=
  existsb (str_eqb (lower (suffix file_path))) [".in"; ".out"].

Inductive file_type := gaussian_input | gaussian_log | molpro | unknown.

Definition _detect_file_type (file_path : Path) : file_type :=
  if _is_gaussian_input_file file_path then gaussian_input
  else if _is_gaussian_log_file file_path then gaussian_log
  else if _is_molpro_file file_path then molpro
  else unknown.

(** [extract_coordinates], with the method
    [self._extract_from_standard_orientation] as the parameter
    [standard_orientation]. *)
Definition extract_coordinates_with
    (standard_orientation : str -> result (list AtomCoordinate))
    (fs : filesystem) (file_path : Path) : result (list AtomCoordinate) :=
  content <- _read_file_content fs file_path ;;
  match content with
  | None => Ok []
  | Some content =>
      match _detect_file_type file_path with
      | gaussian_input => _extract_from_input_file content
      | gaussian_log =>
          normal_termination <- _check_normal_termination fs file_path ;;
          if normal_termination
          then
            coordinates_extracted <- _extract_from_punch content ;;
            match coordinates_extracted with
            | [] => standard_orientation content
            | _ :: _ => Ok coordinates_extracted
            end
          else standard_orientation content
      | molpro => _extract_from_molpro_file content
      | unknown => Ok []
      end
  end.

Definition extract_coordinates (fs : filesystem) (file_path : Path)
    : result (list AtomCoordinate) :=
  extract_coordinates_with _extract_from_standard_orientation fs file_path.

(** ** [MolecularFormulaGenerator] *)

(** A [Dict[str, int]] in insertion order. *)
Definition dict := list (str * nat).

Fixpoint dict_get (d : dict) (k : str) (default : nat) : nat :=
  match d with
  | [] => default
  | (k', v) :: d' => if str_eqb k' k then v else dict_get d' k default
  end.

(** [d[k] = v] *)
Fixpoint dict_set (d : dict) (k : str) (v : nat) : dict :=
  match d with
  | [] => [(k, v)]
  | (k', v') :: d' =>
      if str_eqb k' k then (k', v) :: d' else (k', v') :: dict_set d' k v
  end.

Definition keys (d : dict) : list str := map fst d.

(** The normalisation of an element symbol in [generate_formula]. *)
Definition normalize_symbol (element_symbol : str) : str :=
  if 1 <? length element_symbol
  then upper (firstn 1 element_symbol) ++ lower (skipn 1 element_symbol)
  else upper element_symbol.

(** The counting loop of [generate_formula]. *)
Fixpoint count_atoms (coordinates : list AtomCoordinate) (atom_count : dict)
    : dict :=
  match coordinates with
  | [] => atom_count
  | coord :: rest =>
      let element_symbol := normalize_symbol (element coord) in
      count_atoms rest
        (dict_set atom_count element_symbol
           (dict_get atom_count element_symbol 0 + 1))
  end.

(** [preferred_order.get(el_symbol, float('inf'))]: [None] is infinity. *)
Definition preferred_order (el_symbol : str) : option nat :=
  if str_eqb el_symbol "C" then Some 0
  else if str_eqb el_symbol "H" then Some 1
  else None.

Definition rank_ltb (a b : option nat) : bool :=
  match a, b with
  | Some m, Some n => m <? n
  | Some _, None => true
  | None, _ => false
  end.

(** The order of the sort keys [(preferred_order.get(el, inf), el)]. *)
Definition key_ltb (a b : str) : bool :=
  rank_ltb (preferred_order a) (preferred_order b)
  || (negb (rank_ltb (preferred_order b) (preferred_order a))
      && str_ltb a b).

Fixpoint insert_sorted (a : str) (l : list str) : list str :=
  match l with
  | [] => [a]
  | b :: l' => if key_ltb b a then b :: insert_sorted a l' else a :: l
  end.

(** [sorted(l, key=...)]: a stable sort by [key_ltb]. *)
Definition sorted (l : list str) : list str := fold_right insert_sorted [] l.

(** [f"{count if count > 1 else ''}"] *)
Definition count_suffix (count : nat) : str :=
  if 1 <? count then py_str_int (Z.of_nat count) else [].

Definition generate_formula (coordinates : list AtomCoordinate) : str :=
  match coordinates with
  | [] => []
  | _ :: _ =>
      let atom_count := count_atoms coordinates [] in
      let sorted_elements := sorted (keys atom_count) in
      join (map (fun element =>
                   element ++ count_suffix (dict_get atom_count element 0))
              sorted_elements)
  end.

(** ** The vocabulary of the specification

    The line classifiers under the names of the specification, and the
    descriptions it gives of each strategy, to be compared with the
    functions above. *)

(** The value of a call that did not raise; [None] otherwise. *)
Definition value_of {A} (r : result (option A)) : option A :=
  match r with
  | Ok o => o
  | Raise _ => None
  end.

Definition parseElementLine (line : str) : option AtomCoordinate :=
  value_of (_parse_input_coordinate_line line).

Definition parseCenterLine (line : str) : option AtomCoordinate :=
  value_of (_parse_coordinate_line line).

Definition looksLikeChargeMultiplicity (line : str) : bool :=
  is_match charge_multiplicity_re (strip line).

Definition isStructuralDelimiter (line : str) : bool :=
  is_dash_line (strip line).

Definition is_blank (line : str) : bool :=
  match strip line with
  | [] => true
  | _ :: _ => false
  end.

(** [float(s)] accepts [s]. *)
Definition float_accepts (s : str) : bool :=
  match py_float s with
  | Ok _ => true
  | Raise _ => false
  end.

(** The successes of a parser over a list of lines, in order. *)
Definition successes (parse : str -> option AtomCoordinate)
    (lines : list str) : list AtomCoordinate :=
  flat_map (fun l => match parse l with Some a => [a] | None => [] end) lines.

Definition last_error {A} (l : list A) : option A :=
  match l with
  | [] => None
  | a :: l' => Some (last l' a)
  end.

(** Standard orientation: the text after the last occurrence of the
    phrase, and the non-blank lines seen while the delimiter counter is 2. *)
Definition text_after_last_occurrence (content : str) : option str :=
  option_map after (last_error (finditer standard_orientation_re content)).

Fixpoint data_zone_lines (counter : nat) (lines : list str) : list str :=
  match lines with
  | [] => []
  | l :: rest =>
      if isStructuralDelimiter l then data_zone_lines (S counter) rest
      else if (counter =? 2) && negb (is_blank l)
           then l :: data_zone_lines counter rest
           else data_zone_lines counter rest
  end.

(** The delimiter counter after the lines [lines], from [counter]. *)
Fixpoint counter_after (counter : nat) (lines : list str) : nat :=
  match lines with
  | [] => counter
  | l :: rest =>
      counter_after (if isStructuralDelimiter l then S counter else counter)
        rest
  end.

(** Gaussian input: the lines after the first charge and multiplicity
    line, and the matches up to the first blank or unparsed line. *)
Fixpoint lines_after_charge_multiplicity (lines : list str)
    : option (list str) :=
  match lines with
  | [] => None
  | l :: rest =>
      if looksLikeChargeMultiplicity l then Some rest
      else lines_after_charge_multiplicity rest
  end.

Fixpoint leading_matches (lines : list str) : list AtomCoordinate :=
  match lines with
  | [] => []
  | l :: rest =>
      if is_blank l then []
      else match parseElementLine l with
           | Some a => a :: leading_matches rest
           | None => []
           end
  end.

(** Termination check: the last at most 1000 bytes as read in text mode,
    and the last line of a text that is not blank. *)
Definition tail_text (data : str) : str :=
  universal_newlines (skipn (length data - 1000) data).

Definition nonblank (l : str) : bool := negb (is_blank l).

(** A character of a token of [str.split()]. *)
Definition no_space (c : ascii) : bool := negb (isspace c).

Definition last_nonblank_line (text : str) : option str :=
  last_error (filter nonblank (split [LF] text)).

(** The last line of a text that has a character at all. *)
Definition last_nonempty_line (text : str) : option str :=
  last_error
    (filter (fun l => match l with [] => false | _ :: _ => true end)
       (split [LF] text)).

(** The last line of a text. *)
Definition last_line (text : str) : str := last (split [LF] text) [].

(** MOLPRO: the coordinates of one geometry block. *)
Definition block_lines (m : match_obj) : list str :=
  filter
    (fun l =>
       negb (is_blank l)
       && negb (existsb (fun p => startswith p (strip l)) ["#"; "!"; "*"])
       && negb (existsb (str_eqb (lower (strip l))) molpro_keywords
                || contains "=" (strip l)))
    (split [LF] (strip (block_body m))).

Definition block_coordinates (m : match_obj) : list AtomCoordinate :=
  successes parseElementLine (block_lines m).

(** [float(s)] accepts [s] and gives a finite value. *)
Definition parses_as_finite (s : str) : bool :=
  match py_float s with
  | Ok f => is_finite f
  | Raise _ => false
  end.

(** Formula: the number of atoms whose normalised symbol is [sym], and
    the Hill order: carbon, then hydrogen, then the others by [<]. *)
Definition count_symbol (sym : str) (coordinates : list AtomCoordinate)
    : nat :=
  length (filter (fun c => str_eqb (normalize_symbol (element c)) sym)
            coordinates).

Definition hill_lt (a b : str) : Prop :=
  if str_eqb a "C" then b <> "C"
  else if str_eqb a "H" then b <> "C" /\ b <> "H"
  else b <> "C" /\ b <> "H" /\ str_ltb a b = true.

(** What the counting loop of [generate_formula] keeps true of the
    dictionary [d] after the atoms [seen]. *)
Definition tally_of (d : dict) (seen : list AtomCoordinate) : Prop :=
  NoDup (keys d)
  /\ (forall e, dict_get d e 0 = count_symbol e seen)
  /\ (forall e, In e (keys d) <-> 0 < count_symbol e seen).

Definition with_normalized_symbol (c : AtomCoordinate) : AtomCoordinate :=
  {| element := normalize_symbol (element c); x := x c; y := y c; z := z c |}.

(** The language of a pattern: [rel r s s'] says that [r] matches a
    prefix of [s] and leaves [s'].  An iteration of a star consumes at
    least one character. *)
Inductive rel : regex -> str -> str -> Prop :=
| rel_Eps s : rel Eps s s
| rel_Chr p c s : p c = true -> rel (Chr p) (c :: s) s
| rel_Cat r1 r2 s m s' : rel r1 s m -> rel r2 m s' -> rel (Cat r1 r2) s s'
| rel_Alt_l r1 r2 s s' : rel r1 s s' -> rel (Alt r1 r2) s s'
| rel_Alt_r r1 r2 s s' : rel r2 s s' -> rel (Alt r1 r2) s s'
| rel_Star_stop r s : rel (Star r) s s
| rel_Star_step r s m s' :
    rel r s m -> length m < length s -> rel (Star r) m s' ->
    rel (Star r) s s'
| rel_Group r s s' : rel r s s' -> rel (Group r) s s'
| rel_Dollar_end : rel Dollar [] []
| rel_Dollar_newline : rel Dollar [LF] [LF].

(** The shape of a charge and multiplicity line: two integers, each with
    an optional sign, separated by whitespace. *)
Definition optional_sign (s : str) : Prop := s = [] \/ s = "+" \/ s = "-".

Definition run_of (p : ascii -> bool) (s : str) : Prop :=
  s <> [] /\ forallb p s = true.

Definition two_signed_integers (s : str) : Prop :=
  exists s1 d1 w s2 d2,
    s = s1 ++ d1 ++ w ++ s2 ++ d2
    /\ optional_sign s1 /\ run_of isdigit d1
    /\ run_of isspace w
    /\ optional_sign s2 /\ run_of isdigit d2.

(** The phrase of the standard orientation section, in any case and
    with any whitespace between its two words; a text without it. *)
Definition is_phrase (phrase : str) : Prop :=
  exists w, run_of isspace w
            /\ lower phrase = "standard" ++ w ++ "orientation:".

Definition no_occurrence (text : str) : Prop :=
  forall before phrase rest,
    text = before ++ phrase ++ rest -> ~ is_phrase phrase.

(** ** Sample files *)

Definition zero : float := S754_zero false.
Definition one : float := S754_finite false 4503599627370496 (-52).
Definition one_point_one : float :=
  S754_finite false 4953959590107546 (-52).

Definition atom (e : str) (x y z : float) : AtomCoordinate :=
  {| element := e; x := x; y := y; z := z |}.

(** [[AtomCoordinate(C,0,0,1.1), AtomCoordinate(H,0,0,0)]] *)
Definition carbon_hydrogen : list AtomCoordinate :=
  [atom "C" zero zero one_point_one; atom "H" zero zero zero].

(** The coordinate section of an archive entry with these two atoms. *)
Definition carbon_hydrogen_section : str := "C,0.,0.,1.1\H,0.,0.,0.".

(** A Gaussian log: an archive entry wrapped over two lines, the punch
    marker and the termination line. *)
Definition punch_log : str :=
  " Job cpu time: 0 days" ++ [LF] ++ [LF] ++
  " 1\1\GINC-NODE\SP\RHF\STO-3G\C1H1\\#HF/STO-3G\\0,1\\C,0.,0.,1" ++ [LF] ++
  " .1\H,0.,0.,0.\\Version=ES64L\HF=-37.9\\@" ++ [LF] ++ [LF] ++
  " The archive entry for this job was punched." ++ [LF] ++
  " Normal termination of Gaussian 16." ++ [LF].

(** The same log followed by a thousand empty lines. *)
Definition padded_punch_log : str := punch_log ++ repeat LF 1000.

(** A log whose archive entry has an isotope-tagged carbon. *)
Definition isotope_log : str :=
  " 1\1\GINC-NODE\SP\RHF\STO-3G\C1H1\\#HF/STO-3G\\0,1\\C-13,0.,0.,1.1\H," ++
  [LF] ++ " 0.,0.,0.\\Version=ES64L\HF=-37.9\\@" ++ [LF] ++ [LF] ++
  " The archive entry for this job was punched." ++ [LF] ++
  " Normal termination of Gaussian 16." ++ [LF].

Definition job_log : Path := {| parent := ["runs"]; name := "job.log" |}.
Definition job_out : Path := {| parent := ["runs"]; name := "job.out" |}.

(** A file system with the same bytes under every path. *)
Definition only_file (data : str) : filesystem := fun _ => Ok data.

(** A MOLPRO file with two geometry blocks: the first holds a comment
    only, the second an oxygen and a hydrogen atom. *)
Definition two_blocks : str :=
  "geom={" ++ [LF] ++ "! no atoms here" ++ [LF] ++ "}" ++ [LF] ++
  "geometry={" ++ [LF] ++ "O 0.0 0.0 0.0" ++ [LF] ++ "H 0.0 0.0 1.0" ++
  [LF] ++ "}" ++ [LF].

Definition oxygen_hydrogen : list AtomCoordinate :=
  [atom "O" zero zero zero; atom "H" zero zero one].

Definition dashes : str :=
  " ---------------------------------------------------------------------".

(** One standard orientation section with the atom of atomic number
    [atomic_number] at the origin. *)
Definition orientation_section (atomic_number : str) : str :=
  "                         Standard orientation:" ++ [LF] ++
  dashes ++ [LF] ++
  " Center     Atomic      Atomic             Coordinates (Angstroms)" ++
  [LF] ++
  " Number     Number       Type             X           Y           Z" ++
  [LF] ++
  dashes ++ [LF] ++
  "      1          " ++ atomic_number ++
  "           0        0.000000    0.000000    0.000000" ++ [LF] ++
  dashes ++ [LF] ++
  " Rotational constants (GHZ): 0.0 0.0 0.0" ++ [LF].

(** A log of two geometry steps: a carbon atom, then a nitrogen atom. *)
Definition two_orientations : str :=
  orientation_section "6" ++ " SCF Done" ++ [LF] ++ orientation_section "7".

(** ** [CoordinateFormatter] *)

(** The alignment [<width] of a format field: [s.ljust(width)]. *)
Definition ljust (width : nat) (s : str) : str :=
  s ++ repeat " "%char (width - length s).

Definition digit_char (d : N) : ascii := ascii_of_nat (48 + N.to_nat d).

(** The last [width] decimal digits of [n], most significant first. *)
Fixpoint fixed_digits (width : nat) (n : N) : str :=
  match width with
  | O => []
  | S w => fixed_digits w (n / 10) ++ [digit_char (n mod 10)]
  end.

(** The integer nearest to [m * 2^e * 10^10], ties to even. *)
Definition scaled_round (m : positive) (e : Z) : N :=
  let num := (Npos m * 10 ^ 10)%N in
  match e with
  | Zneg k =>
      let den := (2 ^ Npos k)%N in
      let q := (num / den)%N in
      match (2 * (num mod den) ?= den)%N with
      | Lt => q
      | Gt => (q + 1)%N
      | Eq => if N.even q then q else (q + 1)%N
      end
  | Z0 => num
  | Zpos k => (num * 2 ^ Npos k)%N
  end.

Definition minus_sign (negative : bool) : str :=
  if negative then "-" else [].

(** [f"{v:.10f}"]: the decimal expansion of [v] rounded to ten places. *)
Definition format_10f (v : float) : str :=
  match v with
  | S754_nan => "nan"
  | S754_infinity s => minus_sign s ++ "inf"
  | S754_zero s => minus_sign s ++ "0.0000000000"
  | S754_finite s m e =>
      let q := scaled_round m e in
      minus_sign s ++ py_str_int (Z.of_N (q / 10 ^ 10)) ++ "." ++
      fixed_digits 10 (q mod 10 ^ 10)
  end.

(** [f"{coord.element},{coord.x:.10f},{coord.y:.10f},{coord.z:.10f}"] *)
Definition csv_row (coord : AtomCoordinate) : str :=
  element coord ++ "," ++ format_10f (x coord) ++ "," ++
  format_10f (y coord) ++ "," ++ format_10f (z coord).

(** [f"{coord.element:<8} {coord.x:<15.10f} {coord.y:<15.10f}
    {coord.z:<15.10f}"] *)
Definition table_row (coord : AtomCoordinate) : str :=
  ljust 8 (element coord) ++ " " ++ ljust 15 (format_10f (x coord)) ++ " " ++
  ljust 15 (format_10f (y coord)) ++ " " ++ ljust 15 (format_10f (z coord)).

Section Formatter.

(** [str(file_path)], the text of a path in an f-string. *)
Variable path_str : Path -> str.

(** [print_coordinates]: the lines written to the standard output, one
    for each call of [print]. *)
Definition print_coordinates (coordinates : list AtomCoordinate)
    (file_path : option Path) (show_details : bool) (output_format : str)
    : list str :=
  match coordinates with
  | [] =>
      if str_eqb output_format "csv"
      then match file_path with
           | Some p => ["# File: " ++ path_str p ++ ", No coordinates found."]
           | None => ["# No coordinates found."]
           end
      else
        let file_name_display :=
          match file_path with
          | Some p => "Coordinates from " ++ path_str p
          | None => "Coordinates"
          end in
        [file_name_display ++ " | No coordinates found."]
  | _ :: _ =>
      let formula := generate_formula coordinates in
      let num_atoms := py_str_int (Z.of_nat (length coordinates)) in
      if str_eqb output_format "csv"
      then
        match file_path with
        | Some p =>
            "# File: " ++ path_str p ++ ", Atoms: " ++ num_atoms ++
            ", Formula: " ++ formula
        | None => "# Atoms: " ++ num_atoms ++ ", Formula: " ++ formula
        end
        :: (if show_details
            then "Element,X,Y,Z" :: map csv_row coordinates
            else [])
      else
        let file_name_display :=
          match file_path with
          | Some p => "Coordinates from " ++ path_str p
          | None => "Coordinates"
          end in
        (file_name_display ++ " | Atoms: " ++ num_atoms ++ " | Formula: " ++
         formula)
        :: (if show_details
            then [] :: map table_row coordinates ++ [[]]
            else [])
  end.

End Formatter.

(** ** More vocabulary

    The descriptions used by the properties of the functions that the
    specification does not describe. *)

(** What one entry of the coordinate section of an archive entry
    contributes: one atom or nothing. *)
Definition entry_atoms (entry : str) : list AtomCoordinate :=
  match split "," entry with
  | [p0; p1; p2; p3] =>
      if is_match punch_element_re (strip p0)
      then match py_float p1, py_float p2, py_float p3 with
           | Ok x, Ok y, Ok z => [atom (strip p0) x y z]
           | _, _, _ => []
           end
      else []
  | _ => []
  end.

(** The entries of the coordinate section of an archive entry: the
    fourth of the parts that two backslashes separate, cut at every
    backslash. *)
Definition coordinate_entries (punch_string : str) : list str :=
  match nth_error (split "\\" (remove_whitespace punch_string)) 3 with
  | Some section => split [BACKSLASH] section
  | None => []
  end.

(** A letter, a digit or a hyphen. *)
Definition symbol_char (c : ascii) : bool := isalnum c || eqc c "-"%char.

(** An element symbol with an optional tag: letters, then possibly a
    hyphen and letters or digits. *)
Definition tagged_symbol (s : str) : Prop :=
  exists d, run_of isalpha d
            /\ (s = d \/ exists t, run_of isalnum t /\ s = d ++ "-" ++ t).

(** A text with the line ends of Windows: every newline becomes a
    carriage return and a newline. *)
Fixpoint to_crlf (s : str) : str :=
  match s with
  | [] => []
  | c :: t => if eqc c LF then CR :: LF :: to_crlf t else c :: to_crlf t
  end.

(** The sum of the counts of a dictionary. *)
Definition total_count (d : dict) : nat := list_sum (map snd d).

(** The value that [float] reads from a coordinate printed with ten
    decimal places. *)
Definition read_back (v : float) : float :=
  match py_float (format_10f v) with
  | Ok w => w
  | Raise _ => v
  end.

(** An atom as it is read from its printed row. *)
Definition printed (coord : AtomCoordinate) : AtomCoordinate :=
  atom (element coord) (read_back (x coord)) (read_back (y coord))
    (read_back (z coord)).

(** ** More sample files *)

Definition notes_txt : Path := {| parent := ["runs"]; name := "notes.txt" |}.

(** A log that stops before any geometry is printed. *)
Definition unfinished_log : str := " Entering Link 1" ++ [LF] ++ " SCF Done" ++ [LF].

(** A Gaussian input with the two atoms of [carbon_hydrogen], without
    the blank line that ends it, and a second molecule specification. *)
Definition first_molecule : str :=
  "# HF/STO-3G" ++ [LF] ++ [LF] ++ "methylidyne" ++ [LF] ++ [LF] ++
  "0 2" ++ [LF] ++ "C 0.0 0.0 1.1" ++ [LF] ++ "H 0.0 0.0 0.0".

Definition second_molecule : str :=
  "--Link1--" ++ [LF] ++ "0 1" ++ [LF] ++ "O 0.0 0.0 0.0" ++ [LF].

(** The table that follows the phrase in a standard orientation
    section, with a nitrogen atom at the origin. *)
Definition nitrogen_table : str :=
  [LF] ++ dashes ++ [LF] ++
  " Center     Atomic      Atomic             Coordinates (Angstroms)" ++
  [LF] ++
  " Number     Number       Type             X           Y           Z" ++
  [LF] ++
  dashes ++ [LF] ++
  "      1          7           0        0.000000    0.000000    0.000000" ++
  [LF] ++ dashes ++ [LF].

(** * Properties *)

(** ** Exceptions are absorbed *)

Lemma py_float_raises s e : py_float s = Raise e -> e = ValueError.
Proof.
  unfold py_float, float_finish.
  repeat match goal with
         | |- context [match ?t with _ => _ end] => destruct t
         end; congruence.
Qed.

Lemma py_int_raises s e : py_int s = Raise e -> e = ValueError.
Proof.
  unfold py_int.
  repeat match goal with
         | |- context [match ?t with _ => _ end] => destruct t
         end; congruence.
Qed.

Lemma item_raises A (l : list A) i e : item l i = Raise e -> e = IndexError.
Proof.
  unfold item. destruct (nth_error l i); congruence.
Qed.

Lemma item_Ok A (l : list A) i a : item l i = Ok a <-> nth_error l i = Some a.
Proof.
  unfold item. destruct (nth_error l i); split; congruence.
Qed.

Lemma item_in_range A (l : list A) i :
  i < length l -> exists a, item l i = Ok a.
Proof.
  intros H. unfold item. destruct (nth_error l i) eqn:E; eauto.
  apply nth_error_None in E. lia.
Qed.

(** One step of a body under [try ... except]: a call either returns or
    raises [ValueError] or [IndexError]. *)
Ltac absorb_call :=
  match goal with
  | |- context [bind (item ?l ?i) _] =>
      let E := fresh "E" in
      destruct (item l i) eqn:E; cbn [bind try_except];
      [ | apply item_raises in E; subst ]
  | |- context [bind (py_float ?s) _] =>
      let E := fresh "E" in
      destruct (py_float s) eqn:E; cbn [bind try_except];
      [ | apply py_float_raises in E; subst ]
  | |- context [bind (py_int ?s) _] =>
      let E := fresh "E" in
      destruct (py_int s) eqn:E; cbn [bind try_except];
      [ | apply py_int_raises in E; subst ]
  end.

Ltac absorbed :=
  cbn [bind try_except is_ValueError is_IndexError orb]; eauto.

Lemma _parse_coordinate_line_total line :
  exists r, _parse_coordinate_line line = Ok r.
Proof.
  unfold _parse_coordinate_line.
  destruct (6 <=? length (split_ws line)); [ | eauto ].
  repeat absorb_call; absorbed.
Qed.

Lemma _parse_input_coordinate_line_total line :
  exists r, _parse_input_coordinate_line line = Ok r.
Proof.
  unfold _parse_input_coordinate_line.
  destruct (4 <=? length (split_ws line)); [ | eauto ].
  absorb_call; [ | absorbed ].
  destruct (negb (is_match alpha_re (strip a))); [ absorbed | ].
  repeat absorb_call; absorbed.
Qed.

Lemma parseCenterLine_eq line :
  _parse_coordinate_line line = Ok (parseCenterLine line).
Proof.
  unfold parseCenterLine.
  destruct (_parse_coordinate_line_total line) as [r ->]. reflexivity.
Qed.

Lemma parseElementLine_eq line :
  _parse_input_coordinate_line line = Ok (parseElementLine line).
Proof.
  unfold parseElementLine.
  destruct (_parse_input_coordinate_line_total line) as [r ->]. reflexivity.
Qed.

Lemma standard_orientation_loop_total lines :
  forall n acc, exists l, standard_orientation_loop lines n acc = Ok l.
Proof.
  induction lines as [ | line rest IH]; intros n acc;
    cbn [standard_orientation_loop]; [ eauto | ].
  destruct (is_dash_line (strip line)); [ apply IH | ].
  destruct (strip line) eqn:E; [ apply IH | ].
  destruct ((n =? 1) && any_in header_keywords (a :: s)); [ apply IH | ].
  destruct (n =? 2).
  - rewrite parseCenterLine_eq. cbn [bind].
    destruct (parseCenterLine (a :: s)); apply IH.
  - destruct (3 <=? n); [ eauto | apply IH ].
Qed.

Lemma _extract_from_standard_orientation_total content :
  exists l, _extract_from_standard_orientation content = Ok l.
Proof.
  unfold _extract_from_standard_orientation.
  destruct (finditer standard_orientation_re content); [ eauto | ].
  apply standard_orientation_loop_total.
Qed.

Lemma punch_entry_total entry acc :
  exists l, punch_entry entry acc = Ok l.
Proof.
  unfold punch_entry. destruct entry as [ | c entry]; [ eauto | ].
  destruct (length (split "," (c :: entry)) =? 4) eqn:L; [ | eauto ].
  apply Nat.eqb_eq in L.
  destruct (item_in_range (split "," (c :: entry)) (i := 0)) as [p0 E0];
    [ lia | ].
  destruct (item_in_range (split "," (c :: entry)) (i := 1)) as [p1 E1];
    [ lia | ].
  destruct (item_in_range (split "," (c :: entry)) (i := 2)) as [p2 E2];
    [ lia | ].
  destruct (item_in_range (split "," (c :: entry)) (i := 3)) as [p3 E3];
    [ lia | ].
  rewrite E0, E1, E2, E3. cbn [bind].
  assert (H : exists l,
             try_except
               (x_coord <- py_float p1 ;;
                y_coord <- py_float p2 ;;
                z_coord <- py_float p3 ;;
                Ok (acc ++ [{| element := strip p0; x := x_coord;
                               y := y_coord; z := z_coord |}]))
               is_ValueError (fun _ => Ok acc) = Ok l).
  { repeat absorb_call; absorbed. }
  destruct (negb (is_match punch_element_re (strip p0)));
    [ destruct (negb (is_match alpha_re (strip p0))); [ cbn; eauto | ] | ];
    exact H.
Qed.

Lemma punch_entries_total entries :
  forall acc, exists l, punch_entries entries acc = Ok l.
Proof.
  induction entries as [ | e rest IH]; intros acc; cbn [punch_entries];
    [ eauto | ].
  destruct (punch_entry_total e acc) as [l ->]. cbn [bind]. apply IH.
Qed.

Lemma _extract_from_punch_total content :
  exists l, _extract_from_punch content = Ok l.
Proof.
  unfold _extract_from_punch.
  destruct (_find_punch_string content) as [[ | c p] | ]; eauto.
  destruct (length (split "\\" (remove_whitespace (c :: p))) <? 4) eqn:L;
    [ eauto | ].
  apply Nat.ltb_ge in L.
  destruct (item_in_range (split "\\" (remove_whitespace (c :: p))) (i := 3))
    as [sec ->]; [ lia | ].
  cbn [bind]. destruct sec; [ eauto | ].
  apply punch_entries_total.
Qed.

Lemma input_loop_total lines indices :
  Forall (fun i => i < length lines) indices ->
  forall acc, exists l, input_loop lines indices acc = Ok l.
Proof.
  induction 1 as [ | i rest Hi _ IH]; intros acc; cbn [input_loop];
    [ eauto | ].
  destruct (item_in_range lines Hi) as [line ->]. cbn [bind].
  destruct (strip line) eqn:E; [ eauto | ].
  rewrite parseElementLine_eq. cbn [bind].
  destruct (parseElementLine (a :: s)); [ apply IH | eauto ].
Qed.

Lemma find_charge_multiplicity_bound lines :
  forall i j, find_charge_multiplicity lines i = Some j ->
              i < j <= i + length lines.
Proof.
  induction lines as [ | l rest IH]; intros i j;
    cbn [find_charge_multiplicity length]; [ discriminate | ].
  destruct (is_match charge_multiplicity_re (strip l)).
  - intros [= <-]. lia.
  - intros H. apply IH in H. lia.
Qed.

Lemma _extract_from_input_file_total content :
  exists l, _extract_from_input_file content = Ok l.
Proof.
  unfold _extract_from_input_file.
  destruct (find_charge_multiplicity (split [LF] content) 0) as [j | ] eqn:E;
    [ | eauto ].
  apply input_loop_total. apply Forall_forall. intros i Hi.
  apply in_seq in Hi. apply find_charge_multiplicity_bound in E. lia.
Qed.

Lemma molpro_block_loop_total geom_lines :
  forall acc, exists l, molpro_block_loop geom_lines acc = Ok l.
Proof.
  induction geom_lines as [ | line rest IH]; intros acc;
    cbn [molpro_block_loop]; [ eauto | ].
  destruct (strip line) eqn:E; [ apply IH | ].
  destruct (existsb _ _); [ apply IH | ].
  destruct (_ || _); [ apply IH | ].
  rewrite parseElementLine_eq. cbn [bind].
  destruct (parseElementLine (a :: s)); apply IH.
Qed.

Lemma molpro_blocks_loop_total blocks :
  exists l, molpro_blocks_loop blocks = Ok l.
Proof.
  induction blocks as [ | m rest IH]; cbn [molpro_blocks_loop]; [ eauto | ].
  destruct (molpro_block_loop_total (split [LF] (strip (block_body m))) [])
    as [l ->].
  cbn [bind]. destruct l; eauto.
Qed.

Lemma _check_normal_termination_total fs p :
  exists b, _check_normal_termination fs p = Ok b.
Proof.
  unfold _check_normal_termination. destruct (fs p); cbn; eauto.
Qed.

Lemma _read_file_content_total fs p :
  exists c, _read_file_content fs p = Ok c.
Proof.
  unfold _read_file_content, read_text.
  destruct (fs p) as [data | e]; cbn; [ eauto | ].
  destruct (is_FileNotFoundError e); cbn; eauto.
Qed.

(** C10.  For every file system and every path, [extract_coordinates]
    returns a list of coordinates: no exception of reading the file, of
    the termination check, of [int], of [float] or of indexing leaves
    it. *)
Theorem extract_coordinates_total (fs : filesystem) (file_path : Path) :
  exists coordinates, extract_coordinates fs file_path = Ok coordinates.
Proof.
  unfold extract_coordinates, extract_coordinates_with.
  destruct (_read_file_content_total fs file_path) as [[content | ] ->];
    cbn [bind]; [ | eauto ].
  destruct (_detect_file_type file_path).
  - apply _extract_from_input_file_total.
  - destruct (_check_normal_termination_total fs file_path) as [b ->].
    cbn [bind]. destruct b.
    + destruct (_extract_from_punch_total content) as [[ | c l] ->];
        cbn [bind]; [ apply _extract_from_standard_orientation_total | eauto ].
    + apply _extract_from_standard_orientation_total.
  - apply molpro_blocks_loop_total.
  - eauto.
Qed.

(** ** Characters and strings *)

Lemma eqc_eq a b : eqc a b = true <-> a = b.
Proof. apply Ascii.eqb_eq. Qed.

Lemma eqc_refl a : eqc a a = true.
Proof. apply Ascii.eqb_refl. Qed.

Lemma str_eqb_eq a : forall b, str_eqb a b = true <-> a = b.
Proof.
  induction a as [ | x a IH]; intros [ | y b]; cbn; split;
    try congruence; try reflexivity.
  - intros H. apply andb_true_iff in H as [H1 H2].
    apply eqc_eq in H1. apply IH in H2. congruence.
  - intros [= -> ->]. rewrite eqc_refl. cbn. now apply IH.
Qed.

Lemma str_eqb_refl a : str_eqb a a = true.
Proof. now apply str_eqb_eq. Qed.

Lemma str_eqb_neq a b : str_eqb a b = false <-> a <> b.
Proof.
  split.
  - intros H E. apply str_eqb_eq in E. congruence.
  - intros H. destruct (str_eqb a b) eqn:E; [ | reflexivity ].
    apply str_eqb_eq in E. contradiction.
Qed.

Lemma dropwhile_decompose p s :
  exists w, s = w ++ dropwhile p s /\ forallb p w = true.
Proof.
  induction s as [ | c s (w & E & H)]; cbn.
  - now exists [].
  - destruct (p c) eqn:Hc.
    + exists (c :: w). cbn. rewrite Hc, H. split; [ now f_equal | reflexivity ].
    + now exists [].
Qed.

Lemma dropwhile_head p s c t : dropwhile p s = c :: t -> p c = false.
Proof.
  induction s as [ | a s IH]; cbn; [ discriminate | ].
  destruct (p a) eqn:Ha; [ exact IH | ]. intros [= <- <-]. exact Ha.
Qed.

Lemma dropwhile_all p s : forallb p s = true -> dropwhile p s = [].
Proof.
  induction s as [ | a s IH]; cbn; [ reflexivity | ].
  destruct (p a); cbn; [ exact IH | discriminate ].
Qed.

(** [s] is [rstrip s] followed by whitespace. *)
Lemma rstrip_decompose s :
  exists w, s = rstrip s ++ w /\ forallb isspace w = true.
Proof.
  unfold rstrip.
  destruct (dropwhile_decompose isspace (rev s)) as (w & E & H).
  exists (rev w). split.
  - rewrite <- rev_app_distr, <- E. now rewrite rev_involutive.
  - rewrite forallb_forall in *. intros c Hc. apply H. now apply in_rev.
Qed.

Lemma lstrip_decompose s :
  exists w, s = w ++ lstrip s /\ forallb isspace w = true.
Proof. apply dropwhile_decompose. Qed.

Lemma rstrip_snoc s c :
  rstrip (s ++ [c]) = if isspace c then rstrip s else s ++ [c].
Proof.
  unfold rstrip. rewrite rev_app_distr. cbn.
  destruct (isspace c); [ reflexivity | ].
  cbn. now rewrite rev_involutive.
Qed.

Lemma split_ws_go_app_spaces w :
  forallb isspace w = true ->
  forall s cur, split_ws_go cur (s ++ w) = split_ws_go cur s.
Proof.
  intros Hw. induction s as [ | c s IH]; intros cur; cbn.
  - revert cur. induction w as [ | c w IHw]; intros cur; [ reflexivity | ].
    cbn in Hw. apply andb_true_iff in Hw as [Hc Hw]. cbn. rewrite Hc.
    destruct cur; rewrite (IHw Hw); reflexivity.
  - destruct (isspace c); [ destruct cur | ]; now rewrite IH.
Qed.

Lemma split_ws_spaces_app w :
  forallb isspace w = true ->
  forall s, split_ws_go [] (w ++ s) = split_ws_go [] s.
Proof.
  induction w as [ | c w IH]; intros Hw s; [ reflexivity | ].
  cbn in Hw. apply andb_true_iff in Hw as [Hc Hw].
  cbn. rewrite Hc. now apply IH.
Qed.

(** [str.split()] does not see the whitespace that [str.strip()] takes
    away. *)
Lemma split_ws_strip s : split_ws (strip s) = split_ws s.
Proof.
  unfold split_ws, strip.
  destruct (rstrip_decompose s) as (w & E & Hw).
  destruct (lstrip_decompose (rstrip s)) as (v & E' & Hv).
  rewrite E at 2. rewrite split_ws_go_app_spaces by exact Hw.
  rewrite E' at 2. now rewrite split_ws_spaces_app by exact Hv.
Qed.

Lemma _parse_coordinate_line_strip line :
  _parse_coordinate_line (strip line) = _parse_coordinate_line line.
Proof. unfold _parse_coordinate_line. now rewrite split_ws_strip. Qed.

Lemma _parse_input_coordinate_line_strip line :
  _parse_input_coordinate_line (strip line) =
  _parse_input_coordinate_line line.
Proof. unfold _parse_input_coordinate_line. now rewrite split_ws_strip. Qed.

Lemma parseCenterLine_strip line :
  parseCenterLine (strip line) = parseCenterLine line.
Proof. unfold parseCenterLine. now rewrite _parse_coordinate_line_strip. Qed.

Lemma parseElementLine_strip line :
  parseElementLine (strip line) = parseElementLine line.
Proof.
  unfold parseElementLine. now rewrite _parse_input_coordinate_line_strip.
Qed.


(** ** The matcher and the language of a pattern *)

Lemma orelse_succeeds A (o1 o2 : option A) :
  match o1 with Some a => Some a | None => o2 end <> None <->
  o1 <> None \/ o2 <> None.
Proof.
  destruct o1; split; intros H; try (left; discriminate); try discriminate.
  - now right.
  - now destruct H.
Qed.

Lemma star_loop_succeeds A
    (step : str -> option str -> (str -> option str -> option A) -> option A)
    (k : str -> option str -> option A) (K : str -> Prop) (r : regex) :
  (forall (k' : str -> option str -> option A) (K' : str -> Prop),
     (forall s g, k' s g <> None <-> K' s) ->
     forall s g, step s g k' <> None <-> exists s', rel r s s' /\ K' s') ->
  (forall s g, k s g <> None <-> K s) ->
  forall fuel s g,
    length s <= fuel ->
    star_loop step k fuel s g <> None <->
    exists s', rel (Star r) s s' /\ K s'.
Proof.
  intros Hstep Hk.
  induction fuel as [ | fuel IH]; intros s g Hlen; cbn [star_loop].
  - destruct s; [ | cbn in Hlen; lia ]. rewrite Hk. split.
    + intros H. exists []. split; [ constructor | exact H ].
    + intros (s' & Hrel & H). inversion Hrel; subst; [ exact H | ].
      cbn in *. lia.
  - rewrite orelse_succeeds, Hk.
    rewrite (Hstep _ (fun m => length m < length s /\
                               exists s', rel (Star r) m s' /\ K s')).
    + split.
      * intros [(m & Hm & Hlt & s' & Hs' & H) | H].
        -- exists s'. split; [ | exact H ]. now apply rel_Star_step with m.
        -- exists s. split; [ constructor | exact H ].
      * intros (s' & Hrel & H). inversion Hrel; subst.
        -- now right.
        -- left. exists m. repeat split; try assumption. now exists s'.
    + intros m g'. destruct (length m <? length s) eqn:E.
      * apply Nat.ltb_lt in E. rewrite IH by lia. intuition.
      * apply Nat.ltb_ge in E. split; [ congruence | ].
        intros [Hlt _]. lia.
Qed.

(** The matcher succeeds exactly when the pattern matches a prefix that
    the continuation accepts, for a continuation whose success does not
    depend on the group. *)
Lemma rmatch_succeeds r :
  forall A (k : str -> option str -> option A) (K : str -> Prop),
    (forall s g, k s g <> None <-> K s) ->
    forall s g, rmatch r s g k <> None <-> exists s', rel r s s' /\ K s'.
Proof.
  induction r as [ | p | r1 IH1 r2 IH2 | r1 IH1 r2 IH2 | r1 IH1 | r1 IH1 | ];
    intros A k K Hk s g; cbn [rmatch].
  - rewrite Hk. split.
    + intros H. exists s. split; [ constructor | exact H ].
    + intros (s' & Hrel & H). now inversion Hrel; subst.
  - destruct s as [ | c t].
    + split; [ congruence | ]. intros (s' & Hrel & _). inversion Hrel.
    + destruct (p c) eqn:Hp.
      * rewrite Hk. split.
        -- intros H. exists t. split; [ now constructor | exact H ].
        -- intros (s' & Hrel & H). now inversion Hrel; subst.
      * split; [ congruence | ]. intros (s' & Hrel & _).
        inversion Hrel; subst. congruence.
  - rewrite (IH1 _ _ (fun m => exists s', rel r2 m s' /\ K s')).
    + split.
      * intros (m & Hm & s' & Hs' & H). exists s'.
        split; [ now apply rel_Cat with m | exact H ].
      * intros (s' & Hrel & H). inversion Hrel; subst.
        exists m. split; [ assumption | ]. now exists s'.
    + intros m g'. now apply IH2.
  - rewrite orelse_succeeds, (IH1 _ _ K Hk), (IH2 _ _ K Hk). split.
    + intros [(s' & Hrel & H) | (s' & Hrel & H)]; exists s'.
      * split; [ now apply rel_Alt_l | exact H ].
      * split; [ now apply rel_Alt_r | exact H ].
    + intros (s' & Hrel & H). inversion Hrel; subst.
      * left. now exists s'.
      * right. now exists s'.
  - apply (@star_loop_succeeds A _ k K r1); [ | exact Hk | lia ].
    intros k' K' Hk' s0 g0. now apply IH1.
  - rewrite (IH1 _ _ K).
    + split; intros (s' & Hrel & H); exists s'.
      * split; [ now constructor | exact H ].
      * split; [ now inversion Hrel; subst | exact H ].
    + intros m g'. apply Hk.
  - destruct s as [ | c [ | d t]].
    + rewrite Hk. split.
      * intros H. exists []. split; [ constructor | exact H ].
      * intros (s' & Hrel & H). now inversion Hrel; subst.
    + destruct (eqc c LF) eqn:E.
      * apply eqc_eq in E. subst c. rewrite Hk. split.
        -- intros H. exists [LF]. split; [ constructor | exact H ].
        -- intros (s' & Hrel & H). now inversion Hrel; subst.
      * split; [ congruence | ]. intros (s' & Hrel & _).
        inversion Hrel; subst. now rewrite eqc_refl in E.
    + split; [ congruence | ]. intros (s' & Hrel & _). inversion Hrel.
Qed.

Lemma is_match_rel r s : is_match r s = true <-> exists s', rel r s s'.
Proof.
  unfold is_match, re_match.
  pose proof (@rmatch_succeeds r _
                (fun s' g => Some {| group1 := g; after := s' |})
                (fun _ => True)) as H.
  assert (Hk : forall s0 (g : option str),
             Some {| group1 := g; after := s0 |} <> None <-> True)
    by (intros; split; [ trivial | discriminate ]).
  specialize (H Hk s None).
  destruct (rmatch r s None _); split.
  - intros _. destruct H as [H _].
    destruct H as (s' & Hr & _); [ discriminate | ]. now exists s'.
  - reflexivity.
  - discriminate.
  - intros (s' & Hr). destruct H as [_ H]. exfalso.
    apply H; [ now exists s' | reflexivity ].
Qed.

Lemma rel_Cat_iff r1 r2 s s' :
  rel (Cat r1 r2) s s' <-> exists m, rel r1 s m /\ rel r2 m s'.
Proof.
  split.
  - intros H. inversion H; subst. now exists m.
  - intros (m & H1 & H2). now apply rel_Cat with m.
Qed.

Lemma rel_Chr_iff p s s' :
  rel (Chr p) s s' <-> exists c, s = c :: s' /\ p c = true.
Proof.
  split.
  - intros H. inversion H; subst. now exists c.
  - intros (c & -> & H). now constructor.
Qed.

Lemma rel_Dollar_iff s s' :
  rel Dollar s s' <-> s' = s /\ (s = [] \/ s = [LF]).
Proof.
  split.
  - intros H. inversion H; subst; auto.
  - intros [-> [-> | ->]]; constructor.
Qed.

Lemma rel_Opt_iff r s s' : rel (Opt r) s s' <-> rel r s s' \/ s' = s.
Proof.
  unfold Opt. split.
  - intros H. inversion H as [ | | | | ? ? ? ? H' | | | | | ]; subst;
      [ now left | inversion H'; now right ].
  - intros [H | ->]; [ now apply rel_Alt_l | apply rel_Alt_r; constructor ].
Qed.

Lemma rel_Star_Chr p s s' :
  rel (Star (Chr p)) s s' <-> exists w, forallb p w = true /\ s = w ++ s'.
Proof.
  split.
  - intros H. remember (Star (Chr p)) as r eqn:Er.
    induction H as [ | | | | | r0 s | r0 s m s' H1 _ Hlt H2 IH2 | | | ];
      try discriminate.
    + now exists [].
    + injection Er as ->. destruct (IH2 eq_refl) as (w & Hw & ->).
      apply rel_Chr_iff in H1 as (c & -> & Hc). exists (c :: w).
      cbn. now rewrite Hc, Hw.
  - intros (w & Hw & ->). induction w as [ | c w IH]; [ constructor | ].
    cbn in Hw. apply andb_true_iff in Hw as [Hc Hw].
    apply rel_Star_step with (w ++ s'); [ now constructor | cbn; lia | auto ].
Qed.

Lemma rel_Plus_Chr p s s' :
  rel (Plus (Chr p)) s s' <-> exists d, run_of p d /\ s = d ++ s'.
Proof.
  unfold Plus, run_of. rewrite rel_Cat_iff. split.
  - intros (m & H1 & H2). apply rel_Chr_iff in H1 as (c & -> & Hc).
    apply rel_Star_Chr in H2 as (w & Hw & ->). exists (c :: w).
    cbn. rewrite Hc, Hw. repeat split. discriminate.
  - intros ([ | c w] & [Hne Hw] & ->); [ contradiction | ].
    cbn in Hw. apply andb_true_iff in Hw as [Hc Hw].
    exists (w ++ s'). split; [ now constructor | ].
    apply rel_Star_Chr. now exists w.
Qed.

(** [^[A-Za-z]+$] matches a non-empty run of letters, possibly followed
    by one newline at the end of the text. *)
Lemma is_match_alpha_re s :
  is_match alpha_re s = true <->
  exists d, run_of isalpha d /\ (s = d \/ s = d ++ [LF]).
Proof.
  rewrite is_match_rel. unfold alpha_re. split.
  - intros (s' & H). apply rel_Cat_iff in H as (m & H1 & H2).
    apply rel_Plus_Chr in H1 as (d & Hd & ->).
    apply rel_Dollar_iff in H2 as [-> [-> | ->]]; exists d.
    + rewrite app_nil_r. auto.
    + auto.
  - intros (d & Hd & [-> | ->]).
    + exists []. apply rel_Cat with []; [ | constructor ].
      apply rel_Plus_Chr. exists d. now rewrite app_nil_r.
    + exists [LF]. apply rel_Cat with [LF]; [ | constructor ].
      apply rel_Plus_Chr. now exists d.
Qed.

(** On a token of [str.split()] the pattern asks for letters only. *)
Lemma is_match_alpha_re_token t :
  forallb no_space t = true ->
  is_match alpha_re t = true <-> run_of isalpha t.
Proof.
  intros Ht. rewrite is_match_alpha_re. split.
  - intros (d & Hd & [-> | ->]); [ exact Hd | ].
    rewrite forallb_app in Ht. apply andb_true_iff in Ht as [_ Ht].
    discriminate.
  - intros H. exists t. auto.
Qed.

(** The pattern of the punch entries accepts whatever [^[A-Za-z]+$]
    accepts. *)
Lemma alpha_re_in_punch_element_re s :
  is_match alpha_re s = true -> is_match punch_element_re s = true.
Proof.
  rewrite !is_match_rel. unfold alpha_re, punch_element_re.
  intros (s' & H). exists s'.
  apply rel_Cat_iff in H as (m & H1 & H2).
  apply rel_Cat with m; [ exact H1 | ].
  apply rel_Cat with m; [ | exact H2 ].
  apply rel_Opt_iff. now right.
Qed.

Lemma strip_last_not_space l Y c : strip l = Y ++ [c] -> isspace c = false.
Proof.
  intros H. unfold strip in H.
  destruct (lstrip_decompose (rstrip l)) as (v & E & _).
  rewrite H in E. unfold rstrip in E.
  apply (f_equal (@rev ascii)) in E.
  rewrite rev_involutive, app_assoc, rev_app_distr in E. cbn in E.
  now apply dropwhile_head in E.
Qed.

(** A stripped text has no trailing whitespace. *)
Lemma strip_trailing l Y T :
  strip l = Y ++ T -> forallb isspace T = true -> T = [].
Proof.
  intros H HT. destruct T as [ | a T] using rev_ind; [ reflexivity | ].
  clear IHT. rewrite app_assoc in H. apply strip_last_not_space in H.
  rewrite forallb_app in HT. apply andb_true_iff in HT as [_ HT].
  cbn in HT. rewrite H in HT. discriminate.
Qed.

Lemma rel_optional_sign s s' :
  rel (Opt (Chr (fun c => eqc c "+"%char || eqc c "-"%char))) s s' <->
  exists s1, optional_sign s1 /\ s = s1 ++ s'.
Proof.
  rewrite rel_Opt_iff, rel_Chr_iff. unfold optional_sign. split.
  - intros [(c & -> & Hc) | ->].
    + apply orb_true_iff in Hc as [Hc | Hc]; apply eqc_eq in Hc; subst c.
      * exists "+". auto.
      * exists "-". auto.
    + exists []. auto.
  - intros (s1 & [-> | [-> | ->]] & ->); [ now right | | ];
      left; eexists; split; reflexivity.
Qed.

(** The charge and multiplicity test, character by character. *)
Lemma looksLikeChargeMultiplicity_spec line :
  looksLikeChargeMultiplicity line = true <->
  two_signed_integers (strip line).
Proof.
  unfold looksLikeChargeMultiplicity, two_signed_integers.
  rewrite is_match_rel. unfold charge_multiplicity_re. cbv zeta. split.
  - intros (s' & H).
    apply rel_Cat_iff in H as (m1 & H1 & H).
    apply rel_Cat_iff in H as (m2 & H2 & H).
    apply rel_Cat_iff in H as (m3 & H3 & H).
    apply rel_Cat_iff in H as (m4 & H4 & H).
    apply rel_Cat_iff in H as (m5 & H5 & H).
    apply rel_Cat_iff in H as (m6 & H6 & H7).
    apply rel_optional_sign in H1 as (s1 & Hs1 & E1).
    apply rel_Plus_Chr in H2 as (d1 & Hd1 & ->).
    apply rel_Plus_Chr in H3 as (w & Hw & ->).
    apply rel_optional_sign in H4 as (s2 & Hs2 & ->).
    apply rel_Plus_Chr in H5 as (d2 & Hd2 & ->).
    apply rel_Star_Chr in H6 as (w' & Hw' & ->).
    apply rel_Dollar_iff in H7 as [-> H7].
    assert (HT : w' ++ m6 = []).
    { apply (@strip_trailing line (s1 ++ d1 ++ w ++ s2 ++ d2)).
      - rewrite E1, <- !app_assoc. reflexivity.
      - rewrite forallb_app, Hw'. now destruct H7 as [-> | ->]. }
    exists s1, d1, w, s2, d2.
    split; [ now rewrite E1, HT, app_nil_r | ].
    repeat (split; [ assumption | ]). assumption.
  - intros (s1 & d1 & w & s2 & d2 & -> & Hs1 & Hd1 & Hw & Hs2 & Hd2).
    exists [].
    apply rel_Cat with (d1 ++ w ++ s2 ++ d2);
      [ apply rel_optional_sign; now exists s1 | ].
    apply rel_Cat with (w ++ s2 ++ d2);
      [ apply rel_Plus_Chr; now exists d1 | ].
    apply rel_Cat with (s2 ++ d2); [ apply rel_Plus_Chr; now exists w | ].
    apply rel_Cat with d2; [ apply rel_optional_sign; now exists s2 | ].
    apply rel_Cat with []; [ apply rel_Plus_Chr; exists d2;
                             now rewrite app_nil_r | ].
    apply rel_Cat with []; constructor.
Qed.

(** ** The matches of [finditer] *)

Lemma last_cons_default A (l : list A) :
  forall a d, last (a :: l) d = last l a.
Proof.
  induction l as [ | b l IH]; intros a d; [ reflexivity | ].
  change (last (a :: b :: l) d) with (last (b :: l) d).
  now rewrite !IH.
Qed.

Lemma star_loop_sound A
    (step : str -> option str -> (str -> option str -> option A) -> option A)
    (k : str -> option str -> option A) (r : regex) :
  (forall (k' : str -> option str -> option A) s g a,
     step s g k' = Some a ->
     exists s' g', rel r s s' /\ k' s' g' = Some a) ->
  forall fuel s g a,
    star_loop step k fuel s g = Some a ->
    exists s' g', rel (Star r) s s' /\ k s' g' = Some a.
Proof.
  intros Hstep. induction fuel as [ | fuel IH]; intros s g a;
    cbn [star_loop].
  - intros H. exists s, g. split; [ constructor | exact H ].
  - destruct (step s g _) as [a' | ] eqn:E.
    + intros [= ->]. apply Hstep in E as (m & g' & Hm & E).
      destruct (length m <? length s) eqn:Hlt; [ | discriminate ].
      apply Nat.ltb_lt in Hlt. apply IH in E as (s' & g'' & Hs' & E).
      exists s', g''. split; [ now apply rel_Star_step with m | exact E ].
    + intros H. exists s, g. split; [ constructor | exact H ].
Qed.

(** What the matcher returns comes from a match of the pattern. *)
Lemma rmatch_sound r :
  forall A (k : str -> option str -> option A) s g a,
    rmatch r s g k = Some a ->
    exists s' g', rel r s s' /\ k s' g' = Some a.
Proof.
  induction r as [ | p | r1 IH1 r2 IH2 | r1 IH1 r2 IH2 | r1 IH1 | r1 IH1 | ];
    intros A k s g a; cbn [rmatch].
  - intros H. exists s, g. split; [ constructor | exact H ].
  - destruct s as [ | c t]; [ discriminate | ].
    destruct (p c) eqn:Hp; [ | discriminate ].
    intros H. exists t, g. split; [ now constructor | exact H ].
  - intros H. apply IH1 in H as (m & g' & Hm & H).
    apply IH2 in H as (s' & g'' & Hs' & H).
    exists s', g''. split; [ now apply rel_Cat with m | exact H ].
  - destruct (rmatch r1 s g k) as [a' | ] eqn:E.
    + intros [= ->]. apply IH1 in E as (s' & g' & Hs' & E).
      exists s', g'. split; [ now apply rel_Alt_l | exact E ].
    + intros H. apply IH2 in H as (s' & g' & Hs' & H).
      exists s', g'. split; [ now apply rel_Alt_r | exact H ].
  - apply star_loop_sound. intros k' s0 g0 a0. apply IH1.
  - intros H. apply IH1 in H as (s' & g' & Hs' & H).
    eexists s', _. split; [ now constructor | exact H ].
  - destruct s as [ | c [ | d t]]; [ | | discriminate ].
    + intros H. exists [], g. split; [ constructor | exact H ].
    + destruct (eqc c LF) eqn:E; [ | discriminate ].
      apply eqc_eq in E. subst c.
      intros H. exists [LF], g. split; [ constructor | exact H ].
Qed.

Lemma re_match_rel r s m : re_match r s = Some m -> rel r s (after m).
Proof.
  unfold re_match. intros H.
  apply rmatch_sound in H as (s' & g' & Hs' & [= <-]). exact Hs'.
Qed.

Lemma re_match_is_match r s :
  is_match r s = match re_match r s with Some _ => true | None => false end.
Proof. reflexivity. Qed.

Lemma rel_suffix r s s' : rel r s s' -> exists p, s = p ++ s'.
Proof.
  induction 1 as [ s | p c s Hc | r1 r2 s m s' _ [p1 ->] _ [p2 ->]
                 | r1 r2 s s' _ IH | r1 r2 s s' _ IH | r s
                 | r s m s' _ [p1 ->] _ _ [p2 ->] | r s s' _ IH | | ];
    try (now exists []); try exact IH.
  - now exists [c].
  - exists (p1 ++ p2). now rewrite app_assoc.
  - exists (p1 ++ p2). now rewrite app_assoc.
Qed.

Section Finditer.

Variable r : regex.

(** A pattern that matches no empty text. *)
Hypothesis progress : forall s s', rel r s s' -> length s' < length s.

Lemma finditer_go_cons fuel c t :
  finditer_go (S fuel) r (c :: t) =
  match re_match r (c :: t) with
  | Some m => m :: finditer_go fuel r (after m)
  | None => finditer_go fuel r t
  end.
Proof.
  cbn [finditer_go]. destruct (re_match r (c :: t)) as [m | ] eqn:E;
    [ | reflexivity ].
  apply re_match_rel, progress, Nat.ltb_lt in E. now rewrite E.
Qed.

Lemma finditer_go_nil fuel : finditer_go (S fuel) r [] = [].
Proof.
  cbn [finditer_go]. destruct (re_match r []) as [m | ] eqn:E;
    [ | reflexivity ].
  apply re_match_rel, progress in E. cbn in E. lia.
Qed.

(** Enough fuel is as good as more. *)
Lemma finditer_go_fuel fuel :
  forall s fuel',
    length s < fuel -> length s < fuel' ->
    finditer_go fuel r s = finditer_go fuel' r s.
Proof.
  induction fuel as [ | fuel IH]; intros s fuel' H H'; [ lia | ].
  destruct fuel' as [ | fuel']; [ lia | ].
  destruct s as [ | c t]; [ now rewrite !finditer_go_nil | ].
  rewrite !finditer_go_cons. cbn in H, H'.
  destruct (re_match r (c :: t)) as [m | ] eqn:E.
  - apply re_match_rel, progress in E. cbn in E.
    f_equal. apply IH; lia.
  - apply IH; lia.
Qed.

Lemma finditer_cons c t :
  finditer r (c :: t) =
  match re_match r (c :: t) with
  | Some m => m :: finditer r (after m)
  | None => finditer r t
  end.
Proof.
  unfold finditer. rewrite finditer_go_cons.
  destruct (re_match r (c :: t)) as [m | ] eqn:E.
  - apply re_match_rel, progress in E. cbn in E.
    f_equal. apply finditer_go_fuel; cbn; lia.
  - apply finditer_go_fuel; cbn; lia.
Qed.

Lemma finditer_nil : finditer r [] = [].
Proof. apply finditer_go_nil. Qed.

(** Every match of [finditer] is a match of the pattern somewhere in
    the text, and the text after the last one has no match. *)
Lemma finditer_last s :
  forall m,
    last_error (finditer r s) = Some m ->
    (exists before matched,
       s = before ++ matched ++ after m
       /\ rel r (matched ++ after m) (after m))
    /\ finditer r (after m) = [].
Proof.
  induction s as [s IH] using (induction_ltof1 _ (@length ascii)).
  unfold ltof in IH. intros m.
  destruct s as [ | c t]; [ now rewrite finditer_nil | ].
  rewrite finditer_cons.
  destruct (re_match r (c :: t)) as [m0 | ] eqn:E.
  - pose proof (re_match_rel _ _ E) as Hrel.
    pose proof (progress Hrel) as Hlt.
    destruct (rel_suffix Hrel) as [p Hp].
    cbn [last_error].
    destruct (finditer r (after m0)) as [ | m1 ms] eqn:Ef.
    + cbn [last]. intros [= <-]. split; [ | exact Ef ].
      exists [], p. cbn [app]. split; [ exact Hp | now rewrite <- Hp ].
    + intros Hm.
      assert (Hm' : last_error (finditer r (after m0)) = Some m).
      { rewrite Ef. cbn [last_error]. rewrite <- Hm.
        f_equal. symmetry. apply last_cons_default. }
      apply IH in Hm' as [(before & matched & Hb & Hr) Hn]; [ | exact Hlt ].
      split; [ | exact Hn ].
      exists (p ++ before), matched. rewrite Hp at 1. rewrite Hb at 1.
      rewrite <- app_assoc. split; [ reflexivity | exact Hr ].
  - intros Hm. apply IH in Hm as [(before & matched & Hb & Hr) Hn];
      [ | cbn; lia ].
    split; [ | exact Hn ].
    exists (c :: before), matched. cbn [app]. now rewrite Hb at 1.
Qed.

Lemma finditer_none s :
  finditer r s = [] ->
  forall before rest, s = before ++ rest -> re_match r rest = None.
Proof.
  induction s as [ | c t IH]; intros Hf before rest Hs.
  - destruct before; [ | discriminate ]. cbn in Hs. subst rest.
    destruct (re_match r []) as [m | ] eqn:E; [ | reflexivity ].
    apply re_match_rel, progress in E. cbn in E. lia.
  - rewrite finditer_cons in Hf.
    destruct (re_match r (c :: t)) as [m | ] eqn:E; [ discriminate | ].
    destruct before as [ | b before]; cbn in Hs.
    + now subst rest.
    + injection Hs as -> Hs. now apply IH with before.
Qed.

End Finditer.

(** ** The phrase of the standard orientation section *)

Lemma rel_LitI l :
  forall s s',
    rel (LitI l) s s' <-> exists a, s = a ++ s' /\ lower a = lower l.
Proof.
  induction l as [ | c l IH]; intros s s'; cbn [LitI].
  - split.
    + intros H. inversion H; subst. now exists [].
    + intros (a & -> & E). destruct a; [ constructor | discriminate ].
  - rewrite rel_Cat_iff. split.
    + intros (m & H1 & H2). apply rel_Chr_iff in H1 as (x & -> & Hx).
      apply IH in H2 as (a & -> & Ea). apply eqc_eq in Hx.
      exists (x :: a). split; [ reflexivity | ].
      unfold lower in *. cbn [map]. now rewrite Hx, Ea.
    + intros ([ | x a] & -> & E); [ discriminate | ].
      unfold lower in *. cbn [map] in E. injection E as Hx Ea.
      exists (a ++ s'). split.
      * constructor. now apply eqc_eq.
      * apply IH. now exists a.
Qed.

Lemma lower_char_space c : isspace c = true -> lower_char c = c.
Proof.
  destruct c as [[] [] [] [] [] [] [] []]; intros H;
    reflexivity || discriminate H.
Qed.

Lemma lower_char_is_space x :
  isspace (lower_char x) = true -> lower_char x = x.
Proof.
  destruct x as [[] [] [] [] [] [] [] []]; intros H;
    reflexivity || discriminate H.
Qed.

Lemma lower_spaces w : forallb isspace w = true -> lower w = w.
Proof.
  induction w as [ | c w IH]; [ reflexivity | ].
  cbn [forallb]. intros H. apply andb_true_iff in H as [Hc Hw].
  unfold lower in *. cbn [map].
  now rewrite (lower_char_space _ Hc), (IH Hw).
Qed.

Lemma lower_is_spaces w' w :
  lower w' = w -> forallb isspace w = true -> w' = w.
Proof.
  revert w. induction w' as [ | x w' IH]; intros w E Hw;
    unfold lower in *; cbn [map] in E; [ exact E | ].
  subst w. cbn [forallb] in Hw. apply andb_true_iff in Hw as [Hx Hw].
  rewrite (lower_char_is_space _ Hx). f_equal. now apply IH.
Qed.

(** The pattern matches exactly the phrase. *)
Lemma rel_standard_orientation_re s s' :
  rel standard_orientation_re s s' <->
  exists phrase, s = phrase ++ s' /\ is_phrase phrase.
Proof.
  unfold standard_orientation_re, is_phrase. split.
  - intros H. apply rel_Cat_iff in H as (m1 & H1 & H).
    apply rel_Cat_iff in H as (m2 & H2 & H3).
    apply rel_LitI in H1 as (a & -> & Ea).
    apply rel_Plus_Chr in H2 as (w & Hw & ->).
    apply rel_LitI in H3 as (b & -> & Eb).
    exists (a ++ w ++ b). split; [ now rewrite <- !app_assoc | ].
    exists w. split; [ exact Hw | ].
    unfold lower in *. rewrite !map_app, Ea, Eb.
    fold (lower w). now rewrite (lower_spaces _ (proj2 Hw)).
  - intros (phrase & -> & w & Hw & E).
    unfold lower in E. apply map_eq_app in E as (a & t & -> & Ea & E).
    apply map_eq_app in E as (w' & b & -> & Ew & Eb).
    apply lower_is_spaces in Ew; [ subst w' | exact (proj2 Hw) ].
    rewrite <- !app_assoc.
    apply rel_Cat with (w ++ b ++ s'); [ apply rel_LitI; now exists a | ].
    apply rel_Cat with (b ++ s'); [ apply rel_Plus_Chr; now exists w | ].
    apply rel_LitI. now exists b.
Qed.

Lemma standard_orientation_re_progress s s' :
  rel standard_orientation_re s s' -> length s' < length s.
Proof.
  intros H. apply rel_standard_orientation_re in H as (ph & -> & w & _ & E).
  apply (f_equal (@length ascii)) in E.
  unfold lower in E. rewrite length_map, !length_app in E. cbn in E.
  rewrite length_app. lia.
Qed.

Lemma finditer_no_occurrence text :
  finditer standard_orientation_re text = [] -> no_occurrence text.
Proof.
  intros Hf before phrase rest E Hp.
  assert (Hm : is_match standard_orientation_re (phrase ++ rest) = true).
  { apply is_match_rel. exists rest. apply rel_standard_orientation_re.
    now exists phrase. }
  rewrite re_match_is_match in Hm.
  rewrite (@finditer_none _ standard_orientation_re_progress text Hf
             before (phrase ++ rest) E) in Hm.
  discriminate.
Qed.

(** The text the strategy reads follows an occurrence of the phrase and
    has no occurrence of its own; without an occurrence there is no
    such text. *)
Lemma text_after_last_occurrence_spec content :
  match text_after_last_occurrence content with
  | Some text =>
      (exists before phrase,
         content = before ++ phrase ++ text /\ is_phrase phrase)
      /\ no_occurrence text
  | None => no_occurrence content
  end.
Proof.
  unfold text_after_last_occurrence.
  destruct (last_error (finditer standard_orientation_re content))
    as [m | ] eqn:E; cbn [option_map].
  - apply (@finditer_last _ standard_orientation_re_progress) in E
      as [(before & matched & Hc & Hr) Hn].
    split; [ | now apply finditer_no_occurrence ].
    apply rel_standard_orientation_re in Hr as (phrase & Hp & Hph).
    apply app_inv_tail in Hp. subst matched. now exists before, phrase.
  - apply finditer_no_occurrence.
    now destruct (finditer standard_orientation_re content).
Qed.
(** ** Standard orientation *)

Lemma data_zone_lines_closed lines :
  forall n, data_zone_lines (3 + n) lines = [].
Proof.
  induction lines as [ | l rest IH]; intros n; cbn [data_zone_lines];
    [ reflexivity | ].
  destruct (isStructuralDelimiter l); [ apply (IH (S n)) | ].
  cbn. apply IH.
Qed.

Lemma standard_orientation_loop_eq lines :
  forall n acc,
    standard_orientation_loop lines n acc =
    Ok (acc ++ successes parseCenterLine (data_zone_lines n lines)).
Proof.
  induction lines as [ | l rest IH]; intros n acc;
    cbn [standard_orientation_loop data_zone_lines].
  - cbn. now rewrite app_nil_r.
  - unfold isStructuralDelimiter, is_blank.
    destruct (is_dash_line (strip l)).
    { rewrite Nat.add_1_r. apply IH. }
    destruct (strip l) as [ | a s] eqn:E.
    { rewrite andb_false_r. apply IH. }
    rewrite andb_true_r.
    destruct (n =? 1) eqn:N1; cbn [andb].
    { apply Nat.eqb_eq in N1. subst n. cbn [Nat.eqb].
      destruct (any_in header_keywords (a :: s)); apply IH. }
    destruct (n =? 2) eqn:N2.
    + rewrite <- E, _parse_coordinate_line_strip, parseCenterLine_eq.
      cbn [bind successes flat_map].
      destruct (parseCenterLine l); rewrite IH.
      * now rewrite <- app_assoc.
      * reflexivity.
    + destruct (3 <=? n) eqn:N3; [ | apply IH ].
      apply Nat.leb_le in N3.
      replace n with (3 + (n - 3)) by lia.
      rewrite data_zone_lines_closed. cbn. now rewrite app_nil_r.
Qed.

Example parseCenterLine_carbon :
  parseCenterLine "1 6 0 0.000000 0.000000 1.100000"
  = Some (atom "C" zero zero one_point_one).
Proof. vm_compute. reflexivity. Qed.

Example parseCenterLine_unknown_number :
  parseCenterLine "1 119 0 0.000000 0.000000 1.100000"
  = Some (atom "119" zero zero one_point_one).
Proof. vm_compute. reflexivity. Qed.

Example standard_orientation_of_two_steps :
  _extract_from_standard_orientation two_orientations
  = Ok [atom "N" zero zero zero].
Proof. vm_compute. reflexivity. Qed.

(** C4.  Standard-orientation extraction reads only the text after the
    last occurrence of the phrase (in any case, its two words separated
    by whitespace): that text follows an occurrence and holds none.  Of
    that text it returns the [parseCenterLine] successes of the
    non-blank lines seen while the delimiter counter is 2, in order;
    once the counter is 3 or more no line adds a coordinate. *)
Theorem standard_orientation_last_block :
  (forall content,
     _extract_from_standard_orientation content =
     Ok match text_after_last_occurrence content with
        | None => []
        | Some text =>
            successes parseCenterLine (data_zone_lines 0 (split [LF] text))
        end)
  /\ (forall content,
        match text_after_last_occurrence content with
        | Some text =>
            (exists before phrase,
               content = before ++ phrase ++ text /\ is_phrase phrase)
            /\ no_occurrence text
        | None => no_occurrence content
        end)
  /\ (forall lines n acc,
        standard_orientation_loop lines (3 + n) acc = Ok acc)
  /\ (forall before rest,
        data_zone_lines 0 (before ++ rest) =
        data_zone_lines 0 before ++
        data_zone_lines (counter_after 0 before) rest).
Proof.
  split; [ | split; [ exact text_after_last_occurrence_spec | split ] ].
  - intros content.
    unfold _extract_from_standard_orientation, text_after_last_occurrence.
    destruct (finditer standard_orientation_re content) as [ | m ms];
      [ reflexivity | ].
    cbn [last_error option_map]. now rewrite standard_orientation_loop_eq.
  - intros lines n acc.
    rewrite standard_orientation_loop_eq, data_zone_lines_closed.
    cbn. now rewrite app_nil_r.
  - intros before rest. generalize 0.
    induction before as [ | l before IH]; intros n;
      cbn [app data_zone_lines counter_after]; [ reflexivity | ].
    destruct (isStructuralDelimiter l); [ apply IH | ].
    destruct ((n =? 2) && negb (is_blank l)); cbn [app]; now rewrite IH.
Qed.

(** ** The termination check *)

Lemma split_LF_nil : split [LF] [] = [[]].
Proof. reflexivity. Qed.

Lemma split_LF_cons c t :
  split [LF] (c :: t) =
  if eqc LF c then [] :: split [LF] t else cons_first c (split [LF] t).
Proof.
  unfold split. cbn [split_go startswith length Nat.sub].
  now rewrite andb_true_r.
Qed.

Lemma split_LF_not_nil s : split [LF] s <> [].
Proof.
  destruct s as [ | c t]; [ discriminate | ].
  rewrite split_LF_cons. destruct (eqc LF c); [ discriminate | ].
  destruct (split [LF] t); discriminate.
Qed.

Lemma last_cons_not_nil A (a : A) l d : l <> [] -> last (a :: l) d = last l d.
Proof. destruct l; [ contradiction | reflexivity ]. Qed.

Lemma last_cons_first c l d :
  l <> [] ->
  last (cons_first c l) d =
  match l with
  | [h] => c :: h
  | _ => last l d
  end.
Proof. destruct l as [ | h [ | h' r]]; [ contradiction | | ]; reflexivity. Qed.

Lemma removelast_cons_first c l :
  removelast (cons_first c l) =
  match l with
  | [] | [_] => []
  | _ => cons_first c (removelast l)
  end.
Proof. destruct l as [ | h [ | h' r]]; reflexivity. Qed.

Lemma split_LF_snoc s c :
  split [LF] (s ++ [c]) =
  if eqc LF c then split [LF] s ++ [[]]
  else removelast (split [LF] s) ++ [last_line s ++ [c]].
Proof.
  unfold last_line. induction s as [ | a s IH].
  - cbn [app]. rewrite split_LF_cons, split_LF_nil.
    destruct (eqc LF c); reflexivity.
  - cbn [app]. rewrite !split_LF_cons, IH.
    pose proof (split_LF_not_nil s) as Hs.
    destruct (split [LF] s) as [ | h r] eqn:E; [ contradiction | ].
    destruct (eqc LF a), (eqc LF c); try reflexivity.
    destruct r; reflexivity.
Qed.

Lemma last_line_snoc s c :
  last_line (s ++ [c]) = if eqc LF c then [] else last_line s ++ [c].
Proof.
  unfold last_line at 1. rewrite split_LF_snoc.
  destruct (eqc LF c); now rewrite last_last.
Qed.

Lemma is_blank_forallb l : is_blank l = forallb isspace l.
Proof.
  unfold is_blank, strip.
  destruct (rstrip_decompose l) as (w & E & Hw).
  destruct (lstrip_decompose (rstrip l)) as (v & E' & Hv).
  destruct (lstrip (rstrip l)) as [ | c t] eqn:El.
  - rewrite app_nil_r in E'. rewrite E, E', forallb_app, Hv, Hw. reflexivity.
  - apply dropwhile_head in El.
    rewrite E, E', !forallb_app. cbn. rewrite El.
    now rewrite andb_false_r.
Qed.

Lemma is_blank_snoc l c : is_blank (l ++ [c]) = is_blank l && isspace c.
Proof. rewrite !is_blank_forallb, forallb_app. cbn. now rewrite andb_true_r. Qed.

Lemma last_error_snoc A (l : list A) a : last_error (l ++ [a]) = Some a.
Proof.
  destruct l as [ | b l]; [ reflexivity | ].
  cbn [app last_error]. now rewrite last_last.
Qed.

Lemma removelast_last_line s :
  split [LF] s = removelast (split [LF] s) ++ [last_line s].
Proof. apply app_removelast_last, split_LF_not_nil. Qed.

Lemma last_nonblank_line_eq s :
  last_nonblank_line s =
  if is_blank (last_line s)
  then last_error (filter nonblank (removelast (split [LF] s)))
  else Some (last_line s).
Proof.
  unfold last_nonblank_line.
  rewrite (removelast_last_line s) at 1.
  rewrite filter_app. cbn [filter]. unfold nonblank at 2.
  destruct (is_blank (last_line s)); cbn [negb].
  - now rewrite app_nil_r.
  - apply last_error_snoc.
Qed.

Lemma last_nonblank_line_snoc s c :
  last_nonblank_line (s ++ [c]) =
  if isspace c
  then match last_nonblank_line s with
       | Some l =>
           if is_blank (last_line s) || eqc LF c then Some l
           else Some (l ++ [c])
       | None => None
       end
  else Some (last_line s ++ [c]).
Proof.
  destruct (eqc LF c) eqn:Ec.
  - apply eqc_eq in Ec. subst c. cbn [isspace]. rewrite orb_true_r.
    unfold last_nonblank_line. rewrite split_LF_snoc, eqc_refl, filter_app.
    cbn. rewrite app_nil_r.
    now destruct (last_error _).
  - rewrite orb_false_r, (last_nonblank_line_eq (s ++ [c])).
    rewrite last_line_snoc, split_LF_snoc, Ec, removelast_last, is_blank_snoc.
    rewrite (last_nonblank_line_eq s).
    destruct (is_blank (last_line s)), (isspace c); cbn [andb]; try reflexivity.
    now destruct (last_error _).
Qed.

(** The last non-blank line of a text is, up to trailing whitespace, the
    last line of the text without its trailing whitespace. *)
Lemma last_nonblank_line_rstrip s :
  match last_nonblank_line s with
  | Some l => rstrip l = last_line (rstrip s)
  | None => rstrip s = []
  end.
Proof.
  induction s as [ | c s IH] using rev_ind; [ reflexivity | ].
  rewrite last_nonblank_line_snoc, rstrip_snoc.
  destruct (isspace c) eqn:Hc.
  - destruct (last_nonblank_line s) as [l | ]; [ | exact IH ].
    destruct (is_blank (last_line s) || eqc LF c); [ exact IH | ].
    now rewrite rstrip_snoc, Hc.
  - rewrite rstrip_snoc, Hc, last_line_snoc.
    destruct (eqc LF c) eqn:Ec; [ | reflexivity ].
    apply eqc_eq in Ec. subst c. discriminate.
Qed.

(** Leading whitespace only shortens the last line by whitespace. *)
Lemma last_line_lstrip t :
  exists p, forallb isspace p = true /\
            last_line t = p ++ last_line (lstrip t).
Proof.
  induction t as [ | c t (p & Hp & IH)]; [ now exists [] | ].
  unfold lstrip. cbn [dropwhile]. destruct (isspace c) eqn:Hc;
    [ | now exists [] ].
  fold (lstrip t). unfold last_line at 1. rewrite split_LF_cons.
  pose proof (split_LF_not_nil t) as Hn.
  destruct (eqc LF c).
  - rewrite last_cons_not_nil by exact Hn. now exists p.
  - rewrite last_cons_first by exact Hn.
    unfold last_line in IH at 1.
    destruct (split [LF] t) as [ | h [ | h' r]]; [ contradiction | | ].
    + exists (c :: p). cbn in IH |- *. rewrite Hc, Hp, IH. now split.
    + now exists p.
Qed.

Section Needle.

(** A text to look for that begins and ends with a character that is
    not whitespace. *)
Variable needle : str.
Variable first_char last_char : ascii.
Variable middle : str.
Hypothesis needle_eq : needle = first_char :: middle ++ [last_char].
Hypothesis first_not_space : isspace first_char = false.
Hypothesis last_not_space : isspace last_char = false.

Lemma startswith_snoc_other (p : str) c :
  forall X, p <> [] -> eqc (last p c) c = false ->
            startswith p (X ++ [c]) = startswith p X.
Proof.
  induction p as [ | x p IH]; intros X Hne Hl; [ contradiction | ].
  destruct X as [ | y X]; cbn [app startswith].
  - destruct p as [ | x' p].
    + cbn in Hl. now rewrite Hl.
    + cbn. apply andb_false_r.
  - destruct p as [ | x' p]; [ reflexivity | ].
    f_equal. apply IH; [ discriminate | exact Hl ].
Qed.

Lemma needle_last c : isspace c = true -> eqc (last needle c) c = false.
Proof.
  intros Hc. rewrite needle_eq.
  change (first_char :: middle ++ [last_char])
    with ((first_char :: middle) ++ [last_char]).
  rewrite last_last.
  destruct (eqc last_char c) eqn:E; [ | reflexivity ].
  apply eqc_eq in E. congruence.
Qed.

Lemma contains_snoc_space L c :
  isspace c = true -> contains needle (L ++ [c]) = contains needle L.
Proof.
  intros Hc.
  assert (Hne : needle <> []) by (rewrite needle_eq; discriminate).
  pose proof (needle_last c Hc) as Hl.
  induction L as [ | a L IH].
  - pose proof (startswith_snoc_other c [] Hne Hl) as H0.
    cbn [app contains] in H0 |- *. rewrite H0.
    destruct needle; [ contradiction | reflexivity ].
  - pose proof (startswith_snoc_other c (a :: L) Hne Hl) as H0.
    cbn [app contains] in H0 |- *. now rewrite IH, H0.
Qed.

Lemma contains_app_spaces L q :
  forallb isspace q = true -> contains needle (L ++ q) = contains needle L.
Proof.
  induction q as [ | c q IH] using rev_ind; intros Hq.
  - now rewrite app_nil_r.
  - rewrite forallb_app in Hq. apply andb_true_iff in Hq as [Hq Hc].
    cbn in Hc. rewrite andb_true_r in Hc.
    rewrite app_assoc, contains_snoc_space by exact Hc. now apply IH.
Qed.

Lemma contains_spaces_app p L :
  forallb isspace p = true -> contains needle (p ++ L) = contains needle L.
Proof.
  induction p as [ | c p IH]; intros Hp; [ reflexivity | ].
  cbn in Hp. apply andb_true_iff in Hp as [Hc Hp].
  cbn [app contains]. rewrite (IH Hp), needle_eq. cbn [startswith].
  destruct (eqc first_char c) eqn:E; [ | reflexivity ].
  apply eqc_eq in E. congruence.
Qed.

(** The test of the termination checker, in the words of the
    specification. *)
Lemma last_line_of_strip text :
  contains needle (last (split [LF] (strip text)) []) =
  match last_nonblank_line text with
  | Some l => contains needle l
  | None => false
  end.
Proof.
  fold (last_line (strip text)). unfold strip.
  destruct (last_line_lstrip (rstrip text)) as (p & Hp & E).
  rewrite <- (contains_spaces_app p _ Hp), <- E.
  pose proof (last_nonblank_line_rstrip text) as H.
  destruct (last_nonblank_line text) as [l | ].
  - rewrite <- H.
    destruct (rstrip_decompose l) as (w & El & Hw).
    rewrite El at 2. now rewrite contains_app_spaces.
  - rewrite H. cbn. rewrite needle_eq. reflexivity.
Qed.

End Needle.

Lemma normal_termination_test text :
  contains normal_termination_text (last (split [LF] (strip text)) []) =
  match last_nonblank_line text with
  | Some l => contains normal_termination_text l
  | None => false
  end.
Proof.
  apply (@last_line_of_strip normal_termination_text
           "N"%char "n"%char "ormal terminatio");
    reflexivity.
Qed.

Lemma tail_offset n : max 0 (n - min 1000 n) = n - 1000.
Proof. lia. Qed.

Lemma _check_normal_termination_eq fs p :
  _check_normal_termination fs p =
  Ok match fs p with
     | Ok data =>
         match last_nonblank_line (tail_text data) with
         | Some l => contains normal_termination_text l
         | None => false
         end
     | Raise _ => false
     end.
Proof.
  unfold _check_normal_termination, tail_text.
  destruct (fs p) as [data | e]; cbn [bind try_except Exception];
    [ | reflexivity ].
  now rewrite tail_offset, normal_termination_test.
Qed.

(** C8.  The termination checker never raises; it answers [true] exactly
    when the file can be read and the last non-blank line of its last at
    most 1000 bytes contains "Normal termination", and [false] when
    reading the file fails. *)
Theorem check_normal_termination_spec (fs : filesystem) (file_path : Path) :
  exists b,
    _check_normal_termination fs file_path = Ok b
    /\ (b = true <->
        exists data l,
          fs file_path = Ok data
          /\ last_nonblank_line (tail_text data) = Some l
          /\ contains normal_termination_text l = true)
    /\ ((exists e, fs file_path = Raise e) -> b = false).
Proof.
  rewrite _check_normal_termination_eq. eexists. split; [ reflexivity | ].
  destruct (fs file_path) as [data | e]; split.
  - split.
    + destruct (last_nonblank_line (tail_text data)) as [l | ] eqn:E;
        [ | discriminate ].
      intros H. now exists data, l.
    + intros (data' & l & [= <-] & -> & H). exact H.
  - intros [e H]. discriminate.
  - split; [ discriminate | ]. intros (data & l & H & _). discriminate.
  - reflexivity.
Qed.

(** ** Gaussian input *)

Lemma find_charge_multiplicity_eq lines :
  forall i,
    match find_charge_multiplicity lines i with
    | Some j =>
        i < j /\ lines_after_charge_multiplicity lines
                 = Some (skipn (j - i) lines)
    | None => lines_after_charge_multiplicity lines = None
    end.
Proof.
  induction lines as [ | l rest IH]; intros i;
    cbn [find_charge_multiplicity lines_after_charge_multiplicity];
    [ reflexivity | ].
  unfold looksLikeChargeMultiplicity.
  destruct (is_match charge_multiplicity_re (strip l)).
  - split; [ lia | ]. now replace (i + 1 - i) with 1 by lia.
  - specialize (IH (i + 1)).
    destruct (find_charge_multiplicity rest (i + 1)) as [j | ];
      [ | exact IH ].
    destruct IH as [Hj ->]. split; [ lia | ].
    now replace (j - i) with (S (j - (i + 1))) by lia.
Qed.

Lemma skipn_nth_error A (l : list A) :
  forall j a, nth_error l j = Some a -> skipn j l = a :: skipn (S j) l.
Proof.
  induction l as [ | b l IH]; intros [ | j] a; cbn; try discriminate.
  - now intros [= ->].
  - intros H. now apply IH.
Qed.

Lemma input_loop_eq lines :
  forall n j acc,
    j + n = length lines ->
    input_loop lines (seq j n) acc =
    Ok (acc ++ leading_matches (skipn j lines)).
Proof.
  induction n as [ | n IH]; intros j acc Hj; cbn [seq input_loop].
  - rewrite skipn_all2 by lia. cbn. now rewrite app_nil_r.
  - destruct (item_in_range lines (i := j)) as [l El]; [ lia | ].
    rewrite El. cbn [bind]. apply item_Ok in El.
    rewrite (skipn_nth_error _ _ El). cbn [leading_matches].
    unfold is_blank. destruct (strip l) as [ | a s] eqn:E.
    { now rewrite app_nil_r. }
    rewrite <- E, _parse_input_coordinate_line_strip, parseElementLine_eq.
    cbn [bind]. destruct (parseElementLine l) as [c | ].
    + rewrite IH by lia. now rewrite <- app_assoc.
    + now rewrite app_nil_r.
Qed.

(** C7.  Gaussian-input extraction returns the empty list when no line
    has the charge and multiplicity shape; otherwise it returns, in file
    order, the [parseElementLine] matches of the lines after the first
    such line, up to the first blank line or the first line that does not
    parse.  A line has the shape when, trimmed, it is two integers with
    optional signs, separated by whitespace, and nothing else. *)
Theorem extract_from_input_file_spec :
  (forall content,
     _extract_from_input_file content =
     Ok match lines_after_charge_multiplicity (split [LF] content) with
        | None => []
        | Some rest => leading_matches rest
        end)
  /\ (forall line,
        looksLikeChargeMultiplicity line = true <->
        two_signed_integers (strip line)).
Proof.
  split; [ | exact looksLikeChargeMultiplicity_spec ].
  intros content. unfold _extract_from_input_file.
  pose proof (find_charge_multiplicity_eq (split [LF] content) 0) as H.
  destruct (find_charge_multiplicity (split [LF] content) 0) as [j | ].
  - destruct H as [Hj ->]. rewrite Nat.sub_0_r.
    destruct (Nat.le_gt_cases j (length (split [LF] content))) as [Hle | Hgt].
    + rewrite input_loop_eq by lia. reflexivity.
    + replace (length (split [LF] content) - j) with 0 by lia.
      rewrite skipn_all2 by lia. reflexivity.
  - now rewrite H.
Qed.

(** ** MOLPRO *)

Lemma molpro_block_loop_eq lines :
  forall acc,
    molpro_block_loop lines acc =
    Ok (acc ++
        successes parseElementLine
          (filter
             (fun l =>
                negb (is_blank l)
                && negb (existsb (fun p => startswith p (strip l))
                           ["#"; "!"; "*"])
                && negb (existsb (str_eqb (lower (strip l))) molpro_keywords
                         || contains "=" (strip l)))
             lines)).
Proof.
  induction lines as [ | l rest IH]; intros acc;
    cbn [molpro_block_loop filter].
  - cbn. now rewrite app_nil_r.
  - unfold is_blank. destruct (strip l) as [ | a s] eqn:E;
      [ apply IH | ].
    cbn [negb andb].
    destruct (existsb (fun p => startswith p (a :: s)) ["#"; "!"; "*"]);
      [ apply IH | ].
    destruct (existsb (str_eqb (lower (a :: s))) molpro_keywords
              || contains "=" (a :: s)); [ apply IH | ].
    cbn [negb andb successes flat_map].
    rewrite <- E, _parse_input_coordinate_line_strip, parseElementLine_eq.
    cbn [bind]. destruct (parseElementLine l); rewrite IH.
    + now rewrite <- app_assoc.
    + reflexivity.
Qed.

Lemma molpro_blocks_loop_cons m rest :
  molpro_blocks_loop (m :: rest) =
  match block_coordinates m with
  | [] => molpro_blocks_loop rest
  | _ :: _ => Ok (block_coordinates m)
  end.
Proof.
  cbn [molpro_blocks_loop]. rewrite molpro_block_loop_eq. cbn [bind app].
  unfold block_coordinates, block_lines.
  now destruct (successes parseElementLine _).
Qed.

Lemma molpro_blocks_loop_first before m rest :
  Forall (fun b => block_coordinates b = []) before ->
  block_coordinates m <> [] ->
  molpro_blocks_loop (before ++ m :: rest) = Ok (block_coordinates m).
Proof.
  intros Hb Hm. induction Hb as [ | b before Hb _ IH]; cbn [app];
    rewrite molpro_blocks_loop_cons.
  - destruct (block_coordinates m); [ contradiction | reflexivity ].
  - now rewrite Hb.
Qed.

Lemma _extract_from_molpro_file_first content before m rest :
  finditer geom_block_pattern content = before ++ m :: rest ->
  Forall (fun b => block_coordinates b = []) before ->
  block_coordinates m <> [] ->
  _extract_from_molpro_file content = Ok (block_coordinates m).
Proof.
  unfold _extract_from_molpro_file. intros -> Hb Hm.
  now apply molpro_blocks_loop_first.
Qed.

Lemma _read_file_content_Ok fs p data :
  fs p = Ok data ->
  _read_file_content fs p = Ok (Some (universal_newlines data)).
Proof. unfold _read_file_content, read_text. now intros ->. Qed.

Lemma extract_coordinates_molpro fs file_path data :
  _detect_file_type file_path = molpro ->
  fs file_path = Ok data ->
  extract_coordinates fs file_path =
  _extract_from_molpro_file (universal_newlines data).
Proof.
  intros Ht Hfs. unfold extract_coordinates, extract_coordinates_with.
  rewrite (_read_file_content_Ok _ _ Hfs). cbn [bind]. now rewrite Ht.
Qed.

(** C2, as stated, fails: in [two_blocks] the first geometry block
    yields no coordinate and the second yields two, and extraction
    returns those two, not the empty list. *)
Lemma molpro_second_block_is_used :
  _detect_file_type job_out = molpro
  /\ (exists b1 b2,
        finditer geom_block_pattern two_blocks = [b1; b2]
        /\ block_coordinates b1 = []
        /\ block_coordinates b2 = oxygen_hydrogen)
  /\ _extract_from_molpro_file two_blocks = Ok oxygen_hydrogen
  /\ extract_coordinates (only_file two_blocks) job_out = Ok oxygen_hydrogen
  /\ extract_coordinates (only_file two_blocks) job_out <> Ok [].
Proof.
  split; [ reflexivity | ].
  split; [ do 2 eexists; repeat split; vm_compute; reflexivity | ].
  split; [ vm_compute; reflexivity | ].
  split; [ vm_compute; reflexivity | ].
  vm_compute. discriminate.
Qed.

(** C2, amended.  When the first geometry block of a MOLPRO file yields
    no coordinate and the second yields some, extraction returns the
    coordinates of the second block: the blocks are taken in document
    order up to the first that yields a coordinate, and the blocks
    [later] in the file are not used. *)
Theorem molpro_first_yielding_block
    (fs : filesystem) (file_path : Path) (data : str)
    (b1 b2 : match_obj) (later : list match_obj) :
  _detect_file_type file_path = molpro ->
  fs file_path = Ok data ->
  finditer geom_block_pattern (universal_newlines data) = b1 :: b2 :: later ->
  block_coordinates b1 = [] ->
  block_coordinates b2 <> [] ->
  _extract_from_molpro_file (universal_newlines data)
  = Ok (block_coordinates b2)
  /\ extract_coordinates fs file_path = Ok (block_coordinates b2).
Proof.
  intros Ht Hfs Hf H1 H2.
  rewrite (extract_coordinates_molpro _ _ Ht Hfs).
  assert (H : _extract_from_molpro_file (universal_newlines data)
              = Ok (block_coordinates b2)).
  { apply (@_extract_from_molpro_file_first _ [b1] b2 later);
      [ exact Hf | now constructor | exact H2 ]. }
  now split.
Qed.

Lemma molpro_first_yielding_block_witness :
  _detect_file_type job_out = molpro
  /\ only_file two_blocks job_out = Ok two_blocks
  /\ (exists b1 b2,
        finditer geom_block_pattern (universal_newlines two_blocks) = [b1; b2]
        /\ block_coordinates b1 = []
        /\ block_coordinates b2 <> []
        /\ extract_coordinates (only_file two_blocks) job_out
           = Ok (block_coordinates b2)).
Proof.
  assert (Ht : _detect_file_type job_out = molpro) by reflexivity.
  assert (Hfs : only_file two_blocks job_out = Ok two_blocks) by reflexivity.
  assert (Hf : finditer geom_block_pattern (universal_newlines two_blocks) =
               [ {| group1 := Some (LF :: "! no atoms here" ++ [LF]);
                    after := LF :: "geometry={" ++ [LF] ++ "O 0.0 0.0 0.0" ++
                             [LF] ++ "H 0.0 0.0 1.0" ++ [LF] ++ "}" ++ [LF] |};
                 {| group1 := Some (LF :: "O 0.0 0.0 0.0" ++ [LF] ++
                                    "H 0.0 0.0 1.0" ++ [LF]);
                    after := [LF] |} ])
    by (vm_compute; reflexivity).
  assert (H1 : block_coordinates
                 {| group1 := Some (LF :: "! no atoms here" ++ [LF]);
                    after := LF :: "geometry={" ++ [LF] ++ "O 0.0 0.0 0.0" ++
                             [LF] ++ "H 0.0 0.0 1.0" ++ [LF] ++ "}" ++ [LF] |}
               = [])
    by (vm_compute; reflexivity).
  assert (H2 : block_coordinates
                 {| group1 := Some (LF :: "O 0.0 0.0 0.0" ++ [LF] ++
                                    "H 0.0 0.0 1.0" ++ [LF]);
                    after := [LF] |} <> [])
    by (vm_compute; discriminate).
  split; [ exact Ht | ]. split; [ exact Hfs | ].
  do 2 eexists.
  split; [ exact Hf | ]. split; [ exact H1 | ]. split; [ exact H2 | ].
  exact (proj2 (molpro_first_yielding_block
                  (only_file two_blocks) job_out Ht Hfs Hf H1 H2)).
Defined.

(** ** The line classifier [parseElementLine] *)

Lemma split_ws_go_tokens s :
  forall cur,
    forallb no_space cur = true ->
    Forall (fun t => t <> [] /\ forallb no_space t = true)
      (split_ws_go cur s).
Proof.
  assert (Hrev : forall cur, cur <> [] -> forallb no_space cur = true ->
                             rev cur <> [] /\ forallb no_space (rev cur) = true).
  { intros cur Hne Hc. split.
    - intros E. apply (f_equal (@rev ascii)) in E.
      rewrite rev_involutive in E. contradiction.
    - rewrite forallb_forall in *. intros c Hin. apply Hc. now apply in_rev. }
  induction s as [ | c s IH]; intros cur Hc; cbn [split_ws_go].
  - destruct cur as [ | a cur]; constructor; [ | constructor ].
    now apply Hrev.
  - destruct (isspace c) eqn:E.
    + destruct cur as [ | a cur]; [ now apply IH | ].
      constructor; [ now apply Hrev | now apply IH ].
    + apply IH. cbn. unfold no_space at 1. now rewrite E.
Qed.

Lemma split_ws_tokens s :
  Forall (fun t => t <> [] /\ forallb no_space t = true) (split_ws s).
Proof. now apply split_ws_go_tokens. Qed.

Lemma dropwhile_none p s :
  forallb (fun c => negb (p c)) s = true -> dropwhile p s = s.
Proof.
  destruct s as [ | c s]; [ reflexivity | ]. cbn.
  destruct (p c); [ discriminate | reflexivity ].
Qed.

Lemma strip_no_space t : forallb no_space t = true -> strip t = t.
Proof.
  intros H. unfold strip, rstrip, lstrip.
  rewrite (dropwhile_none isspace (rev t)).
  - rewrite rev_involutive. now apply dropwhile_none.
  - rewrite forallb_forall in *. intros c Hc. apply H. now apply in_rev.
Qed.

Lemma parseElementLine_cases line :
  parseElementLine line =
  match split_ws line with
  | t0 :: t1 :: t2 :: t3 :: _ =>
      if is_match alpha_re t0
      then match py_float t1, py_float t2, py_float t3 with
           | Ok x, Ok y, Ok z => Some (atom t0 x y z)
           | _, _, _ => None
           end
      else None
  | _ => None
  end.
Proof.
  unfold parseElementLine, _parse_input_coordinate_line.
  pose proof (split_ws_tokens line) as Ht.
  destruct (split_ws line) as [ | t0 [ | t1 [ | t2 [ | t3 rest]]]];
    try reflexivity.
  apply Forall_inv in Ht. destruct Ht as [_ Ht].
  cbn [length Nat.leb item nth_error bind].
  rewrite (strip_no_space _ Ht).
  destruct (is_match alpha_re t0); cbn [negb]; [ | reflexivity ].
  destruct (py_float t1) as [x | e1] eqn:E1; cbn [bind try_except].
  2: { apply py_float_raises in E1. now subst. }
  destruct (py_float t2) as [y | e2] eqn:E2; cbn [bind try_except].
  2: { apply py_float_raises in E2. now subst. }
  destruct (py_float t3) as [z | e3] eqn:E3; cbn [bind try_except].
  2: { apply py_float_raises in E3. now subst. }
  reflexivity.
Qed.

(** C6, as stated, fails: the line "C inf 0.0 nan" has four tokens and an
    alphabetic first token, its second token is not a finite real, and
    the classifier returns a match. *)
Lemma parseElementLine_matches_non_finite :
  split_ws "C inf 0.0 nan" = ["C"; "inf"; "0.0"; "nan"]
  /\ parses_as_finite "inf" = false
  /\ parses_as_finite "nan" = false
  /\ parseElementLine "C inf 0.0 nan"
     = Some (atom "C" (S754_infinity false) zero S754_nan).
Proof. repeat split; vm_compute; reflexivity. Qed.

(** C6, amended.  [parseElementLine] never raises, and it returns a match
    exactly when the line has at least 4 whitespace-separated tokens,
    token 0 matches [^[A-Za-z]+$] and [float] accepts each of tokens 1 to
    3; [float] accepts "inf", "infinity" and "nan", so the values of a
    match need not be finite.  A numeric first token gives no match. *)
Theorem parseElementLine_spec :
  (forall line, exists r, _parse_input_coordinate_line line = Ok r)
  /\ (forall line a,
        parseElementLine line = Some a <->
        exists t0 t1 t2 t3 rest,
          split_ws line = t0 :: t1 :: t2 :: t3 :: rest
          /\ is_match alpha_re t0 = true
          /\ py_float t1 = Ok (x a)
          /\ py_float t2 = Ok (y a)
          /\ py_float t3 = Ok (z a)
          /\ element a = t0)
  /\ (forall line,
        Forall (fun t => is_match alpha_re t = true <-> run_of isalpha t)
          (split_ws line))
  /\ parseElementLine "1 0.0 0.0 0.0" = None
  /\ float_accepts "inf" = true
  /\ float_accepts "nan" = true
  /\ parseElementLine "C inf 0.0 nan"
     = Some (atom "C" (S754_infinity false) zero S754_nan).
Proof.
  split; [ exact _parse_input_coordinate_line_total | ].
  split; [ | split; [ | repeat split; vm_compute; reflexivity ] ].
  2: { intros line. eapply Forall_impl; [ | apply split_ws_tokens ].
       intros t [_ Ht]. now apply is_match_alpha_re_token. }
  intros line a. rewrite parseElementLine_cases. split.
  - destruct (split_ws line) as [ | t0 [ | t1 [ | t2 [ | t3 rest]]]];
      try discriminate.
    destruct (is_match alpha_re t0) eqn:Hm; [ | discriminate ].
    destruct (py_float t1) as [x1 | ] eqn:E1; [ | discriminate ].
    destruct (py_float t2) as [y1 | ] eqn:E2; [ | discriminate ].
    destruct (py_float t3) as [z1 | ] eqn:E3; [ | discriminate ].
    intros [= <-]. exists t0, t1, t2, t3, rest. now repeat split.
  - intros (t0 & t1 & t2 & t3 & rest & -> & Hm & -> & -> & -> & <-).
    rewrite Hm. now destruct a.
Qed.

(** ** Case of the element symbol *)

Lemma upper_char_idempotent c : upper_char (upper_char c) = upper_char c.
Proof. destruct c as [[] [] [] [] [] [] [] []]; reflexivity. Qed.

Lemma lower_char_idempotent c : lower_char (lower_char c) = lower_char c.
Proof. destruct c as [[] [] [] [] [] [] [] []]; reflexivity. Qed.

Lemma upper_idempotent s : upper (upper s) = upper s.
Proof.
  unfold upper. rewrite map_map. apply map_ext, upper_char_idempotent.
Qed.

Lemma lower_idempotent s : lower (lower s) = lower s.
Proof.
  unfold lower. rewrite map_map. apply map_ext, lower_char_idempotent.
Qed.

Lemma normalize_symbol_idempotent s :
  normalize_symbol (normalize_symbol s) = normalize_symbol s.
Proof.
  destruct s as [ | c [ | d s]]; [ reflexivity | | ].
  - cbn. now rewrite upper_char_idempotent.
  - unfold normalize_symbol at 2. cbn [length Nat.ltb Nat.leb firstn skipn].
    unfold normalize_symbol.
    cbn [upper lower map app length Nat.ltb Nat.leb firstn skipn].
    rewrite upper_char_idempotent, lower_char_idempotent.
    fold (lower s). fold (lower (lower s)). now rewrite lower_idempotent.
Qed.

Lemma count_atoms_normalized coordinates :
  forall d,
    count_atoms (map with_normalized_symbol coordinates) d =
    count_atoms coordinates d.
Proof.
  induction coordinates as [ | c rest IH]; intros d; [ reflexivity | ].
  cbn [map count_atoms with_normalized_symbol element].
  now rewrite normalize_symbol_idempotent, IH.
Qed.

Lemma generate_formula_normalized coordinates :
  generate_formula (map with_normalized_symbol coordinates) =
  generate_formula coordinates.
Proof.
  destruct coordinates as [ | c rest]; [ reflexivity | ].
  unfold generate_formula.
  change (map with_normalized_symbol (c :: rest))
    with (with_normalized_symbol c :: map with_normalized_symbol rest) at 1.
  cbv iota. now rewrite count_atoms_normalized.
Qed.

(** The loop body of [_extract_from_punch], case by case: an entry is
    kept when it has four fields, the first matching the broader pattern
    of the source, the others accepted by [float]. *)
Lemma punch_entry_eq entry acc :
  punch_entry entry acc =
  Ok match entry, split "," entry with
     | _ :: _, [p0; p1; p2; p3] =>
         if is_match punch_element_re (strip p0)
         then match py_float p1, py_float p2, py_float p3 with
              | Ok x, Ok y, Ok z => acc ++ [atom (strip p0) x y z]
              | _, _, _ => acc
              end
         else acc
     | _, _ => acc
     end.
Proof.
  unfold punch_entry. destruct entry as [ | c entry]; [ reflexivity | ].
  destruct (split "," (c :: entry))
    as [ | p0 [ | p1 [ | p2 [ | p3 [ | p4 rest]]]]]; try reflexivity.
  cbn [length Nat.eqb item nth_error bind].
  assert (H : try_except
               (x_coord <- py_float p1 ;;
                p4 <- Ok p2 ;;
                y_coord <- py_float p4 ;;
                p5 <- Ok p3 ;;
                z_coord <- py_float p5 ;;
                Ok (acc ++ [{| element := strip p0; x := x_coord;
                               y := y_coord; z := z_coord |}]))
               is_ValueError (fun _ => Ok acc)
             = Ok match py_float p1, py_float p2, py_float p3 with
                  | Ok x, Ok y, Ok z => acc ++ [atom (strip p0) x y z]
                  | _, _, _ => acc
                  end).
  { destruct (py_float p1) as [x1 | e1] eqn:E1; cbn [bind try_except].
    2: { apply py_float_raises in E1. now subst. }
    destruct (py_float p2) as [y1 | e2] eqn:E2; cbn [bind try_except].
    2: { apply py_float_raises in E2. now subst. }
    destruct (py_float p3) as [z1 | e3] eqn:E3; cbn [bind try_except].
    2: { apply py_float_raises in E3. now subst. }
    reflexivity. }
  pose proof (alpha_re_in_punch_element_re (strip p0)) as Hin.
  destruct (is_match punch_element_re (strip p0)); cbn [negb];
    [ exact H | ].
  destruct (is_match alpha_re (strip p0)); cbn [negb];
    [ now discriminate Hin | reflexivity ].
Qed.

Lemma punch_entry_symbol entry acc :
  exists l,
    punch_entry entry acc = Ok l
    /\ (l = acc
        \/ exists a, l = acc ++ [a]
                     /\ element a = strip (hd [] (split "," entry))).
Proof.
  rewrite punch_entry_eq. eexists. split; [ reflexivity | ].
  destruct entry as [ | c entry]; [ now left | ].
  destruct (split "," (c :: entry))
    as [ | p0 [ | p1 [ | p2 [ | p3 [ | p4 rest]]]]]; try now left.
  destruct (is_match punch_element_re (strip p0)); [ | now left ].
  destruct (py_float p1); [ | now left ].
  destruct (py_float p2); [ | now left ].
  destruct (py_float p3); [ | now left ].
  right. eexists. split; reflexivity.
Qed.

(** C5, as stated, fails: the coordinate lines "c 0.0 0.0 0.0" and
    "CL 0.0 0.0 0.0" yield the elements "c" and "CL", which are not the
    normalised symbols "C" and "Cl". *)
Lemma element_symbol_is_not_normalized :
  parseElementLine "c 0.0 0.0 0.0" = Some (atom "c" zero zero zero)
  /\ parseElementLine "CL 0.0 0.0 0.0" = Some (atom "CL" zero zero zero)
  /\ normalize_symbol "c" = "C"
  /\ normalize_symbol "CL" = "Cl"
  /\ _extract_from_input_file ("0 1" ++ [LF] ++ "c 0.0 0.0 0.0" ++ [LF])
     = Ok [atom "c" zero zero zero]
  /\ element (atom "c" zero zero zero)
     <> normalize_symbol (element (atom "c" zero zero zero)).
Proof.
  repeat split; try (vm_compute; reflexivity). vm_compute. discriminate.
Qed.

(** C5, amended.  Extraction keeps the element symbol as it is written:
    the first token of an "Element X Y Z" line, the first field of a
    punch entry (the symbols of the element table are normalised
    already).  The Title Case or uppercase normalisation is applied by
    the formula generator only, which counts "c" and "CL" under "C" and
    "Cl". *)
Theorem element_symbol_normalized_in_formula_only :
  (forall line,
     match parseElementLine line with
     | Some a => exists rest, split_ws line = element a :: rest
     | None => True
     end)
  /\ (forall entry acc,
        exists l,
          punch_entry entry acc = Ok l
          /\ (l = acc
              \/ exists a, l = acc ++ [a]
                           /\ element a = strip (hd [] (split "," entry))))
  /\ forallb (fun kv => str_eqb (normalize_symbol (snd kv)) (snd kv))
       ELEMENT_MAP = true
  /\ (forall coordinates,
        generate_formula (map with_normalized_symbol coordinates)
        = generate_formula coordinates)
  /\ generate_formula [atom "c" zero zero zero; atom "CL" zero zero zero;
                       atom "cl" zero zero zero]
     = "CCl2".
Proof.
  split; [ | split; [ exact punch_entry_symbol | ] ].
  - intros line. rewrite parseElementLine_cases.
    destruct (split_ws line) as [ | t0 [ | t1 [ | t2 [ | t3 rest]]]];
      try exact I.
    destruct (is_match alpha_re t0); [ | exact I ].
    destruct (py_float t1); [ | exact I ].
    destruct (py_float t2); [ | exact I ].
    destruct (py_float t3); [ | exact I ].
    now eexists.
  - split; [ vm_compute; reflexivity | ].
    split; [ exact generate_formula_normalized | vm_compute; reflexivity ].
Qed.

(** C3.  An atom entry of the punch string is kept when it has four
    fields, the first matching the broader pattern, with its optional
    hyphenated tag, and the others accepted by [float]: the stricter test
    rejects nothing more.  The archive entry of [isotope_log] has the
    atom entry "C-13,0.,0.,1.1": its element field does not match
    [^[A-Za-z]+$], and the entry is accepted. *)
Theorem punch_accepts_tagged_symbol :
  (forall entry acc,
     punch_entry entry acc =
     Ok match entry, split "," entry with
        | _ :: _, [p0; p1; p2; p3] =>
            if is_match punch_element_re (strip p0)
            then match py_float p1, py_float p2, py_float p3 with
                 | Ok x, Ok y, Ok z => acc ++ [atom (strip p0) x y z]
                 | _, _, _ => acc
                 end
            else acc
        | _, _ => acc
        end)
  /\ is_match alpha_re "C-13" = false
  /\ is_match punch_element_re "C-13" = true
  /\ punch_entry "C-13,0.,0.,1.1" [] = Ok [atom "C-13" zero zero one_point_one]
  /\ _extract_from_punch isotope_log
     = Ok [atom "C-13" zero zero one_point_one; atom "H" zero zero zero]
  /\ extract_coordinates (only_file isotope_log) job_log
     = Ok [atom "C-13" zero zero one_point_one; atom "H" zero zero zero].
Proof.
  split; [ exact punch_entry_eq | repeat split; vm_compute; reflexivity ].
Qed.

(** ** The formula generator *)

Lemma dict_get_set d k v k' default :
  dict_get (dict_set d k v) k' default =
  if str_eqb k k' then v else dict_get d k' default.
Proof.
  induction d as [ | [k0 v0] d IH]; cbn [dict_set dict_get].
  - reflexivity.
  - destruct (str_eqb k0 k) eqn:E0; cbn [dict_get].
    + apply str_eqb_eq in E0. subst k0. now destruct (str_eqb k k').
    + rewrite IH. destruct (str_eqb k0 k') eqn:E1; [ | reflexivity ].
      apply str_eqb_eq in E1. subst k0.
      destruct (str_eqb k k') eqn:E2; [ | reflexivity ].
      apply str_eqb_eq in E2. subst k. now rewrite str_eqb_refl in E0.
Qed.

Lemma keys_dict_set d k v :
  (In k (keys d) /\ keys (dict_set d k v) = keys d)
  \/ (~ In k (keys d) /\ keys (dict_set d k v) = keys d ++ [k]).
Proof.
  induction d as [ | [k0 v0] d IH]; cbn [dict_set keys map fst].
  - right. split; [ intros [] | reflexivity ].
  - destruct (str_eqb k0 k) eqn:E0.
    + apply str_eqb_eq in E0. subst k0. left. split; [ now left | reflexivity ].
    + apply str_eqb_neq in E0. cbn [map fst].
      change (map fst (dict_set d k v)) with (keys (dict_set d k v)).
      change (map fst d) with (keys d).
      destruct IH as [[Hin ->] | [Hin ->]].
      * left. split; [ now right | reflexivity ].
      * right. split; [ | reflexivity ]. intros [H | H]; contradiction.
Qed.

Lemma count_symbol_snoc e seen c :
  count_symbol e (seen ++ [c]) =
  count_symbol e seen +
  (if str_eqb (normalize_symbol (element c)) e then 1 else 0).
Proof.
  unfold count_symbol. rewrite filter_app, length_app. cbn [filter].
  now destruct (str_eqb (normalize_symbol (element c)) e).
Qed.

Lemma count_symbol_positive e seen :
  0 < count_symbol e seen <->
  exists c, In c seen /\ normalize_symbol (element c) = e.
Proof.
  unfold count_symbol. split.
  - intros H.
    destruct (filter _ seen) as [ | c l] eqn:E; [ cbn in H; lia | ].
    assert (Hc : In c (filter (fun c => str_eqb (normalize_symbol (element c)) e)
                         seen)) by (rewrite E; now left).
    apply filter_In in Hc as [Hc1 Hc2]. apply str_eqb_eq in Hc2. now exists c.
  - intros (c & Hc & He).
    assert (Hin : In c (filter (fun c => str_eqb (normalize_symbol (element c)) e)
                          seen)).
    { apply filter_In. split; [ exact Hc | now apply str_eqb_eq ]. }
    destruct (filter _ seen); [ destruct Hin | cbn; lia ].
Qed.

Lemma count_atoms_tally coordinates :
  forall d seen,
    tally_of d seen -> tally_of (count_atoms coordinates d) (seen ++ coordinates).
Proof.
  induction coordinates as [ | c rest IH]; intros d seen H; cbn [count_atoms].
  - now rewrite app_nil_r.
  - replace (seen ++ c :: rest) with ((seen ++ [c]) ++ rest)
      by now rewrite <- app_assoc.
    apply IH. destruct H as (Hnd & Hget & Hin).
    set (k := normalize_symbol (element c)).
    set (v := dict_get d k 0 + 1).
    repeat split.
    + destruct (keys_dict_set d k v) as [[_ ->] | [Hk ->]]; [ exact Hnd | ].
      apply NoDup_app; [ exact Hnd | repeat constructor; intros [] | ].
      intros a Ha [<- | []]. contradiction.
    + intros e. rewrite dict_get_set, count_symbol_snoc. fold k.
      destruct (str_eqb k e) eqn:E.
      * apply str_eqb_eq in E. subst e. unfold v. now rewrite Hget.
      * rewrite Hget. lia.
    + rewrite count_symbol_snoc. fold k. intros He.
      destruct (str_eqb k e) eqn:E; [ lia | ].
      rewrite Nat.add_0_r. apply Hin.
      destruct (keys_dict_set d k v) as [[_ Hk] | [_ Hk]]; rewrite Hk in He;
        [ exact He | ].
      apply in_app_or in He as [He | [<- | []]]; [ exact He | ].
      now rewrite str_eqb_refl in E.
    + rewrite count_symbol_snoc. fold k. intros He.
      destruct (keys_dict_set d k v) as [[Hk ->] | [Hk ->]].
      * destruct (str_eqb k e) eqn:E.
        -- apply str_eqb_eq in E. now subst e.
        -- apply Hin. lia.
      * apply in_or_app. destruct (str_eqb k e) eqn:E.
        -- apply str_eqb_eq in E. right. now left.
        -- left. apply Hin. lia.
Qed.

Lemma ord_inj a b : ord a = ord b -> a = b.
Proof.
  unfold ord. intros H.
  rewrite <- (ascii_nat_embedding a), <- (ascii_nat_embedding b). now f_equal.
Qed.

Lemma str_ltb_trans a :
  forall b c, str_ltb a b = true -> str_ltb b c = true -> str_ltb a c = true.
Proof.
  induction a as [ | x a IH]; intros [ | y b] [ | z c]; cbn [str_ltb];
    try congruence.
  destruct (ord x <? ord y) eqn:Exy, (ord y <? ord x) eqn:Eyx,
           (ord y <? ord z) eqn:Eyz, (ord z <? ord y) eqn:Ezy,
           (ord x <? ord z) eqn:Exz, (ord z <? ord x) eqn:Ezx;
    try congruence;
    repeat match goal with
           | H : (_ <? _) = true |- _ => apply Nat.ltb_lt in H
           | H : (_ <? _) = false |- _ => apply Nat.ltb_ge in H
           end; try lia.
  apply IH.
Qed.

Lemma str_ltb_total a :
  forall b, a <> b -> str_ltb a b = true \/ str_ltb b a = true.
Proof.
  induction a as [ | x a IH]; intros [ | y b] H; cbn [str_ltb]; auto.
  destruct (ord x <? ord y) eqn:Exy; [ now left | ].
  destruct (ord y <? ord x) eqn:Eyx; [ now right | ].
  apply Nat.ltb_ge in Exy, Eyx.
  assert (x = y) by (apply ord_inj; lia). subst y.
  apply IH. congruence.
Qed.

Lemma str_ltb_irrefl a : str_ltb a a = false.
Proof.
  induction a as [ | x a IH]; cbn [str_ltb]; [ reflexivity | ].
  now rewrite Nat.ltb_irrefl.
Qed.

Ltac rank_cases :=
  cbn [rank_ltb Nat.ltb Nat.leb orb negb andb];
  rewrite ?str_ltb_irrefl.

Lemma key_ltb_hill_lt a b : key_ltb a b = true <-> hill_lt a b.
Proof.
  unfold key_ltb, hill_lt, preferred_order.
  destruct (str_eqb a "C") eqn:Ea.
  { apply str_eqb_eq in Ea. subst a.
    destruct (str_eqb b "C") eqn:Eb.
    - apply str_eqb_eq in Eb. subst b. rank_cases. split; congruence.
    - apply str_eqb_neq in Eb.
      destruct (str_eqb b "H"); rank_cases; split; auto. }
  destruct (str_eqb a "H") eqn:Ea'.
  { apply str_eqb_eq in Ea'. subst a.
    destruct (str_eqb b "C") eqn:Eb.
    - apply str_eqb_eq in Eb. subst b. rank_cases.
      split; [ congruence | tauto ].
    - apply str_eqb_neq in Eb. destruct (str_eqb b "H") eqn:Eb'.
      + apply str_eqb_eq in Eb'. subst b. rank_cases.
        split; [ congruence | tauto ].
      + apply str_eqb_neq in Eb'. rank_cases. split; auto. }
  destruct (str_eqb b "C") eqn:Eb.
  { apply str_eqb_eq in Eb. subst b. rank_cases.
    split; [ congruence | tauto ]. }
  destruct (str_eqb b "H") eqn:Eb'.
  { apply str_eqb_eq in Eb'. subst b. rank_cases.
    split; [ congruence | tauto ]. }
  apply str_eqb_neq in Eb, Eb'. rank_cases. tauto.
Qed.

Lemma hill_lt_trans a b c : hill_lt a b -> hill_lt b c -> hill_lt a c.
Proof.
  unfold hill_lt.
  destruct (str_eqb a "C") eqn:Ea, (str_eqb a "H") eqn:Ea',
           (str_eqb b "C") eqn:Eb, (str_eqb b "H") eqn:Eb';
    repeat match goal with
           | H : str_eqb _ _ = true |- _ => apply str_eqb_eq in H; subst
           | H : str_eqb _ _ = false |- _ => apply str_eqb_neq in H
           end; try tauto; try congruence.
  intros (_ & _ & H1) (Hc & Hh & H2). repeat split; try assumption.
  now apply str_ltb_trans with b.
Qed.

Lemma hill_lt_total a b : a <> b -> hill_lt a b \/ hill_lt b a.
Proof.
  intros Hab. unfold hill_lt.
  destruct (str_eqb a "C") eqn:Ea, (str_eqb a "H") eqn:Ea',
           (str_eqb b "C") eqn:Eb, (str_eqb b "H") eqn:Eb';
    repeat match goal with
           | H : str_eqb _ _ = true |- _ => apply str_eqb_eq in H; subst
           | H : str_eqb _ _ = false |- _ => apply str_eqb_neq in H
           end; try tauto; try congruence.
  destruct (str_ltb_total Hab); tauto.
Qed.

Lemma insert_sorted_perm a l : Permutation (insert_sorted a l) (a :: l).
Proof.
  induction l as [ | b l IH]; cbn [insert_sorted]; [ reflexivity | ].
  destruct (key_ltb b a); [ | reflexivity ].
  rewrite IH. apply perm_swap.
Qed.

Lemma sorted_perm l : Permutation (sorted l) l.
Proof.
  induction l as [ | a l IH]; cbn; [ reflexivity | ].
  rewrite insert_sorted_perm. now constructor.
Qed.

Lemma insert_sorted_sorted a l :
  ~ In a l -> StronglySorted hill_lt l ->
  StronglySorted hill_lt (insert_sorted a l).
Proof.
  intros Ha Hl. induction Hl as [ | b l Hl IH Hb]; cbn [insert_sorted].
  - repeat constructor.
  - destruct (key_ltb b a) eqn:E.
    + apply key_ltb_hill_lt in E. constructor.
      * apply IH. intros H. apply Ha. now right.
      * apply Forall_forall. intros y Hy.
        apply (Permutation_in _ (insert_sorted_perm a l)) in Hy.
        destruct Hy as [<- | Hy]; [ exact E | ].
        rewrite Forall_forall in Hb. now apply Hb.
    + assert (Hab : hill_lt a b).
      { destruct (@hill_lt_total a b) as [H | H]; [ | exact H | ].
        - intros ->. apply Ha. now left.
        - apply key_ltb_hill_lt in H. congruence. }
      constructor; [ now constructor | ].
      constructor; [ exact Hab | ].
      eapply Forall_impl; [ | exact Hb ].
      intros y Hy. now apply hill_lt_trans with b.
Qed.

Lemma sorted_sorted l : NoDup l -> StronglySorted hill_lt (sorted l).
Proof.
  induction 1 as [ | a l Ha Hl IH]; cbn; [ constructor | ].
  apply insert_sorted_sorted; [ | exact IH ].
  intros H. apply Ha. now apply (Permutation_in _ (sorted_perm l)).
Qed.

(** C9.  The formula is the concatenation, over the distinct normalised
    symbols of the list in Hill order (carbon, hydrogen, then the others
    by [<]), of the symbol followed by its count, the count being left
    out when it is 1; the two formulas of the specification and the
    empty formula are as stated. *)
Theorem generate_formula_hill_order :
  (forall coordinates,
     exists symbols,
       NoDup symbols
       /\ (forall e, In e symbols <->
                     exists c, In c coordinates
                               /\ normalize_symbol (element c) = e)
       /\ StronglySorted hill_lt symbols
       /\ generate_formula coordinates =
          join (map (fun e => e ++ count_suffix (count_symbol e coordinates))
                  symbols))
  /\ count_suffix 1 = []
  /\ (forall n, count_suffix (2 + n) = py_str_int (Z.of_nat (2 + n)))
  /\ generate_formula
       [atom "C" zero zero zero; atom "C" zero zero zero;
        atom "H" zero zero zero; atom "H" zero zero zero;
        atom "H" zero zero zero; atom "H" zero zero zero] = "C2H4"
  /\ generate_formula
       [atom "O" zero zero zero; atom "H" zero zero zero;
        atom "H" zero zero zero] = "H2O"
  /\ generate_formula [] = [].
Proof.
  split; [ | repeat split; vm_compute; reflexivity ].
  intros coordinates.
  assert (Ht : tally_of (count_atoms coordinates []) coordinates).
  { apply (@count_atoms_tally coordinates [] []).
    split; [ constructor | ].
    split; [ reflexivity | ].
    intros e. split; [ intros [] | intros H; cbn in H; lia ]. }
  destruct Ht as (Hnd & Hget & Hin).
  exists (sorted (keys (count_atoms coordinates []))).
  pose proof (sorted_perm (keys (count_atoms coordinates []))) as Hp.
  repeat split.
  - apply (Permutation_NoDup (Permutation_sym Hp) Hnd).
  - intros H. apply count_symbol_positive, Hin.
    now apply (Permutation_in _ Hp).
  - intros H. apply (Permutation_in _ (Permutation_sym Hp)).
    now apply Hin, count_symbol_positive.
  - now apply sorted_sorted.
  - destruct coordinates as [ | c rest]; [ reflexivity | ].
    unfold generate_formula. f_equal. apply map_ext. intros e.
    now rewrite Hget.
Qed.

(** ** The Gaussian log strategy *)

Lemma _detect_file_type_log file_path :
  lower (suffix file_path) = ".log" ->
  _detect_file_type file_path = gaussian_log.
Proof.
  unfold _detect_file_type, _is_gaussian_input_file, _is_gaussian_log_file.
  now intros ->.
Qed.

Lemma _extract_from_punch_section content punch_string section :
  _find_punch_string content = Some punch_string ->
  nth_error (split "\\" (remove_whitespace punch_string)) 3 = Some section ->
  _extract_from_punch content =
  match section with
  | [] => Ok []
  | _ :: _ => punch_entries (split [BACKSLASH] section) []
  end.
Proof.
  intros Hp Hs. unfold _extract_from_punch. rewrite Hp.
  destruct punch_string as [ | c p]; [ discriminate | ].
  assert (Hl : 3 < length (split "\\" (remove_whitespace (c :: p))))
    by (apply nth_error_Some; congruence).
  apply Nat.ltb_ge in Hl. rewrite Hl.
  apply item_Ok in Hs. now rewrite Hs.
Qed.

(** C1, as stated, fails: the last non-empty line of [padded_punch_log]
    contains "Normal termination" and its archive entry has the stated
    coordinate section, but the line is not within the last 1000 bytes,
    so the punch string is not tried and no coordinate is returned. *)
Lemma termination_line_before_the_tail :
  lower (suffix job_log) = ".log"
  /\ last_nonempty_line (universal_newlines padded_punch_log)
     = Some " Normal termination of Gaussian 16."
  /\ last_nonblank_line (universal_newlines padded_punch_log)
     = Some " Normal termination of Gaussian 16."
  /\ contains normal_termination_text " Normal termination of Gaussian 16."
     = true
  /\ (exists punch_string,
        _find_punch_string (universal_newlines padded_punch_log)
        = Some punch_string
        /\ nth_error (split "\\" (remove_whitespace punch_string)) 3
           = Some carbon_hydrogen_section)
  /\ _check_normal_termination (only_file padded_punch_log) job_log = Ok false
  /\ extract_coordinates (only_file padded_punch_log) job_log = Ok []
  /\ extract_coordinates (only_file padded_punch_log) job_log
     <> Ok carbon_hydrogen.
Proof.
  split; [ vm_compute; reflexivity | ].
  split; [ vm_compute; reflexivity | ].
  split; [ vm_compute; reflexivity | ].
  split; [ vm_compute; reflexivity | ].
  split; [ eexists; split; vm_compute; reflexivity | ].
  split; [ vm_compute; reflexivity | ].
  split; [ vm_compute; reflexivity | ].
  vm_compute. discriminate.
Qed.

(** C1, amended.  For a Gaussian .log file such that the last non-blank
    line of its last at most 1000 bytes contains "Normal termination",
    and whose punch string has, once its whitespace is removed, the
    section of index 3 equal to [C,0.,0.,1.1\H,0.,0.,0.], extraction
    returns the two atoms C(0,0,1.1) and H(0,0,0), whatever the
    standard-orientation strategy would do: it is not consulted. *)
Theorem punch_extraction_skips_standard_orientation
    (fs : filesystem) (file_path : Path) (data l punch_string : str) :
  lower (suffix file_path) = ".log" ->
  fs file_path = Ok data ->
  last_nonblank_line (tail_text data) = Some l ->
  contains normal_termination_text l = true ->
  _find_punch_string (universal_newlines data) = Some punch_string ->
  nth_error (split "\\" (remove_whitespace punch_string)) 3
  = Some carbon_hydrogen_section ->
  extract_coordinates fs file_path = Ok carbon_hydrogen
  /\ forall standard_orientation,
       extract_coordinates_with standard_orientation fs file_path
       = Ok carbon_hydrogen.
Proof.
  intros Ht Hfs Hl Hn Hp Hs. apply _detect_file_type_log in Ht.
  assert (H : forall standard_orientation,
             extract_coordinates_with standard_orientation fs file_path
             = Ok carbon_hydrogen).
  { intros standard_orientation. unfold extract_coordinates_with.
    rewrite (_read_file_content_Ok _ _ Hfs). cbn [bind]. rewrite Ht.
    rewrite _check_normal_termination_eq, Hfs, Hl, Hn. cbn [bind].
    rewrite (_extract_from_punch_section _ Hp Hs).
    reflexivity. }
  split; [ apply H | exact H ].
Qed.

Lemma punch_extraction_skips_standard_orientation_witness :
  lower (suffix job_log) = ".log"
  /\ only_file punch_log job_log = Ok punch_log
  /\ last_nonblank_line (tail_text punch_log)
     = Some " Normal termination of Gaussian 16."
  /\ contains normal_termination_text " Normal termination of Gaussian 16."
     = true
  /\ extract_coordinates (only_file punch_log) job_log = Ok carbon_hydrogen.
Proof.
  assert (Ht : lower (suffix job_log) = ".log") by reflexivity.
  assert (Hfs : only_file punch_log job_log = Ok punch_log) by reflexivity.
  assert (Hl : last_nonblank_line (tail_text punch_log)
               = Some " Normal termination of Gaussian 16.")
    by (vm_compute; reflexivity).
  assert (Hn : contains normal_termination_text
                 " Normal termination of Gaussian 16." = true)
    by reflexivity.
  assert (Hp : _find_punch_string (universal_newlines punch_log)
               = Some ("1\1\GINC-NODE\SP\RHF\STO-3G\C1H1\\#HF/STO-3G\\0,1\\C,0.,0.,1" ++
                       ".1\H,0.,0.,0.\\Version=ES64L\HF=-37.9\\@"))
    by (vm_compute; reflexivity).
  assert (Hs : nth_error
                 (split "\\"
                    (remove_whitespace
                       ("1\1\GINC-NODE\SP\RHF\STO-3G\C1H1\\#HF/STO-3G\\0,1\\C,0.,0.,1" ++
                        ".1\H,0.,0.,0.\\Version=ES64L\HF=-37.9\\@"))) 3
               = Some carbon_hydrogen_section)
    by (vm_compute; reflexivity).
  repeat (split; [ assumption | ]).
  exact (proj1 (punch_extraction_skips_standard_orientation
                  (only_file punch_log) job_log Ht Hfs Hl Hn Hp Hs)).
Defined.

(** ** The element table and the line of a standard orientation table *)

Lemma py_str_int_inj m n : py_str_int m = py_str_int n -> m = n.
Proof.
  unfold py_str_int. intros H.
  apply (f_equal String.string_of_list_ascii) in H.
  rewrite !String.string_of_list_ascii_of_string in H.
  apply DecimalZ.to_int_inj.
  assert (Hn : forall k, Z.to_int k <> Decimal.Pos Decimal.Nil
                         /\ Z.to_int k <> Decimal.Neg Decimal.Nil).
  { intros [ | p | p]; cbn; split; try discriminate;
      intros [= Hp]; now apply DecimalPos.Unsigned.to_uint_nonnil in Hp. }
  apply (f_equal DecimalString.NilZero.int_of_string) in H.
  rewrite !DecimalString.NilZero.isi in H by apply Hn.
  now injection H.
Qed.

Lemma string_of_uint_digits d :
  forallb isdigit
    (String.list_ascii_of_string (DecimalString.NilEmpty.string_of_uint d))
  = true.
Proof. induction d; cbn; auto. Qed.

Lemma NilZero_string_of_uint_digits d :
  exists c t,
    String.list_ascii_of_string (DecimalString.NilZero.string_of_uint d)
    = c :: t
    /\ forallb isdigit (c :: t) = true.
Proof.
  pose proof (string_of_uint_digits d) as H.
  destruct d; cbn in *; eauto.
Qed.

(** [str(n)] is a non-empty run of digits, after a minus sign when [n]
    is negative. *)
Lemma py_str_int_shape n :
  exists c t,
    py_str_int n = (if (n <? 0)%Z then "-" else []) ++ c :: t
    /\ forallb isdigit (c :: t) = true.
Proof.
  unfold py_str_int.
  destruct n as [ | p | p]; cbn [Z.to_int Z.ltb Z.compare app
                                   DecimalString.NilZero.string_of_int
                                   String.list_ascii_of_string].
  - exists "0"%char, []. split; reflexivity.
  - apply NilZero_string_of_uint_digits.
  - destruct (NilZero_string_of_uint_digits (Pos.to_uint p))
      as (c & t & -> & H).
    now exists c, t.
Qed.

Lemma isdigit_not_alpha c : isdigit c = true -> isalpha c = false.
Proof.
  unfold isdigit, isalpha, isupper, islower, in_range.
  rewrite !andb_true_iff, orb_false_iff, !andb_false_iff, !Nat.leb_le,
    !Nat.leb_gt. lia.
Qed.

Lemma isdigit_symbol_char c : isdigit c = true -> symbol_char c = true.
Proof. unfold symbol_char, isalnum. intros ->. now rewrite orb_true_r. Qed.

Lemma isalpha_symbol_char c : isalpha c = true -> symbol_char c = true.
Proof. unfold symbol_char, isalnum. now intros ->. Qed.

Lemma isalnum_symbol_char c : isalnum c = true -> symbol_char c = true.
Proof. unfold symbol_char. now intros ->. Qed.

Lemma py_str_int_symbol_chars n :
  py_str_int n <> [] /\ forallb symbol_char (py_str_int n) = true.
Proof.
  destruct (py_str_int_shape n) as (c & t & -> & H).
  split; [ now destruct (n <? 0)%Z | ].
  rewrite forallb_app. apply andb_true_iff. split.
  - now destruct (n <? 0)%Z.
  - rewrite forallb_forall in *. intros a Ha.
    now apply isdigit_symbol_char, H.
Qed.

Lemma py_str_int_head_not_alpha n :
  exists c t, py_str_int n = c :: t /\ isalpha c = false.
Proof.
  destruct (py_str_int_shape n) as (c & t & -> & H).
  destruct (n <? 0)%Z; cbn [app].
  - now exists "-"%char, (c :: t).
  - exists c, t. split; [ reflexivity | ].
    apply isdigit_not_alpha. cbn in H. now apply andb_true_iff in H.
Qed.

Lemma int_dict_get_in d k default :
  In k (map fst d) -> In (k, int_dict_get d k default) d.
Proof.
  induction d as [ | [k' v] d IH]; cbn; [ easy | ].
  destruct (Z.eqb_spec k' k) as [-> | Hne].
  - now left.
  - intros [H | H]; [ contradiction | right; auto ].
Qed.

Lemma int_dict_get_default d k default :
  ~ In k (map fst d) -> int_dict_get d k default = default.
Proof.
  induction d as [ | [k' v] d IH]; cbn; [ easy | ].
  destruct (Z.eqb_spec k' k) as [-> | Hne]; intros H.
  - exfalso. apply H. now left.
  - apply IH. intros Hin. apply H. now right.
Qed.

Lemma ELEMENT_MAP_keys n :
  In n (map fst ELEMENT_MAP) <-> (1 <= n <= 118)%Z.
Proof.
  assert (E : map fst ELEMENT_MAP = map Z.of_nat (seq 1 118))
    by (vm_compute; reflexivity).
  rewrite E, in_map_iff. split.
  - intros (k & <- & Hk). apply in_seq in Hk. lia.
  - intros H. exists (Z.to_nat n). split; [ lia | ]. apply in_seq. lia.
Qed.

(** The symbol of an atomic number of the table is its entry, a word of
    one or two letters; any other number is written in decimal. *)
Lemma _get_element_symbol_known n :
  (1 <= n <= 118)%Z ->
  In (n, _get_element_symbol n) ELEMENT_MAP
  /\ run_of isalpha (_get_element_symbol n)
  /\ length (_get_element_symbol n) <= 2.
Proof.
  intros Hn. apply ELEMENT_MAP_keys in Hn.
  pose proof (int_dict_get_in ELEMENT_MAP n (py_str_int n) Hn) as Hin.
  fold (_get_element_symbol n) in Hin. split; [ exact Hin | ].
  assert (A : forallb (fun kv => negb (str_eqb (snd kv) [])
                                 && forallb isalpha (snd kv)
                                 && (length (snd kv) <=? 2))
                ELEMENT_MAP = true) by (vm_compute; reflexivity).
  rewrite forallb_forall in A. specialize (A _ Hin). cbn [snd] in A.
  apply andb_true_iff in A. destruct A as [A Hl].
  apply andb_true_iff in A. destruct A as [Hne Ha].
  split; [ split; [ | exact Ha ] | now apply Nat.leb_le ].
  intros E. rewrite E in Hne. discriminate.
Qed.

Lemma _get_element_symbol_unknown n :
  ~ (1 <= n <= 118)%Z -> _get_element_symbol n = py_str_int n.
Proof.
  intros Hn. apply int_dict_get_default. now rewrite ELEMENT_MAP_keys.
Qed.

Lemma ELEMENT_MAP_injective m n v :
  In (m, v) ELEMENT_MAP -> In (n, v) ELEMENT_MAP -> m = n.
Proof.
  assert (A : forallb
                (fun kv =>
                   forallb (fun kv' =>
                              negb (str_eqb (snd kv) (snd kv'))
                              || Z.eqb (fst kv) (fst kv'))
                     ELEMENT_MAP)
                ELEMENT_MAP = true) by (vm_compute; reflexivity).
  intros Hm Hn. rewrite forallb_forall in A. specialize (A _ Hm).
  rewrite forallb_forall in A. specialize (A _ Hn). cbn [fst snd] in A.
  rewrite str_eqb_refl in A. now apply Z.eqb_eq in A.
Qed.

(** X1.  Two different atomic numbers never get the same symbol: the
    numbers 1 to 118 have the distinct symbols of the table, any other
    integer is written in decimal, and a decimal numeral is not a symbol
    of the table. *)
Theorem get_element_symbol_injective (m n : Z) :
  m <> n -> _get_element_symbol m <> _get_element_symbol n.
Proof.
  intros Hne E. apply Hne. clear Hne.
  assert (mixed : forall a b,
             (1 <= a <= 118)%Z -> ~ (1 <= b <= 118)%Z ->
             _get_element_symbol a <> _get_element_symbol b).
  { intros a b Ha Hb Eab.
    destruct (_get_element_symbol_known Ha) as (_ & [_ Hal] & _).
    rewrite Eab, (_get_element_symbol_unknown Hb) in Hal.
    destruct (py_str_int_head_not_alpha b) as (c & t & Ec & Hc).
    rewrite Ec in Hal. cbn in Hal. now rewrite Hc in Hal. }
  destruct (Z_le_dec 1 m) as [Hm1 | Hm1];
    [ destruct (Z_le_dec m 118) as [Hm2 | Hm2] | ];
    (destruct (Z_le_dec 1 n) as [Hn1 | Hn1];
     [ destruct (Z_le_dec n 118) as [Hn2 | Hn2] | ]);
    try (exfalso; apply (mixed m n); [ lia | lia | exact E ]);
    try (exfalso; apply (mixed n m); [ lia | lia | now symmetry ]);
    try (apply py_str_int_inj;
         rewrite <- !_get_element_symbol_unknown by lia; exact E).
  destruct (_get_element_symbol_known (conj Hm1 Hm2)) as (Im & _).
  destruct (_get_element_symbol_known (conj Hn1 Hn2)) as (In' & _).
  rewrite E in Im. exact (ELEMENT_MAP_injective Im In').
Qed.

Lemma get_element_symbol_injective_witness :
  (6 <> 119)%Z /\ _get_element_symbol 6 <> _get_element_symbol 119.
Proof.
  split; [ discriminate | ].
  apply (@get_element_symbol_injective 6%Z 119%Z). discriminate.
Defined.

Lemma parseCenterLine_cases line :
  parseCenterLine line =
  match split_ws line with
  | _ :: t1 :: _ :: t3 :: t4 :: t5 :: _ =>
      match py_int t1, py_float t3, py_float t4, py_float t5 with
      | Ok n, Ok x, Ok y, Ok z => Some (atom (_get_element_symbol n) x y z)
      | _, _, _, _ => None
      end
  | _ => None
  end.
Proof.
  unfold parseCenterLine, _parse_coordinate_line.
  destruct (split_ws line) as [ | t0 [ | t1 [ | t2 [ | t3 [ | t4 [ | t5 rest]]]]]];
    try reflexivity.
  cbn [length Nat.leb item nth_error bind].
  destruct (py_int t1) as [n | e0] eqn:E0; cbn [bind try_except].
  2: { apply py_int_raises in E0. now subst. }
  destruct (py_float t3) as [x | e1] eqn:E1; cbn [bind try_except].
  2: { apply py_float_raises in E1. now subst. }
  destruct (py_float t4) as [y | e2] eqn:E2; cbn [bind try_except].
  2: { apply py_float_raises in E2. now subst. }
  destruct (py_float t5) as [z | e3] eqn:E3; cbn [bind try_except].
  2: { apply py_float_raises in E3. now subst. }
  reflexivity.
Qed.

(** X2.  [_parse_coordinate_line] never raises.  It returns an atom
    exactly when the line has at least six whitespace-separated tokens,
    [int] accepts token 1 and [float] accepts tokens 3, 4 and 5; the
    element is the symbol of the number of token 1 and the coordinates
    are the values of tokens 3 to 5.  Tokens 0 and 2 and the tokens
    after the sixth are not looked at. *)
Theorem parse_coordinate_line_spec :
  (forall line, _parse_coordinate_line line = Ok (parseCenterLine line))
  /\ (forall line a,
        parseCenterLine line = Some a <->
        exists t0 t1 t2 t3 t4 t5 rest n,
          split_ws line = t0 :: t1 :: t2 :: t3 :: t4 :: t5 :: rest
          /\ py_int t1 = Ok n
          /\ element a = _get_element_symbol n
          /\ py_float t3 = Ok (x a)
          /\ py_float t4 = Ok (y a)
          /\ py_float t5 = Ok (z a)).
Proof.
  split; [ exact parseCenterLine_eq | ].
  intros line a. rewrite parseCenterLine_cases. split.
  - destruct (split_ws line)
      as [ | t0 [ | t1 [ | t2 [ | t3 [ | t4 [ | t5 rest]]]]]];
      try discriminate.
    destruct (py_int t1) as [n | ] eqn:E0; [ | discriminate ].
    destruct (py_float t3) as [x1 | ] eqn:E1; [ | discriminate ].
    destruct (py_float t4) as [y1 | ] eqn:E2; [ | discriminate ].
    destruct (py_float t5) as [z1 | ] eqn:E3; [ | discriminate ].
    intros [= <-]. exists t0, t1, t2, t3, t4, t5, rest, n. now repeat split.
  - intros (t0 & t1 & t2 & t3 & t4 & t5 & rest & n
            & -> & -> & He & -> & -> & ->).
    destruct a as [ea xa ya za]. cbn in *. now subst.
Qed.

(** ** The file type and the dispatch of [extract_coordinates] *)

Lemma rfind_char_absent c s : ~ In c s -> rfind_char c s = None.
Proof.
  induction s as [ | a s IH]; cbn; [ easy | ].
  intros H. rewrite IH by tauto.
  destruct (eqc a c) eqn:E; [ | reflexivity ].
  apply eqc_eq in E. tauto.
Qed.

Lemma rfind_char_last c stem ext :
  ~ In c ext -> rfind_char c (stem ++ c :: ext) = Some (length stem).
Proof.
  intros H. induction stem as [ | a stem IH]; cbn.
  - rewrite rfind_char_absent by exact H. now rewrite eqc_refl.
  - now rewrite IH.
Qed.

Lemma skipn_length_app A (l l' : list A) : skipn (length l) (l ++ l') = l'.
Proof. induction l; cbn; auto. Qed.

Lemma suffix_of_name dir stem ext :
  stem <> [] -> ext <> [] -> ~ In "."%char ext ->
  suffix {| parent := dir; name := stem ++ "." ++ ext |} = "." ++ ext.
Proof.
  intros Hs He Hd. unfold suffix. cbn [name app].
  rewrite rfind_char_last by exact Hd. rewrite length_app. cbn [length].
  destruct stem as [ | a stem]; [ contradiction | ].
  destruct ext as [ | b ext]; [ contradiction | ].
  cbn [length].
  replace (0 <? S (length stem)) with true by (symmetry; apply Nat.ltb_lt; lia).
  replace (S (length stem) <? S (length stem) + S (S (length ext)) - 1)
    with true by (symmetry; apply Nat.ltb_lt; lia).
  cbn [andb].
  exact (skipn_length_app (a :: stem) ("."%char :: b :: ext)).
Qed.

(** X3.  The type of a file named [stem.ext] (a non-empty stem, a
    non-empty extension without a dot) depends on the extension only,
    letter case ignored: [com] is a Gaussian input, [log] a Gaussian
    log, [in] and [out] are MOLPRO files, anything else is unknown.  The
    directory plays no part. *)
Theorem detect_file_type_by_extension (dir : list str) (stem ext : str) :
  stem <> [] -> ext <> [] -> ~ In "."%char ext ->
  _detect_file_type {| parent := dir; name := stem ++ "." ++ ext |} =
  if str_eqb (lower ext) "com" then gaussian_input
  else if str_eqb (lower ext) "log" then gaussian_log
  else if str_eqb (lower ext) "in" || str_eqb (lower ext) "out" then molpro
  else unknown.
Proof.
  intros Hs He Hd.
  unfold _detect_file_type, _is_gaussian_input_file, _is_gaussian_log_file,
    _is_molpro_file.
  rewrite suffix_of_name by assumption.
  change (lower ("." ++ ext)) with ("."%char :: lower ext).
  cbn [existsb str_eqb eqc Ascii.eqb Bool.eqb andb orb].
  now rewrite orb_false_r.
Qed.

Lemma detect_file_type_by_extension_witness :
  "job" <> [] /\ "LOG" <> [] /\ ~ In "."%char "LOG"
  /\ _detect_file_type {| parent := ["runs"]; name := "job.LOG" |}
     = gaussian_log.
Proof.
  assert (H1 : "job" <> []) by discriminate.
  assert (H2 : "LOG" <> []) by discriminate.
  assert (H3 : ~ In "."%char "LOG")
    by (cbn; intros [H | [H | [H | []]]]; discriminate).
  split; [ exact H1 | split; [ exact H2 | split; [ exact H3 | ] ] ].
  exact (@detect_file_type_by_extension ["runs"] "job" "LOG" H1 H2 H3).
Defined.

(** X4.  A file name without a usable extension is of unknown type: a
    name without a dot, a name whose only dot is its first character
    (the hidden file ".log") and a name that ends with a dot. *)
Theorem names_without_extension_are_unknown (dir : list str) (nm : str) :
  ~ In "."%char nm
  \/ (exists ext, nm = "." ++ ext /\ ~ In "."%char ext)
  \/ (exists stem, nm = stem ++ ".") ->
  suffix {| parent := dir; name := nm |} = []
  /\ _detect_file_type {| parent := dir; name := nm |} = unknown.
Proof.
  intros H.
  assert (E : suffix {| parent := dir; name := nm |} = []).
  { unfold suffix. cbn [name].
    destruct H as [H | [(ext & -> & H) | (stem & ->)]].
    - now rewrite rfind_char_absent by exact H.
    - change ("." ++ ext) with ([] ++ "."%char :: ext).
      now rewrite rfind_char_last by exact H.
    - change (stem ++ ".") with (stem ++ "."%char :: []).
      rewrite rfind_char_last by easy.
      rewrite length_app. cbn [length].
      replace (length stem <? length stem + 1 - 1) with false
        by (symmetry; apply Nat.ltb_ge; lia).
      now rewrite andb_false_r. }
  split; [ exact E | ].
  unfold _detect_file_type, _is_gaussian_input_file, _is_gaussian_log_file,
    _is_molpro_file.
  now rewrite E.
Qed.

Lemma names_without_extension_are_unknown_witness :
  (exists ext, ".log" = "." ++ ext /\ ~ In "."%char ext)
  /\ _detect_file_type {| parent := ["runs"]; name := ".log" |} = unknown.
Proof.
  assert (H : exists ext, ".log" = "." ++ ext /\ ~ In "."%char ext).
  { exists "log". split; [ reflexivity | ].
    cbn. intros [H | [H | [H | []]]]; discriminate. }
  split; [ exact H | ].
  exact (proj2 (@names_without_extension_are_unknown ["runs"] ".log"
                  (or_intror (or_introl H)))).
Defined.

(** X5.  [extract_coordinates] returns the empty list, and raises
    nothing, when the file cannot be read, whatever its type, and when
    the type of the file is unknown, whatever its content. *)
Theorem extract_coordinates_unreadable_or_unknown
    (fs : filesystem) (file_path : Path) :
  (exists e, fs file_path = Raise e)
  \/ _detect_file_type file_path = unknown ->
  extract_coordinates fs file_path = Ok [].
Proof.
  unfold extract_coordinates, extract_coordinates_with.
  intros [(e & He) | Hu].
  - unfold _read_file_content, read_text. rewrite He. cbn.
    now destruct (is_FileNotFoundError e).
  - destruct (_read_file_content_total fs file_path) as [[c | ] ->];
      cbn [bind]; [ | reflexivity ].
    now rewrite Hu.
Qed.

Lemma extract_coordinates_unreadable_or_unknown_witness :
  (exists e, (fun _ : Path => @Raise str PermissionError) job_log = Raise e)
  /\ extract_coordinates (fun _ => Raise PermissionError) job_log = Ok []
  /\ _detect_file_type notes_txt = unknown
  /\ extract_coordinates (only_file punch_log) notes_txt = Ok [].
Proof.
  assert (H1 : exists e,
             (fun _ : Path => @Raise str PermissionError) job_log = Raise e)
    by now exists PermissionError.
  assert (H2 : _detect_file_type notes_txt = unknown) by reflexivity.
  split; [ exact H1 | ]. split; [ | split; [ exact H2 | ] ].
  - exact (@extract_coordinates_unreadable_or_unknown
             (fun _ => Raise PermissionError) job_log (or_introl H1)).
  - exact (@extract_coordinates_unreadable_or_unknown
             (only_file punch_log) notes_txt (or_intror H2)).
Defined.

(** X6.  The strategy for a readable Gaussian log.  When the termination
    check fails, or the archive entry yields no coordinate, the result
    is that of the standard orientation; when the check succeeds and the
    archive entry yields coordinates, these are the result.  So the
    result is empty only if the standard orientation yields nothing. *)
Theorem log_strategy (fs : filesystem) (file_path : Path) (data : str) :
  lower (suffix file_path) = ".log" ->
  fs file_path = Ok data ->
  let content := universal_newlines data in
  (_check_normal_termination fs file_path = Ok false
   \/ _extract_from_punch content = Ok [] ->
   extract_coordinates fs file_path =
   _extract_from_standard_orientation content)
  /\ (forall a l,
        _check_normal_termination fs file_path = Ok true ->
        _extract_from_punch content = Ok (a :: l) ->
        extract_coordinates fs file_path = Ok (a :: l))
  /\ (extract_coordinates fs file_path = Ok [] ->
      _extract_from_standard_orientation content = Ok []).
Proof.
  intros Hs Hfs content.
  unfold extract_coordinates, extract_coordinates_with.
  rewrite (_read_file_content_Ok _ _ Hfs), (_detect_file_type_log _ Hs).
  fold content. cbn [bind].
  destruct (_check_normal_termination_total fs file_path) as [b ->].
  destruct (_extract_from_punch_total content) as [found ->].
  cbn [bind].
  split; [ | split ].
  - intros [[= ->] | [= ->]]; [ reflexivity | now destruct b ].
  - now intros a l [= ->] [= ->].
  - destruct b; [ | easy ]. now destruct found.
Qed.

Lemma log_strategy_witness :
  lower (suffix job_log) = ".log"
  /\ only_file two_orientations job_log = Ok two_orientations
  /\ _check_normal_termination (only_file two_orientations) job_log = Ok false
  /\ extract_coordinates (only_file two_orientations) job_log
     = Ok [atom "N" zero zero zero]
  /\ extract_coordinates (only_file unfinished_log) job_log = Ok []
  /\ _extract_from_standard_orientation unfinished_log = Ok [].
Proof.
  assert (Hs : lower (suffix job_log) = ".log") by reflexivity.
  assert (Hc : _check_normal_termination (only_file two_orientations) job_log
               = Ok false) by (vm_compute; reflexivity).
  assert (He : extract_coordinates (only_file unfinished_log) job_log = Ok [])
    by (vm_compute; reflexivity).
  split; [ exact Hs | ]. split; [ reflexivity | ]. split; [ exact Hc | ].
  destruct (@log_strategy (only_file two_orientations) job_log
              two_orientations Hs eq_refl) as (F & _ & _).
  destruct (@log_strategy (only_file unfinished_log) job_log
              unfinished_log Hs eq_refl) as (_ & _ & G).
  split; [ | split; [ exact He | ] ].
  - rewrite (F (or_introl Hc)). vm_compute. reflexivity.
  - exact (G He).
Defined.

(** ** The archive entry *)

Lemma dropwhile_In p s c : In c (dropwhile p s) -> In c s.
Proof.
  induction s as [ | a s IH]; cbn; [ easy | ].
  destruct (p a); [ intros H; right; auto | easy ].
Qed.

Lemma dropwhile_keeps p s c : p c = false -> In c s -> In c (dropwhile p s).
Proof.
  intros Hc. induction s as [ | a s IH]; cbn; [ easy | ].
  destruct (p a) eqn:E; [ | easy ].
  intros [-> | H]; [ congruence | auto ].
Qed.

Lemma strip_In s c : In c (strip s) -> In c s.
Proof.
  unfold strip, lstrip, rstrip. intros H.
  apply dropwhile_In in H. rewrite <- in_rev in H.
  apply dropwhile_In in H. now rewrite <- in_rev in H.
Qed.

Lemma strip_keeps s c : isspace c = false -> In c s -> In c (strip s).
Proof.
  unfold strip, lstrip, rstrip. intros Hc H.
  apply dropwhile_keeps; [ exact Hc | ].
  rewrite <- in_rev.
  apply dropwhile_keeps; [ exact Hc | ]. now rewrite <- in_rev.
Qed.

Lemma contains_char c s : contains [c] s = true <-> In c s.
Proof.
  induction s as [ | a s IH]; cbn; [ easy | ].
  rewrite andb_true_r, orb_true_iff, IH, eqc_eq. split.
  - intros [-> | H]; auto.
  - intros [-> | H]; auto.
Qed.

Lemma In_cons_first c a l ls :
  In l (cons_first a ls) -> In c l ->
  c = a \/ exists l', In l' ls /\ In c l'.
Proof.
  destruct ls as [ | h r]; cbn.
  - intros [<- | []] [-> | []]. now left.
  - intros [<- | H] Hc.
    + destruct Hc as [-> | Hc]; [ now left | right; eauto ].
    + right; eauto.
Qed.

Lemma split_LF_lines s :
  Forall (fun l => ~ In LF l /\ forall c, In c l -> In c s) (split [LF] s).
Proof.
  induction s as [ | a s IH].
  - rewrite split_LF_nil. now repeat constructor.
  - rewrite split_LF_cons. destruct (eqc LF a) eqn:E.
    + constructor; [ easy | ].
      eapply Forall_impl; [ | exact IH ].
      intros l [H1 H2]. split; [ exact H1 | ]. intros c Hc. right. auto.
    + apply Forall_forall. intros l Hl.
      rewrite Forall_forall in IH.
      assert (Ha : LF <> a).
      { intros <-. now rewrite eqc_refl in E. }
      split.
      * intros Hc.
        destruct (@In_cons_first _ _ _ _ Hl Hc) as [Eq | (l' & Hl' & Hc')];
          [ now apply Ha | ].
        now apply (IH _ Hl').
      * intros c Hc.
        destruct (@In_cons_first _ _ _ _ Hl Hc) as [-> | (l' & Hl' & Hc')];
          [ now left | ].
        right. now apply (IH _ Hl').
Qed.

Lemma split_LF_covers s c :
  In c s -> c <> LF -> Exists (fun l => In c l) (split [LF] s).
Proof.
  intros H Hc. induction s as [ | a s IH]; [ easy | ].
  rewrite split_LF_cons. destruct (eqc LF a) eqn:E.
  - apply Exists_cons_tl. apply IH.
    destruct H as [-> | H]; [ | exact H ].
    apply eqc_eq in E. now subst.
  - pose proof (split_LF_not_nil s) as Hn.
    destruct (split [LF] s) as [ | h r]; [ contradiction | ]. cbn.
    destruct H as [-> | H].
    + apply Exists_cons_hd. now left.
    + specialize (IH H). inversion IH; subst.
      * apply Exists_cons_hd. now right.
      * now apply Exists_cons_tl.
Qed.

Lemma BACKSLASH_not_space : isspace BACKSLASH = false.
Proof. reflexivity. Qed.

(** The loop of [_find_punch_string] adds lines to those it has. *)
Lemma punch_scan_extends lines :
  forall punch_lines found,
    exists more,
      punch_scan lines punch_lines found = punch_lines ++ more
      /\ Forall (fun l => l <> [] /\ In BACKSLASH l
                          /\ exists line, In line lines /\ l = strip line)
           more.
Proof.
  induction lines as [ | line rest IH]; intros acc found; cbn [punch_scan].
  - exists []. now rewrite app_nil_r.
  - assert (K : forall (acc' : list str) found',
               exists more,
                 punch_scan rest acc' found' = acc' ++ more
                 /\ Forall (fun l => l <> [] /\ In BACKSLASH l
                                     /\ exists line0,
                                          In line0 (line :: rest)
                                          /\ l = strip line0) more).
    { intros acc' found'. destruct (IH acc' found') as (more & E & F).
      exists more. split; [ exact E | ].
      eapply Forall_impl; [ | exact F ].
      intros l (H1 & H2 & l0 & H3 & H4). repeat split; auto.
      exists l0. split; [ now right | exact H4 ]. }
    assert (Z : exists more : list str,
               acc = acc ++ more
               /\ Forall (fun l => l <> [] /\ In BACKSLASH l
                                   /\ exists line0,
                                        In line0 (line :: rest)
                                        /\ l = strip line0) more).
    { exists []. now rewrite app_nil_r. }
    destruct (strip line) as [ | c t] eqn:Es.
    + destruct found; [ exact Z | apply K ].
    + destruct (contains [BACKSLASH] (c :: t)) eqn:Ec.
      * destruct (K (acc ++ [c :: t]) true) as (more & E & F).
        exists ((c :: t) :: more). split;
          [ etransitivity; [ exact E | now rewrite <- app_assoc ] | ].
        constructor; [ | exact F ].
        split; [ discriminate | ]. split; [ now apply contains_char | ].
        exists line. split; [ now left | now symmetry ].
      * destruct found; [ exact Z | apply K ].
Qed.

Lemma punch_scan_without_backslash lines :
  Forall (fun l => ~ In BACKSLASH l) lines ->
  forall punch_lines, punch_scan lines punch_lines false = punch_lines.
Proof.
  induction 1 as [ | line rest Hl _ IH]; intros acc; cbn [punch_scan];
    [ reflexivity | ].
  destruct (strip line) as [ | c t] eqn:Es; [ apply IH | ].
  destruct (contains [BACKSLASH] (c :: t)) eqn:Ec; [ | apply IH ].
  apply contains_char in Ec. rewrite <- Es in Ec.
  now apply strip_In in Ec.
Qed.

Lemma punch_scan_with_backslash lines :
  Exists (fun l => In BACKSLASH l) lines ->
  punch_scan lines [] false <> [].
Proof.
  induction 1 as [line rest Hl | line rest _ IH]; cbn [punch_scan].
  - apply (@strip_keeps _ _ BACKSLASH_not_space) in Hl.
    destruct (strip line) as [ | c t]; [ easy | ].
    apply contains_char in Hl. rewrite Hl.
    destruct (punch_scan_extends rest ([] ++ [c :: t]) true) as (more & E & _).
    intros Hn.
    assert (X : ([] ++ [c :: t]) ++ more = ([] : list str))
      by (etransitivity; [ symmetry; exact E | exact Hn ]).
    discriminate X.
  - destruct (strip line) as [ | c t]; [ exact IH | ].
    destruct (contains [BACKSLASH] (c :: t)); [ | exact IH ].
    destruct (punch_scan_extends rest ([] ++ [c :: t]) true) as (more & E & _).
    intros Hn.
    assert (X : ([] ++ [c :: t]) ++ more = ([] : list str))
      by (etransitivity; [ symmetry; exact E | exact Hn ]).
    discriminate X.
Qed.

(** X7.  [_find_punch_string] finds an archive entry exactly when the
    marker line occurs in the text and a backslash precedes its first
    occurrence.  The entry found is not empty, contains a backslash,
    holds no newline, and is made of characters of the text before the
    marker. *)
Theorem find_punch_string_spec (content : str) :
  match _find_punch_string content with
  | Some punch_string =>
      (exists i,
         find punch_marker content = Some i
         /\ In BACKSLASH (firstn i content)
         /\ forall c, In c punch_string -> In c (firstn i content))
      /\ punch_string <> []
      /\ In BACKSLASH punch_string
      /\ ~ In LF punch_string
  | None =>
      forall i, find punch_marker content = Some i ->
                ~ In BACKSLASH (firstn i content)
  end.
Proof.
  unfold _find_punch_string.
  destruct (find punch_marker content) as [i | ]; [ | discriminate ].
  set (before := firstn i content).
  pose proof (split_LF_lines (strip before)) as Hlines.
  destruct (punch_scan_extends (rev (split [LF] (strip before))) [] false)
    as (more & E & F).
  cbn [app] in E.
  destruct (punch_scan (rev (split [LF] (strip before))) [] false)
    as [ | l ls] eqn:Es.
  - intros j [= <-] Hb. fold before in Hb.
    assert (Hx : Exists (fun l => In BACKSLASH l)
                   (rev (split [LF] (strip before)))).
    { apply Exists_exists.
      assert (Hs : In BACKSLASH (strip before))
        by now apply strip_keeps.
      apply split_LF_covers in Hs; [ | discriminate ].
      apply Exists_exists in Hs. destruct Hs as (l & Hl & Hc).
      exists l. split; [ now apply in_rev in Hl | exact Hc ]. }
    now apply punch_scan_with_backslash in Hx.
  - subst more.
    assert (G : Forall (fun l0 => l0 <> [] /\ In BACKSLASH l0
                                  /\ ~ In LF l0
                                  /\ forall c, In c l0 -> In c before)
                  (l :: ls)).
    { eapply Forall_impl; [ | exact F ].
      intros l0 (H1 & H2 & line & Hin & ->).
      apply in_rev in Hin. rewrite Forall_forall in Hlines.
      destruct (Hlines _ Hin) as [Hn Hsub].
      repeat split; auto.
      - intros Hc. apply Hn. now apply strip_In.
      - intros c Hc. apply strip_In with (s := before), Hsub.
        now apply strip_In. }
    rewrite Forall_forall in G.
    assert (Hl : In l (rev (l :: ls))) by (apply in_rev; rewrite rev_involutive; now left).
    destruct (G l (or_introl eq_refl)) as (Hne & Hb & _ & Hsub).
    unfold join. repeat split.
    + exists i. split; [ reflexivity | ]. fold before. split.
      * now apply Hsub.
      * intros c Hc. apply in_concat in Hc. destruct Hc as (l0 & Hl0 & Hc).
        apply in_rev in Hl0. now apply (G l0 Hl0).
    + intros Hnil.
      assert (Hc : In BACKSLASH (concat (rev (l :: ls))))
        by (apply in_concat; exists l; split; [ exact Hl | exact Hb ]).
      now rewrite Hnil in Hc.
    + apply in_concat. exists l. split; [ exact Hl | exact Hb ].
    + intros Hc. apply in_concat in Hc. destruct Hc as (l0 & Hl0 & Hc).
      apply in_rev in Hl0. now apply (G l0 Hl0).
Qed.

Lemma punch_entry_atoms entry acc :
  punch_entry entry acc = Ok (acc ++ entry_atoms entry).
Proof.
  rewrite punch_entry_eq. unfold entry_atoms. f_equal.
  destruct entry as [ | c entry]; [ now rewrite app_nil_r | ].
  destruct (split "," (c :: entry))
    as [ | p0 [ | p1 [ | p2 [ | p3 [ | p4 rest]]]]];
    try now rewrite app_nil_r.
  destruct (is_match punch_element_re (strip p0));
    [ | now rewrite app_nil_r ].
  destruct (py_float p1); [ | now rewrite app_nil_r ].
  destruct (py_float p2); [ | now rewrite app_nil_r ].
  destruct (py_float p3); [ | now rewrite app_nil_r ].
  reflexivity.
Qed.

Lemma punch_entries_atoms entries :
  forall acc,
    punch_entries entries acc = Ok (acc ++ flat_map entry_atoms entries).
Proof.
  induction entries as [ | e entries IH]; intros acc; cbn [punch_entries flat_map].
  - now rewrite app_nil_r.
  - rewrite punch_entry_atoms. cbn [bind]. now rewrite IH, app_assoc.
Qed.

Lemma entry_atoms_length entry : length (entry_atoms entry) <= 1.
Proof.
  unfold entry_atoms.
  destruct (split "," entry) as [ | p0 [ | p1 [ | p2 [ | p3 [ | p4 rest]]]]];
    cbn; try lia.
  destruct (is_match punch_element_re (strip p0)); cbn; try lia.
  destruct (py_float p1); cbn; try lia.
  destruct (py_float p2); cbn; try lia.
  destruct (py_float p3); cbn; lia.
Qed.

Lemma _extract_from_punch_eq content :
  _extract_from_punch content =
  Ok match _find_punch_string content with
     | Some punch_string =>
         flat_map entry_atoms (coordinate_entries punch_string)
     | None => []
     end.
Proof.
  unfold _extract_from_punch, coordinate_entries.
  destruct (_find_punch_string content) as [[ | c p] | ]; try reflexivity.
  set (sections := split "\\" (remove_whitespace (c :: p))).
  destruct (length sections <? 4) eqn:El.
  - apply Nat.ltb_lt in El.
    assert (N : nth_error sections 3 = None) by (apply nth_error_None; lia).
    now rewrite N.
  - apply Nat.ltb_ge in El.
    destruct (nth_error sections 3) as [section | ] eqn:N.
    2: { apply nth_error_None in N. lia. }
    apply item_Ok in N. rewrite N. cbn [bind].
    destruct section as [ | a section]; [ reflexivity | ].
    apply punch_entries_atoms.
Qed.

(** X8.  [_extract_from_punch] never raises.  Its result is the
    concatenation, in order, of what each entry of the coordinate
    section contributes by itself: one atom for an entry of four
    comma-separated fields whose first matches the element pattern and
    whose others are accepted by [float], nothing for any other entry.
    A bad entry removes only itself.  There is no result without an
    archive entry or with fewer than four sections. *)
Theorem extract_from_punch_spec :
  (forall content,
     _extract_from_punch content =
     Ok match _find_punch_string content with
        | Some punch_string =>
            flat_map entry_atoms (coordinate_entries punch_string)
        | None => []
        end)
  /\ (forall entries acc,
        punch_entries entries acc = Ok (acc ++ flat_map entry_atoms entries))
  /\ (forall entry, length (entry_atoms entry) <= 1)
  /\ (forall punch_string,
        length (split "\\" (remove_whitespace punch_string)) < 4 ->
        coordinate_entries punch_string = [])
  /\ (forall punch_string,
        length (flat_map entry_atoms (coordinate_entries punch_string))
        <= length (coordinate_entries punch_string)).
Proof.
  split; [ exact _extract_from_punch_eq | ].
  split; [ exact punch_entries_atoms | ].
  split; [ exact entry_atoms_length | ].
  split.
  - intros ps H. unfold coordinate_entries.
    assert (N : nth_error (split "\\" (remove_whitespace ps)) 3 = None)
      by (apply nth_error_None; lia).
    now rewrite N.
  - intros ps. induction (coordinate_entries ps) as [ | e es IH];
      cbn [flat_map length]; [ lia | ].
    rewrite length_app. pose proof (entry_atoms_length e). lia.
Qed.

(** ** Geometry blocks and molecule specifications *)

(** X9.  [_extract_from_molpro_file] returns the coordinates of the
    first geometry block, in the order of the text, that yields at least
    one; it returns nothing exactly when no block yields any, and in
    particular when the text has no geometry block. *)
Theorem molpro_first_yielding_block_or_nothing (content : str) :
  let blocks := finditer geom_block_pattern content in
  (exists before m rest,
     blocks = before ++ m :: rest
     /\ Forall (fun b => block_coordinates b = []) before
     /\ block_coordinates m <> []
     /\ _extract_from_molpro_file content = Ok (block_coordinates m))
  \/ (Forall (fun b => block_coordinates b = []) blocks
      /\ _extract_from_molpro_file content = Ok []).
Proof.
  unfold _extract_from_molpro_file.
  induction (finditer geom_block_pattern content) as [ | m blocks IH];
    cbn zeta.
  - right. split; [ constructor | reflexivity ].
  - rewrite molpro_blocks_loop_cons.
    destruct (block_coordinates m) as [ | a l] eqn:Em.
    + destruct IH as [(before & m' & rest & -> & Hb & Hm & E) | [Hall E]].
      * left. exists (m :: before), m', rest.
        split; [ reflexivity | ]. split; [ now constructor | ].
        split; [ exact Hm | exact E ].
      * right. split; [ now constructor | exact E ].
    + left. exists [], m, blocks. rewrite Em.
      split; [ reflexivity | ]. split; [ constructor | ].
      split; [ discriminate | reflexivity ].
Qed.

Lemma _extract_from_input_file_eq content :
  _extract_from_input_file content =
  Ok match lines_after_charge_multiplicity (split [LF] content) with
     | None => []
     | Some rest => leading_matches rest
     end.
Proof.
  unfold _extract_from_input_file.
  pose proof (find_charge_multiplicity_eq (split [LF] content) 0) as H.
  destruct (find_charge_multiplicity (split [LF] content) 0) as [j | ].
  - destruct H as [Hj ->]. rewrite Nat.sub_0_r.
    destruct (Nat.le_gt_cases j (length (split [LF] content))) as [Hle | Hgt].
    + rewrite input_loop_eq by lia. reflexivity.
    + replace (length (split [LF] content) - j) with 0 by lia.
      rewrite skipn_all2 by lia. reflexivity.
  - now rewrite H.
Qed.

Lemma cons_first_app c l l' :
  l <> [] -> cons_first c (l ++ l') = cons_first c l ++ l'.
Proof. destruct l; [ contradiction | reflexivity ]. Qed.

(** A newline cuts the list of lines in two. *)
Lemma split_LF_app a t :
  split [LF] (a ++ LF :: t) = split [LF] a ++ split [LF] t.
Proof.
  induction a as [ | c a IH]; cbn [app].
  - now rewrite split_LF_cons, eqc_refl, split_LF_nil.
  - rewrite !split_LF_cons, IH. destruct (eqc LF c); [ reflexivity | ].
    apply cons_first_app, split_LF_not_nil.
Qed.

Lemma split_LF_first_blank w t :
  forallb isspace w = true ->
  exists l ls, split [LF] (w ++ LF :: t) = l :: ls /\ is_blank l = true.
Proof.
  induction w as [ | c w IH]; intros Hw; cbn [app].
  - rewrite split_LF_cons, eqc_refl. now exists [], (split [LF] t).
  - cbn in Hw. apply andb_true_iff in Hw as [Hc Hw].
    destruct (IH Hw) as (l & ls & E & Hl).
    rewrite split_LF_cons, E. destruct (eqc LF c).
    + now exists [], (l :: ls).
    + exists (c :: l), ls. split; [ reflexivity | ].
      rewrite is_blank_forallb in *. cbn. now rewrite Hc.
Qed.

Lemma lines_after_charge_multiplicity_app lines more :
  lines_after_charge_multiplicity lines <> None ->
  lines_after_charge_multiplicity (lines ++ more) =
  option_map (fun rest => rest ++ more)
    (lines_after_charge_multiplicity lines).
Proof.
  induction lines as [ | l lines IH]; cbn; [ easy | ].
  destruct (looksLikeChargeMultiplicity l); [ reflexivity | exact IH ].
Qed.

Lemma leading_matches_until_blank lines l more :
  is_blank l = true ->
  leading_matches (lines ++ l :: more) = leading_matches lines.
Proof.
  intros Hl. induction lines as [ | a lines IH]; cbn.
  - now rewrite Hl.
  - destruct (is_blank a); [ reflexivity | ].
    destruct (parseElementLine a); [ now rewrite IH | reflexivity ].
Qed.

(** X10.  [_extract_from_input_file] reads one block of atoms only: once
    the text up to some line holds a charge and multiplicity line, a
    blank line after it ends the reading and nothing that follows the
    blank line, a second molecule specification included, changes the
    result. *)
Theorem input_file_reads_first_block_only (a blank b : str) :
  lines_after_charge_multiplicity (split [LF] a) <> None ->
  forallb isspace blank = true ->
  _extract_from_input_file (a ++ [LF] ++ blank ++ [LF] ++ b) =
  _extract_from_input_file a.
Proof.
  intros Ha Hw. rewrite !_extract_from_input_file_eq. cbn [app].
  rewrite split_LF_app.
  destruct (@split_LF_first_blank blank b Hw) as (l & ls & -> & Hl).
  rewrite lines_after_charge_multiplicity_app by exact Ha.
  destruct (lines_after_charge_multiplicity (split [LF] a)) as [rest | ];
    [ | contradiction ].
  cbn [option_map]. now rewrite leading_matches_until_blank.
Qed.

Lemma input_file_reads_first_block_only_witness :
  lines_after_charge_multiplicity (split [LF] first_molecule) <> None
  /\ forallb isspace [] = true
  /\ _extract_from_input_file
       (first_molecule ++ [LF] ++ [] ++ [LF] ++ second_molecule)
     = Ok carbon_hydrogen.
Proof.
  assert (Ha : lines_after_charge_multiplicity (split [LF] first_molecule)
               <> None) by (vm_compute; discriminate).
  split; [ exact Ha | ]. split; [ reflexivity | ].
  rewrite (@input_file_reads_first_block_only first_molecule []
             second_molecule Ha eq_refl).
  vm_compute. reflexivity.
Defined.

Lemma split_ws_go_token t :
  forallb no_space t = true ->
  forall cur rest,
    split_ws_go cur (t ++ rest) = split_ws_go (rev t ++ cur) rest.
Proof.
  induction t as [ | c t IH]; intros Ht cur rest; [ reflexivity | ].
  cbn in Ht. apply andb_true_iff in Ht as [Hc Ht].
  unfold no_space in Hc. apply negb_true_iff in Hc.
  cbn [app split_ws_go rev]. rewrite Hc, (IH Ht), <- app_assoc.
  reflexivity.
Qed.

Lemma split_ws_go_space cur c rest :
  cur <> [] -> isspace c = true ->
  split_ws_go cur (c :: rest) = rev cur :: split_ws_go [] rest.
Proof. intros Hn Hc. cbn. rewrite Hc. now destruct cur. Qed.

Lemma split_ws_go_one_token t :
  t <> [] -> forallb no_space t = true -> split_ws_go [] t = [t].
Proof.
  intros N H. pose proof (split_ws_go_token t H [] []) as E.
  rewrite !app_nil_r in E. rewrite E. cbn.
  destruct (rev t) eqn:Er.
  - apply (f_equal (@rev ascii)) in Er. rewrite rev_involutive in Er.
    contradiction.
  - now rewrite <- Er, rev_involutive.
Qed.

(** The tokens of two words separated by whitespace. *)
Lemma split_ws_two_tokens t1 w t2 :
  t1 <> [] -> forallb no_space t1 = true ->
  run_of isspace w ->
  t2 <> [] -> forallb no_space t2 = true ->
  split_ws (t1 ++ w ++ t2) = [t1; t2].
Proof.
  intros N1 H1 [Nw Hw] N2 H2. unfold split_ws.
  rewrite split_ws_go_token by exact H1. rewrite app_nil_r.
  destruct w as [ | c w]; [ contradiction | ].
  cbn in Hw. apply andb_true_iff in Hw as [Hc Hw].
  cbn [app]. rewrite split_ws_go_space; [ | | exact Hc ].
  2: { intros E. apply (f_equal (@rev ascii)) in E.
       rewrite rev_involutive in E. contradiction. }
  rewrite rev_involutive, split_ws_spaces_app by exact Hw.
  now rewrite split_ws_go_one_token.
Qed.

Lemma signed_digits_token s d :
  optional_sign s -> run_of isdigit d ->
  s ++ d <> [] /\ forallb no_space (s ++ d) = true.
Proof.
  intros Hs [Nd Hd]. split.
  - destruct s; [ exact Nd | discriminate ].
  - rewrite forallb_app. apply andb_true_iff. split.
    + destruct Hs as [-> | [-> | ->]]; reflexivity.
    + rewrite forallb_forall in *. intros c Hc. specialize (Hd c Hc).
      unfold no_space, isspace, isdigit, in_range in *.
      apply andb_true_iff in Hd as [H1 H2].
      apply Nat.leb_le in H1, H2.
      apply negb_true_iff, orb_false_iff. split;
        apply andb_false_iff; right; apply Nat.leb_gt; lia.
Qed.

(** X11.  A charge and multiplicity line is never read as an atom: it
    has exactly two tokens, so neither line parser returns a match for
    it, and such a line after the atoms of a Gaussian input ends the
    block. *)
Theorem charge_multiplicity_line_is_no_atom (line : str) :
  looksLikeChargeMultiplicity line = true ->
  length (split_ws line) = 2
  /\ parseElementLine line = None
  /\ parseCenterLine line = None
  /\ forall rest, leading_matches (line :: rest) = [].
Proof.
  intros H. apply looksLikeChargeMultiplicity_spec in H.
  destruct H as (s1 & d1 & w & s2 & d2 & E & Hs1 & Hd1 & Hw & Hs2 & Hd2).
  destruct (signed_digits_token Hs1 Hd1) as [N1 T1].
  destruct (signed_digits_token Hs2 Hd2) as [N2 T2].
  assert (Et : split_ws line = [s1 ++ d1; s2 ++ d2]).
  { rewrite <- split_ws_strip, E.
    replace (s1 ++ d1 ++ w ++ s2 ++ d2) with ((s1 ++ d1) ++ w ++ s2 ++ d2)
      by now rewrite <- app_assoc.
    now apply split_ws_two_tokens. }
  assert (Ep : parseElementLine line = None)
    by now rewrite parseElementLine_cases, Et.
  split; [ now rewrite Et | ]. split; [ exact Ep | ].
  split; [ now rewrite parseCenterLine_cases, Et | ].
  intros rest. cbn. rewrite Ep. now destruct (is_blank line).
Qed.

Lemma charge_multiplicity_line_is_no_atom_witness :
  looksLikeChargeMultiplicity " 0 1 " = true
  /\ parseElementLine " 0 1 " = None.
Proof.
  assert (H : looksLikeChargeMultiplicity " 0 1 " = true)
    by (vm_compute; reflexivity).
  split; [ exact H | ].
  exact (proj1 (proj2 (@charge_multiplicity_line_is_no_atom " 0 1 " H))).
Defined.

(** ** The element symbols of a result *)

Lemma parseElementLine_letters line a :
  parseElementLine line = Some a -> run_of isalpha (element a).
Proof.
  rewrite parseElementLine_cases.
  pose proof (split_ws_tokens line) as Ht.
  destruct (split_ws line) as [ | t0 [ | t1 [ | t2 [ | t3 rest]]]];
    try discriminate.
  apply Forall_inv in Ht. destruct Ht as [_ Ht].
  destruct (is_match alpha_re t0) eqn:Hm; [ | discriminate ].
  destruct (py_float t1); [ | discriminate ].
  destruct (py_float t2); [ | discriminate ].
  destruct (py_float t3); [ | discriminate ].
  intros [= <-]. cbn. now apply is_match_alpha_re_token.
Qed.

Lemma parseCenterLine_symbol line a :
  parseCenterLine line = Some a ->
  exists n, element a = _get_element_symbol n.
Proof.
  rewrite parseCenterLine_cases.
  destruct (split_ws line)
    as [ | t0 [ | t1 [ | t2 [ | t3 [ | t4 [ | t5 rest]]]]]];
    try discriminate.
  destruct (py_int t1) as [n | ]; [ | discriminate ].
  destruct (py_float t3); [ | discriminate ].
  destruct (py_float t4); [ | discriminate ].
  destruct (py_float t5); [ | discriminate ].
  intros [= <-]. now exists n.
Qed.

Lemma successes_Forall parse (P : AtomCoordinate -> Prop) lines :
  (forall l a, parse l = Some a -> P a) ->
  Forall P (successes parse lines).
Proof.
  intros H. unfold successes. apply Forall_flat_map, Forall_forall.
  intros l _. destruct (parse l) eqn:E; [ | constructor ].
  constructor; [ now apply (H l) | constructor ].
Qed.

Lemma leading_matches_letters lines :
  Forall (fun a => run_of isalpha (element a)) (leading_matches lines).
Proof.
  induction lines as [ | l lines IH]; cbn; [ constructor | ].
  destruct (is_blank l); [ constructor | ].
  destruct (parseElementLine l) eqn:E; [ | constructor ].
  constructor; [ now apply (parseElementLine_letters l) | exact IH ].
Qed.

Lemma molpro_blocks_loop_letters blocks :
  exists l,
    molpro_blocks_loop blocks = Ok l
    /\ Forall (fun a => run_of isalpha (element a)) l.
Proof.
  induction blocks as [ | m blocks IH].
  - exists []. split; [ reflexivity | constructor ].
  - rewrite molpro_blocks_loop_cons.
    destruct (block_coordinates m) as [ | a l] eqn:E; [ exact IH | ].
    exists (a :: l). split; [ reflexivity | ]. rewrite <- E.
    apply successes_Forall. exact parseElementLine_letters.
Qed.

Lemma _extract_from_standard_orientation_eq content :
  _extract_from_standard_orientation content =
  Ok match text_after_last_occurrence content with
     | None => []
     | Some text =>
         successes parseCenterLine (data_zone_lines 0 (split [LF] text))
     end.
Proof.
  unfold _extract_from_standard_orientation, text_after_last_occurrence.
  destruct (finditer standard_orientation_re content) as [ | m ms];
    [ reflexivity | ].
  cbn [last_error option_map]. now rewrite standard_orientation_loop_eq.
Qed.

Lemma is_match_punch_element_re_stripped p0 :
  is_match punch_element_re (strip p0) = true -> tagged_symbol (strip p0).
Proof.
  rewrite is_match_rel. unfold punch_element_re. intros (s' & H).
  apply rel_Cat_iff in H as (m & H1 & H2).
  apply rel_Plus_Chr in H1 as (d & Hd & E).
  apply rel_Cat_iff in H2 as (m2 & H2 & H3).
  apply rel_Dollar_iff in H3 as [-> Hend].
  assert (Hm2 : forall Y, strip p0 = Y ++ m2 -> m2 = []).
  { intros Y EY. destruct Hend as [-> | ->]; [ reflexivity | ].
    now apply strip_last_not_space in EY. }
  exists d. split; [ exact Hd | ].
  apply rel_Opt_iff in H2 as [H2 | ->].
  - apply rel_Cat_iff in H2 as (m1 & H2 & H4).
    apply rel_Chr_iff in H2 as (c & -> & Hc). apply eqc_eq in Hc. subst c.
    apply rel_Plus_Chr in H4 as (t & Ht & ->).
    right. exists t. split; [ exact Ht | ].
    rewrite E. cbn [app].
    rewrite (Hm2 (d ++ "-"%char :: t)); [ now rewrite app_nil_r | ].
    rewrite E. now rewrite <- app_assoc.
  - left. rewrite E at 1. rewrite (Hm2 d E). now rewrite app_nil_r.
Qed.

Lemma entry_atoms_tagged entry :
  Forall (fun a => tagged_symbol (element a)) (entry_atoms entry).
Proof.
  unfold entry_atoms.
  destruct (split "," entry) as [ | p0 [ | p1 [ | p2 [ | p3 [ | p4 rest]]]]];
    try constructor.
  destruct (is_match punch_element_re (strip p0)) eqn:Hm; [ | constructor ].
  destruct (py_float p1); [ | constructor ].
  destruct (py_float p2); [ | constructor ].
  destruct (py_float p3); constructor; [ | constructor ].
  now apply is_match_punch_element_re_stripped.
Qed.

Lemma _extract_from_input_file_letters content :
  exists l, _extract_from_input_file content = Ok l
            /\ Forall (fun a => run_of isalpha (element a)) l.
Proof.
  rewrite _extract_from_input_file_eq. eexists. split; [ reflexivity | ].
  destruct (lines_after_charge_multiplicity (split [LF] content));
    [ apply leading_matches_letters | constructor ].
Qed.

Lemma _extract_from_standard_orientation_symbols content :
  exists l, _extract_from_standard_orientation content = Ok l
            /\ Forall (fun a => exists n : Z,
                                  element a = _get_element_symbol n) l.
Proof.
  rewrite _extract_from_standard_orientation_eq.
  eexists. split; [ reflexivity | ].
  destruct (text_after_last_occurrence content); [ | constructor ].
  apply successes_Forall. exact parseCenterLine_symbol.
Qed.

Lemma _extract_from_punch_tagged content :
  exists l, _extract_from_punch content = Ok l
            /\ Forall (fun a => tagged_symbol (element a)) l.
Proof.
  rewrite _extract_from_punch_eq. eexists. split; [ reflexivity | ].
  destruct (_find_punch_string content); [ | constructor ].
  apply Forall_flat_map, Forall_forall. intros e _.
  apply entry_atoms_tagged.
Qed.

(** X12.  What each strategy puts in the element field, for every text.
    A Gaussian input and a MOLPRO file give non-empty words of letters;
    the standard orientation gives symbols of integer atomic numbers;
    the archive entry gives letters, possibly followed by a hyphen and
    letters or digits. *)
Theorem elements_by_strategy (content : str) :
  (exists l, _extract_from_input_file content = Ok l
             /\ Forall (fun a => run_of isalpha (element a)) l)
  /\ (exists l, _extract_from_molpro_file content = Ok l
                /\ Forall (fun a => run_of isalpha (element a)) l)
  /\ (exists l, _extract_from_standard_orientation content = Ok l
                /\ Forall (fun a => exists n : Z,
                                      element a = _get_element_symbol n) l)
  /\ (exists l, _extract_from_punch content = Ok l
                /\ Forall (fun a => tagged_symbol (element a)) l).
Proof.
  split; [ apply _extract_from_input_file_letters | ].
  split; [ apply molpro_blocks_loop_letters | ].
  split; [ apply _extract_from_standard_orientation_symbols | ].
  apply _extract_from_punch_tagged.
Qed.

Lemma run_symbol_chars p s :
  (forall c, p c = true -> symbol_char c = true) ->
  run_of p s -> s <> [] /\ forallb symbol_char s = true.
Proof.
  intros Hp [Hn Hs]. split; [ exact Hn | ].
  rewrite forallb_forall in *. auto.
Qed.

Lemma tagged_symbol_chars s :
  tagged_symbol s -> s <> [] /\ forallb symbol_char s = true.
Proof.
  intros (d & Hd & [-> | (t & Ht & ->)]).
  - exact (run_symbol_chars isalpha_symbol_char Hd).
  - destruct (run_symbol_chars isalpha_symbol_char Hd) as [Hn Hs].
    destruct (run_symbol_chars isalnum_symbol_char Ht) as [_ Hs'].
    split; [ now destruct d | ].
    rewrite !forallb_app, Hs, Hs'. reflexivity.
Qed.

Lemma _get_element_symbol_chars n :
  _get_element_symbol n <> []
  /\ forallb symbol_char (_get_element_symbol n) = true.
Proof.
  destruct (Z_le_dec 1 n) as [H1 | H1];
    [ destruct (Z_le_dec n 118) as [H2 | H2] | ];
    try (rewrite _get_element_symbol_unknown by lia;
         apply py_str_int_symbol_chars).
  destruct (_get_element_symbol_known (conj H1 H2)) as (_ & Hr & _).
  exact (run_symbol_chars isalpha_symbol_char Hr).
Qed.

(** X13.  Whatever the file and its type, [extract_coordinates] returns
    atoms whose element is a non-empty word of letters, digits and
    hyphens: no element is empty and none contains a space, a comma or a
    backslash. *)
Theorem extracted_elements_are_words (fs : filesystem) (file_path : Path) :
  exists coordinates,
    extract_coordinates fs file_path = Ok coordinates
    /\ Forall (fun a => element a <> []
                        /\ forallb symbol_char (element a) = true)
         coordinates.
Proof.
  unfold extract_coordinates, extract_coordinates_with.
  destruct (_read_file_content_total fs file_path) as [[content | ] ->];
    cbn [bind]; [ | exists []; split; [ reflexivity | constructor ] ].
  pose proof (_extract_from_input_file_letters content) as Hi.
  pose proof (molpro_blocks_loop_letters
                (finditer geom_block_pattern content)) as Hm.
  fold (_extract_from_molpro_file content) in Hm.
  pose proof (_extract_from_standard_orientation_symbols content) as Hs.
  pose proof (_extract_from_punch_tagged content) as Hp.
  destruct (_detect_file_type file_path).
  - destruct Hi as (l & -> & F). exists l. split; [ reflexivity | ].
    eapply Forall_impl; [ | exact F ]. intros a.
    exact (run_symbol_chars isalpha_symbol_char).
  - destruct (_check_normal_termination_total fs file_path) as [b ->].
    cbn [bind].
    assert (S : exists l, _extract_from_standard_orientation content = Ok l
                          /\ Forall (fun a => element a <> []
                                              /\ forallb symbol_char
                                                   (element a) = true) l).
    { destruct Hs as (l & -> & F). exists l. split; [ reflexivity | ].
      eapply Forall_impl; [ | exact F ]. intros a (n & ->).
      apply _get_element_symbol_chars. }
    destruct b; [ | exact S ].
    destruct Hp as (l & -> & F). cbn [bind].
    destruct l as [ | a l]; [ exact S | ].
    exists (a :: l). split; [ reflexivity | ].
    eapply Forall_impl; [ | exact F ]. intros a0.
    exact (@tagged_symbol_chars _).
  - destruct Hm as (l & -> & F). exists l. split; [ reflexivity | ].
    eapply Forall_impl; [ | exact F ]. intros a.
    exact (run_symbol_chars isalpha_symbol_char).
  - exists []. split; [ reflexivity | constructor ].
Qed.

(** ** The formula *)

Lemma count_atoms_tally_all coordinates :
  tally_of (count_atoms coordinates []) coordinates.
Proof.
  apply (@count_atoms_tally coordinates [] []).
  split; [ constructor | ].
  split; [ reflexivity | ].
  intros e. split; [ intros [] | intros H; cbn in H; lia ].
Qed.

Lemma generate_formula_eq coordinates :
  generate_formula coordinates =
  join (map (fun e => e ++ count_suffix (count_symbol e coordinates))
          (sorted (keys (count_atoms coordinates [])))).
Proof.
  destruct (count_atoms_tally_all coordinates) as (_ & Hget & _).
  destruct coordinates as [ | c rest]; [ reflexivity | ].
  unfold generate_formula. f_equal. apply map_ext. intros e.
  now rewrite Hget.
Qed.

Lemma hill_lt_irrefl a : ~ hill_lt a a.
Proof.
  unfold hill_lt.
  destruct (str_eqb a "C") eqn:EC.
  - apply str_eqb_eq in EC. now intros H.
  - destruct (str_eqb a "H") eqn:EH.
    + apply str_eqb_eq in EH. now intros [_ H].
    + rewrite str_ltb_irrefl. now intros (_ & _ & H).
Qed.

(** A list sorted by a strict order is determined by its members. *)
Lemma StronglySorted_unique l1 :
  forall l2,
    StronglySorted hill_lt l1 -> StronglySorted hill_lt l2 ->
    (forall e, In e l1 <-> In e l2) -> l1 = l2.
Proof.
  induction l1 as [ | a l1 IH]; intros l2 S1 S2 H.
  - destruct l2 as [ | b l2]; [ reflexivity | ].
    exfalso. apply (H b). now left.
  - destruct l2 as [ | b l2]; [ exfalso; apply (H a); now left | ].
    apply StronglySorted_inv in S1 as [S1 F1].
    apply StronglySorted_inv in S2 as [S2 F2].
    rewrite Forall_forall in F1, F2.
    assert (E : a = b).
    { destruct (proj1 (H a) (or_introl eq_refl)) as [E | Ha];
        [ now symmetry | ].
      destruct (proj2 (H b) (or_introl eq_refl)) as [E | Hb];
        [ exact E | ].
      exfalso. apply (@hill_lt_irrefl a).
      apply hill_lt_trans with b; auto. }
    subst b. f_equal. apply IH; [ exact S1 | exact S2 | ].
    intros e. split; intros He.
    + destruct (proj1 (H e) (or_intror He)) as [<- | He']; [ | exact He' ].
      exfalso. apply (@hill_lt_irrefl a). auto.
    + destruct (proj2 (H e) (or_intror He)) as [<- | He']; [ | exact He' ].
      exfalso. apply (@hill_lt_irrefl a). auto.
Qed.

Lemma count_symbol_map sym coordinates :
  count_symbol sym coordinates =
  length (filter (fun s => str_eqb (normalize_symbol s) sym)
            (map element coordinates)).
Proof.
  unfold count_symbol. induction coordinates as [ | c rest IH]; cbn;
    [ reflexivity | ].
  destruct (str_eqb (normalize_symbol (element c)) sym); cbn; now rewrite IH.
Qed.

Lemma filter_length_Permutation A (f : A -> bool) l l' :
  Permutation l l' -> length (filter f l) = length (filter f l').
Proof.
  induction 1 as [ | a l l' _ IH | a b l | l l' l'' _ IH1 _ IH2]; cbn.
  - reflexivity.
  - destruct (f a); cbn; now rewrite IH.
  - destruct (f a), (f b); reflexivity.
  - now rewrite IH1.
Qed.

(** X14.  The formula depends on the elements of the atoms only, not on
    their order and not on their positions: two lists whose element
    fields are the same up to order have the same formula. *)
Theorem formula_ignores_order_and_positions
    (coordinates coordinates' : list AtomCoordinate) :
  Permutation (map element coordinates) (map element coordinates') ->
  generate_formula coordinates = generate_formula coordinates'.
Proof.
  intros HP.
  assert (Hc : forall e,
             count_symbol e coordinates = count_symbol e coordinates').
  { intros e. rewrite !count_symbol_map.
    now apply filter_length_Permutation. }
  rewrite !generate_formula_eq.
  destruct (count_atoms_tally_all coordinates) as (N1 & _ & I1).
  destruct (count_atoms_tally_all coordinates') as (N2 & _ & I2).
  assert (E : sorted (keys (count_atoms coordinates [])) =
              sorted (keys (count_atoms coordinates' []))).
  { apply StronglySorted_unique; try now apply sorted_sorted.
    intros e.
    pose proof (sorted_perm (keys (count_atoms coordinates []))) as P1.
    pose proof (sorted_perm (keys (count_atoms coordinates' []))) as P2.
    split; intros He.
    - apply (Permutation_in _ (Permutation_sym P2)), I2.
      rewrite <- Hc. now apply I1, (Permutation_in _ P1).
    - apply (Permutation_in _ (Permutation_sym P1)), I1.
      rewrite Hc. now apply I2, (Permutation_in _ P2). }
  rewrite E. f_equal. apply map_ext. intros e. now rewrite Hc.
Qed.

Lemma formula_ignores_order_and_positions_witness :
  Permutation (map element [atom "H" one one one; atom "C" zero zero zero])
    (map element carbon_hydrogen)
  /\ generate_formula [atom "H" one one one; atom "C" zero zero zero]
     = generate_formula carbon_hydrogen.
Proof.
  assert (H : Permutation
                (map element [atom "H" one one one; atom "C" zero zero zero])
                (map element carbon_hydrogen)) by apply perm_swap.
  split; [ exact H | ].
  exact (@formula_ignores_order_and_positions _ _ H).
Defined.

Lemma total_count_dict_set d k :
  total_count (dict_set d k (dict_get d k 0 + 1)) = total_count d + 1.
Proof.
  unfold total_count, list_sum. induction d as [ | [k' v'] d IH]; cbn;
    [ reflexivity | ].
  destruct (str_eqb k' k); cbn; [ lia | ]. rewrite IH. lia.
Qed.

Lemma total_count_count_atoms coordinates :
  forall d,
    total_count (count_atoms coordinates d) =
    total_count d + length coordinates.
Proof.
  induction coordinates as [ | c rest IH]; intros d; cbn [count_atoms length].
  - lia.
  - rewrite IH, total_count_dict_set. lia.
Qed.

Lemma dict_get_In d k v :
  NoDup (keys d) -> In (k, v) d -> dict_get d k 0 = v.
Proof.
  induction d as [ | [k' v'] d IH]; cbn; [ easy | ].
  intros Hnd [[= -> ->] | Hin].
  - now rewrite str_eqb_refl.
  - apply NoDup_cons_iff in Hnd as [Hk Hnd].
    destruct (str_eqb k' k) eqn:E; [ | now apply IH ].
    apply str_eqb_eq in E. subst k'. exfalso. apply Hk.
    apply in_map_iff. now exists (k, v).
Qed.

(** X15.  The counting loop of [generate_formula] loses no atom and
    invents none: the counts of the dictionary add up to the number of
    atoms, no symbol is recorded twice, and every recorded count is at
    least 1. *)
Theorem formula_counts_add_up (coordinates : list AtomCoordinate) :
  let atom_count := count_atoms coordinates [] in
  total_count atom_count = length coordinates
  /\ NoDup (keys atom_count)
  /\ Forall (fun kv => 1 <= snd kv) atom_count.
Proof.
  cbn zeta. split; [ now rewrite total_count_count_atoms | ].
  destruct (count_atoms_tally_all coordinates) as (Hnd & Hget & Hin).
  split; [ exact Hnd | ].
  apply Forall_forall. intros [k v] Hkv. cbn [snd].
  rewrite <- (dict_get_In _ _ _ Hnd Hkv), Hget.
  apply Hin. apply in_map_iff. now exists (k, v).
Qed.

(** ** The text before the last standard orientation *)

Lemma lower_app a b : lower (a ++ b) = lower a ++ lower b.
Proof. apply map_app. Qed.

(** A phrase ends with its colon and has no other. *)
Lemma is_phrase_colon phrase :
  is_phrase phrase ->
  exists body c,
    phrase = body ++ [c]
    /\ lower_char c = ":"%char
    /\ ~ In ":"%char (lower body).
Proof.
  intros (w & [_ Hw] & E).
  destruct (exists_last (l := phrase)) as (body & c & ->).
  { intros ->. discriminate E. }
  exists body, c. split; [ reflexivity | ].
  rewrite lower_app in E.
  change ("standard" ++ w ++ "orientation:")
    with ("standard" ++ w ++ "orientation" ++ [":"%char]) in E.
  rewrite !app_assoc in E. apply app_inj_tail in E as [E Ec].
  split; [ exact Ec | ].
  rewrite E. intros H.
  apply in_app_or in H as [H | H].
  - apply in_app_or in H as [H | H].
    + cbn in H. repeat destruct H as [H | H]; try discriminate H; easy.
    + rewrite forallb_forall in Hw. specialize (Hw _ H). discriminate.
  - cbn in H. repeat destruct H as [H | H]; try discriminate H; easy.
Qed.

(** Two occurrences of the phrase do not overlap: an occurrence that
    ends inside another one would put its colon there. *)
Lemma phrases_do_not_overlap ph ph' b b' l e :
  is_phrase ph -> is_phrase ph' ->
  b ++ ph = b' ++ l -> ph' = l ++ e -> l <> [] -> e <> [] -> False.
Proof.
  intros Hp Hp' E E' Hl He.
  destruct (is_phrase_colon Hp) as (body & c & -> & Hc & _).
  destruct (is_phrase_colon Hp') as (body' & c' & -> & _ & Hn).
  destruct (exists_last Hl) as (l0 & cl & ->).
  destruct (exists_last He) as (e0 & ce & ->).
  rewrite !app_assoc in E. apply app_inj_tail in E as [_ <-].
  replace ((l0 ++ [c]) ++ e0 ++ [ce]) with ((l0 ++ c :: e0) ++ [ce]) in E'
    by (rewrite <- !app_assoc; reflexivity).
  apply app_inj_tail in E' as [-> _].
  apply Hn. rewrite lower_app. apply in_or_app. right. cbn.
  left. exact Hc.
Qed.

(** An occurrence that ends after another one starts after it. *)
Lemma later_occurrence ph ph' b b' e :
  is_phrase ph -> is_phrase ph' ->
  (b ++ ph) ++ e = b' ++ ph' -> e <> [] ->
  exists e1, e = e1 ++ ph'.
Proof.
  intros Hp Hp' E He.
  apply app_eq_app in E as (l & [[E1 E2] | [E1 E2]]).
  - destruct l as [ | a l]; [ exists []; now rewrite E2 | ].
    exfalso.
    apply (@phrases_do_not_overlap ph ph' b b' (a :: l) e Hp Hp');
      [ exact E1 | exact E2 | discriminate | exact He ].
  - now exists l.
Qed.

Lemma last_occurrence_unique before phrase text before' phrase' text' :
  is_phrase phrase -> no_occurrence text ->
  is_phrase phrase' -> no_occurrence text' ->
  before ++ phrase ++ text = before' ++ phrase' ++ text' ->
  text = text'.
Proof.
  intros Hp Hn Hp' Hn' E.
  rewrite !app_assoc in E.
  apply app_eq_app in E as (l & [[E1 E2] | [E1 E2]]).
  - destruct l as [ | a l]; [ now rewrite E2 | ]. exfalso.
    symmetry in E1.
    destruct (@later_occurrence phrase' phrase before' before (a :: l)
                Hp' Hp E1) as (e1 & E3); [ discriminate | ].
    apply (Hn' e1 phrase text); [ | exact Hp ].
    now rewrite E2, E3, <- app_assoc.
  - destruct l as [ | a l]; [ now rewrite E2 | ]. exfalso.
    symmetry in E1.
    destruct (@later_occurrence phrase phrase' before before' (a :: l)
                Hp Hp' E1) as (e1 & E3); [ discriminate | ].
    apply (Hn e1 phrase' text'); [ | exact Hp' ].
    now rewrite E2, E3, <- app_assoc.
Qed.

(** X16.  The standard orientation strategy reads nothing before the
    last occurrence of the phrase: if a text ends with the phrase and a
    tail free of the phrase, the result is that of the tail, whatever
    stands before, earlier standard orientation sections included. *)
Theorem standard_orientation_ignores_earlier_text
    (before phrase text : str) :
  is_phrase phrase -> no_occurrence text ->
  _extract_from_standard_orientation (before ++ phrase ++ text)
  = Ok (successes parseCenterLine (data_zone_lines 0 (split [LF] text)))
  /\ _extract_from_standard_orientation (before ++ phrase ++ text)
     = _extract_from_standard_orientation (phrase ++ text).
Proof.
  intros Hp Hn.
  assert (K : forall b,
             _extract_from_standard_orientation (b ++ phrase ++ text)
             = Ok (successes parseCenterLine
                     (data_zone_lines 0 (split [LF] text)))).
  { intros b. rewrite _extract_from_standard_orientation_eq.
    pose proof (text_after_last_occurrence_spec (b ++ phrase ++ text)) as H.
    destruct (text_after_last_occurrence (b ++ phrase ++ text))
      as [text' | ].
    - destruct H as [(b' & ph' & E & Hp') Hn'].
      now rewrite <- (@last_occurrence_unique _ _ _ _ _ _ Hp Hn Hp' Hn' E).
    - exfalso. now apply (H b phrase text). }
  split; [ apply K | ].
  rewrite K. symmetry. exact (K []).
Qed.

Lemma standard_orientation_ignores_earlier_text_witness :
  is_phrase "Standard orientation:"
  /\ no_occurrence nitrogen_table
  /\ _extract_from_standard_orientation
       (orientation_section "6" ++ "Standard orientation:" ++ nitrogen_table)
     = Ok [atom "N" zero zero zero].
Proof.
  assert (Hp : is_phrase "Standard orientation:").
  { exists " ". split; [ split; [ discriminate | reflexivity ] | reflexivity ]. }
  assert (Hn : no_occurrence nitrogen_table).
  { apply finditer_no_occurrence. vm_compute. reflexivity. }
  split; [ exact Hp | ]. split; [ exact Hn | ].
  rewrite (proj1 (@standard_orientation_ignores_earlier_text
                    (orientation_section "6") _ _ Hp Hn)).
  vm_compute. reflexivity.
Defined.

(** ** The printed coordinates *)

Lemma digit_char_isdigit n : (n < 10)%N -> isdigit (digit_char n) = true.
Proof.
  intros H. unfold digit_char.
  assert (Hk : N.to_nat n < 10) by lia.
  destruct (N.to_nat n) as [ | k]; [ reflexivity | ].
  do 9 (destruct k as [ | k]; [ reflexivity | ]). lia.
Qed.

Lemma fixed_digits_digits width :
  forall n, forallb isdigit (fixed_digits width n) = true.
Proof.
  induction width as [ | w IH]; intros n; cbn [fixed_digits];
    [ reflexivity | ].
  rewrite forallb_app, IH. cbn [forallb andb].
  rewrite digit_char_isdigit; [ reflexivity | ].
  now apply N.mod_lt.
Qed.

Lemma fixed_digits_length width :
  forall n, length (fixed_digits width n) = width.
Proof.
  induction width as [ | w IH]; intros n; cbn [fixed_digits];
    [ reflexivity | ].
  rewrite length_app, IH. cbn. lia.
Qed.

(** A printed coordinate is "nan", "inf", "-inf", or an optional minus
    sign, digits, a point and ten digits. *)
Lemma format_10f_shape v :
  In (format_10f v) ["nan"; "inf"; "-inf"]
  \/ exists s ip fp,
       format_10f v = minus_sign s ++ ip ++ "." ++ fp
       /\ ip <> [] /\ forallb isdigit ip = true
       /\ length fp = 10 /\ forallb isdigit fp = true.
Proof.
  destruct v as [s | s | | s m e]; cbn [format_10f].
  - right. exists s, "0", "0000000000". now repeat split.
  - left. destruct s; cbn; auto.
  - left. cbn. auto.
  - right.
    destruct (py_str_int_shape (Z.of_N (scaled_round m e / 10 ^ 10)))
      as (c & t & E & Hd).
    replace (Z.of_N (scaled_round m e / 10 ^ 10) <? 0)%Z with false in E
      by (symmetry; apply Z.ltb_ge, N2Z.is_nonneg).
    exists s, (c :: t), (fixed_digits 10 (scaled_round m e mod 10 ^ 10)).
    rewrite E. split; [ reflexivity | ].
    split; [ discriminate | ]. split; [ exact Hd | ].
    split; [ apply fixed_digits_length | apply fixed_digits_digits ].
Qed.

Lemma format_10f_forallb (P : ascii -> bool) v :
  (forall c, isdigit c = true -> P c = true) ->
  forallb P "-.nanif" = true ->
  forallb P (format_10f v) = true.
Proof.
  intros Hd HP.
  assert (Hm : forall s, forallb P (minus_sign s) = true).
  { intros [ | ]; [ | reflexivity ].
    cbn in *. apply andb_true_iff in HP as [-> _]. reflexivity. }
  assert (Hdigits : forall l, forallb isdigit l = true -> forallb P l = true).
  { intros l Hl. rewrite forallb_forall in *. auto. }
  destruct (format_10f_shape v)
    as [H | (s & ip & fp & -> & _ & Hip & _ & Hfp)].
  - cbn in HP. rewrite !andb_true_iff in HP.
    destruct HP as (Pm & Pp & Pn & Pa & _ & Pi & Pf & _).
    cbn in H. destruct H as [<- | [<- | [<- | []]]]; cbn;
      now rewrite ?Pm, ?Pn, ?Pa, ?Pi, ?Pf.
  - rewrite !forallb_app, Hm, (Hdigits _ Hip), (Hdigits _ Hfp).
    cbn in *. rewrite !andb_true_iff in HP.
    destruct HP as (_ & -> & _). reflexivity.
Qed.

Lemma format_10f_not_nil v : format_10f v <> [].
Proof.
  destruct (format_10f_shape v)
    as [H | (s & ip & fp & -> & Hn & _)].
  - cbn in H. destruct H as [<- | [<- | [<- | []]]]; discriminate.
  - destruct s, ip; try contradiction; discriminate.
Qed.

Lemma isdigit_in_range c : isdigit c = true -> 48 <= ord c <= 57.
Proof.
  unfold isdigit, in_range. rewrite andb_true_iff, !Nat.leb_le. lia.
Qed.

Lemma isdigit_no_space c : isdigit c = true -> no_space c = true.
Proof.
  intros H. apply isdigit_in_range in H.
  unfold no_space, isspace, in_range.
  apply negb_true_iff, orb_false_iff. split;
    apply andb_false_iff; right; apply Nat.leb_gt; lia.
Qed.

Lemma isdigit_not_char c x :
  isdigit c = true -> isdigit x = false -> eqc c x = false.
Proof.
  intros Hc Hx. destruct (eqc c x) eqn:E; [ | reflexivity ].
  apply eqc_eq in E. congruence.
Qed.

Lemma isdigit_not_Py_ISSPACE c : isdigit c = true -> Py_ISSPACE c = false.
Proof.
  intros H. apply isdigit_in_range in H. unfold Py_ISSPACE, in_range.
  apply orb_false_iff. split.
  - apply andb_false_iff. right. apply Nat.leb_gt. lia.
  - apply Nat.eqb_neq. lia.
Qed.

Lemma isdigit_lower_char c : isdigit c = true -> lower_char c = c.
Proof.
  intros H. apply isdigit_in_range in H. unfold lower_char, isupper, in_range.
  replace (65 <=? ord c) with false by (symmetry; apply Nat.leb_gt; lia).
  reflexivity.
Qed.

Lemma digitpart_more_digits ds :
  forallb isdigit ds = true ->
  forall rest,
    match rest with
    | [] => True
    | c :: _ => isdigit c = false /\ eqc c "_"%char = false
    end ->
    digitpart_more (ds ++ rest) = (ds, rest).
Proof.
  induction ds as [ | d ds IH]; intros Hd rest Hr; cbn [app].
  - destruct rest as [ | c rest]; [ reflexivity | ].
    destruct Hr as [H1 H2]. cbn. now rewrite H1, H2.
  - cbn in Hd. apply andb_true_iff in Hd as [H Hd].
    cbn [digitpart_more]. rewrite H, (IH Hd rest Hr). reflexivity.
Qed.

Lemma digitpart_digits ds :
  ds <> [] -> forallb isdigit ds = true ->
  forall rest,
    match rest with
    | [] => True
    | c :: _ => isdigit c = false /\ eqc c "_"%char = false
    end ->
    digitpart (ds ++ rest) = Some (ds, rest).
Proof.
  intros Hn Hd rest Hr. destruct ds as [ | d ds]; [ contradiction | ].
  cbn in Hd. apply andb_true_iff in Hd as [H Hd].
  cbn [app digitpart]. rewrite H, (digitpart_more_digits _ Hd rest Hr).
  reflexivity.
Qed.

Lemma dropwhile_stop p c t : p c = false -> dropwhile p (c :: t) = c :: t.
Proof. intros H. cbn. now rewrite H. Qed.

(** [float] reads a decimal numeral with a point as the number it
    denotes. *)
Lemma py_float_decimal s ip fp :
  ip <> [] -> forallb isdigit ip = true ->
  fp <> [] -> forallb isdigit fp = true ->
  py_float (minus_sign s ++ ip ++ "." ++ fp) =
  Ok (binary64_of_decimal s (digits_value (ip ++ fp))
        (0 - Z.of_nat (length fp))).
Proof.
  intros Nip Hip Nfp Hfp.
  destruct ip as [ | i ip]; [ contradiction | ].
  pose proof Hip as Hip'. cbn in Hip'. apply andb_true_iff in Hip' as [Hi _].
  assert (Es : strip_number (minus_sign s ++ (i :: ip) ++ "." ++ fp)
               = minus_sign s ++ (i :: ip) ++ "." ++ fp).
  { unfold strip_number.
    destruct (exists_last Nfp) as (fp0 & f & ->).
    rewrite forallb_app in Hfp. apply andb_true_iff in Hfp as [_ Hf].
    cbn in Hf. rewrite andb_true_r in Hf.
    replace (minus_sign s ++ (i :: ip) ++ "." ++ fp0 ++ [f])
      with ((minus_sign s ++ (i :: ip) ++ "." ++ fp0) ++ [f])
      by (rewrite <- !app_assoc; reflexivity).
    rewrite rev_app_distr. cbn [rev app].
    rewrite dropwhile_stop by now apply isdigit_not_Py_ISSPACE.
    cbn [rev]. rewrite rev_involutive.
    destruct s; cbn [minus_sign app].
    - now rewrite dropwhile_stop by reflexivity.
    - now rewrite dropwhile_stop by now apply isdigit_not_Py_ISSPACE. }
  unfold py_float. rewrite Es.
  assert (Eg : sign (minus_sign s ++ (i :: ip) ++ "." ++ fp)
               = (s, (i :: ip) ++ "." ++ fp)).
  { destruct s; cbn [minus_sign app sign]; [ reflexivity | ].
    now rewrite !isdigit_not_char by (exact Hi || reflexivity). }
  rewrite Eg. cbn [app lower map str_eqb].
  rewrite (isdigit_lower_char _ Hi).
  rewrite !(isdigit_not_char _ _ Hi) by reflexivity.
  cbn [andb orb].
  change (i :: ip ++ "."%char :: fp) with ((i :: ip) ++ "."%char :: fp).
  rewrite (digitpart_digits Nip Hip ("."%char :: fp))
    by (split; reflexivity).
  cbn [eqc Ascii.eqb Bool.eqb andb].
  rewrite <- (app_nil_r fp) at 1.
  rewrite (digitpart_digits Nfp Hfp []) by exact I.
  unfold float_finish. cbn [float_exponent]. reflexivity.
Qed.

(** [float] accepts every printed coordinate. *)
Lemma py_float_format_10f v : py_float (format_10f v) = Ok (read_back v).
Proof.
  unfold read_back.
  destruct (format_10f_shape v)
    as [H | (s & ip & fp & -> & Nip & Hip & Lfp & Hfp)].
  - cbn in H. destruct H as [<- | [<- | [<- | []]]]; reflexivity.
  - rewrite py_float_decimal; try assumption; [ reflexivity | ].
    intros ->. discriminate Lfp.
Qed.

Lemma split_char_cons c a t :
  split [c] (a :: t) =
  if eqc c a then [] :: split [c] t else cons_first a (split [c] t).
Proof.
  unfold split. cbn [split_go startswith length Nat.sub].
  now rewrite andb_true_r.
Qed.

Lemma split_char_absent c s : ~ In c s -> split [c] s = [s].
Proof.
  induction s as [ | a s IH]; intros H; [ reflexivity | ].
  rewrite split_char_cons, IH by (intros Hc; apply H; now right).
  destruct (eqc c a) eqn:E; [ | reflexivity ].
  apply eqc_eq in E. exfalso. apply H. now left.
Qed.

Lemma split_char_field c s t :
  ~ In c s -> split [c] (s ++ c :: t) = s :: split [c] t.
Proof.
  induction s as [ | a s IH]; intros H; cbn [app].
  - now rewrite split_char_cons, eqc_refl.
  - rewrite split_char_cons, IH by (intros Hc; apply H; now right).
    destruct (eqc c a) eqn:E; [ | reflexivity ].
    apply eqc_eq in E. exfalso. apply H. now left.
Qed.

Lemma forallb_absent (P : ascii -> bool) c s :
  P c = false -> forallb P s = true -> ~ In c s.
Proof.
  intros Hc Hs Hin. rewrite forallb_forall in Hs.
  specialize (Hs c Hin). congruence.
Qed.

Lemma format_10f_no_comma v : ~ In ","%char (format_10f v).
Proof.
  apply forallb_absent with (P := fun c => negb (eqc c ","%char));
    [ reflexivity | ].
  apply format_10f_forallb; [ | reflexivity ].
  intros c Hc. now rewrite isdigit_not_char.
Qed.

Lemma format_10f_no_space v : forallb no_space (format_10f v) = true.
Proof.
  apply format_10f_forallb; [ exact isdigit_no_space | reflexivity ].
Qed.

Lemma csv_row_fields a :
  forallb symbol_char (element a) = true ->
  split "," (csv_row a) =
  [element a; format_10f (x a); format_10f (y a); format_10f (z a)].
Proof.
  intros He. unfold csv_row.
  cbn [app].
  assert (Hc : ~ In ","%char (element a))
    by (apply forallb_absent with (P := symbol_char);
        [ reflexivity | exact He ]).
  rewrite split_char_field by exact Hc.
  rewrite split_char_field by apply format_10f_no_comma.
  rewrite split_char_field by apply format_10f_no_comma.
  now rewrite split_char_absent by apply format_10f_no_comma.
Qed.

(** X17.  The CSV output of a non-empty list whose elements are words
    of letters, digits and hyphens can be read back.  It is a comment
    line, the header and one row for each atom, in order; a row cut at
    its commas gives the element and three fields that [float] accepts,
    and a row has the four fields of an archive entry. *)
Theorem csv_output_is_readable
    (path_str : Path -> str) (coordinates : list AtomCoordinate)
    (file_path : option Path) :
  coordinates <> [] ->
  Forall (fun a => forallb symbol_char (element a) = true) coordinates ->
  exists summary rows,
    print_coordinates path_str coordinates file_path true "csv"
    = summary :: "Element,X,Y,Z" :: rows
    /\ startswith "# " summary = true
    /\ rows = map csv_row coordinates
    /\ map (split ",") rows
       = map (fun a => [element a; format_10f (x a); format_10f (y a);
                        format_10f (z a)]) coordinates
    /\ forall v, py_float (format_10f v) = Ok (read_back v).
Proof.
  intros Hn He. destruct coordinates as [ | c rest]; [ contradiction | ].
  unfold print_coordinates.
  change (str_eqb "csv" "csv") with true. cbv iota.
  eexists. exists (map csv_row (c :: rest)).
  split; [ reflexivity | ].
  split; [ now destruct file_path | ].
  split; [ reflexivity | ].
  split; [ | exact py_float_format_10f ].
  rewrite map_map. apply map_ext_in. intros a Ha.
  rewrite Forall_forall in He. now apply csv_row_fields, He.
Qed.

Lemma csv_output_is_readable_witness :
  carbon_hydrogen <> []
  /\ Forall (fun a => forallb symbol_char (element a) = true) carbon_hydrogen
  /\ exists summary,
       print_coordinates (fun p => name p) carbon_hydrogen (Some job_log)
         true "csv"
       = [summary; "Element,X,Y,Z";
          "C,0.0000000000,0.0000000000,1.1000000000";
          "H,0.0000000000,0.0000000000,0.0000000000"].
Proof.
  assert (Hn : carbon_hydrogen <> []) by discriminate.
  assert (He : Forall (fun a => forallb symbol_char (element a) = true)
                 carbon_hydrogen) by (repeat constructor).
  split; [ exact Hn | ]. split; [ exact He | ].
  destruct (@csv_output_is_readable (fun p => name p) carbon_hydrogen
              (Some job_log) Hn He) as (summary & rows & E & _ & Er & _).
  exists summary. rewrite E, Er. reflexivity.
Defined.

Lemma ljust_pad width s :
  exists pad, ljust width s = s ++ pad /\ forallb isspace pad = true.
Proof.
  exists (repeat " "%char (width - length s)). split; [ reflexivity | ].
  induction (width - length s); [ reflexivity | exact IHn ].
Qed.

Lemma split_ws_go_token_then t w rest :
  t <> [] -> forallb no_space t = true ->
  w <> [] -> forallb isspace w = true ->
  split_ws_go [] (t ++ w ++ rest) = t :: split_ws_go [] rest.
Proof.
  intros Nt Ht Nw Hw.
  rewrite split_ws_go_token by exact Ht. rewrite app_nil_r.
  destruct w as [ | c w]; [ contradiction | ].
  cbn in Hw. apply andb_true_iff in Hw as [Hc Hw].
  cbn [app]. rewrite split_ws_go_space; [ | | exact Hc ].
  2: { intros E. apply (f_equal (@rev ascii)) in E.
       rewrite rev_involutive in E. contradiction. }
  now rewrite rev_involutive, split_ws_spaces_app by exact Hw.
Qed.

Lemma table_row_tokens a :
  element a <> [] -> forallb no_space (element a) = true ->
  split_ws (table_row a) =
  [element a; format_10f (x a); format_10f (y a); format_10f (z a)].
Proof.
  intros Ne He. unfold table_row, split_ws.
  destruct (ljust_pad 8 (element a)) as (p0 & -> & H0).
  destruct (ljust_pad 15 (format_10f (x a))) as (p1 & -> & H1).
  destruct (ljust_pad 15 (format_10f (y a))) as (p2 & -> & H2).
  destruct (ljust_pad 15 (format_10f (z a))) as (p3 & -> & H3).
  assert (S : forall p, forallb isspace p = true ->
                        p ++ " " <> [] /\ forallb isspace (p ++ " ") = true).
  { intros p Hp. split; [ now destruct p | ].
    now rewrite forallb_app, Hp. }
  replace ((element a ++ p0) ++ " " ++ (format_10f (x a) ++ p1) ++ " " ++
           (format_10f (y a) ++ p2) ++ " " ++ format_10f (z a) ++ p3)
    with (element a ++ (p0 ++ " ") ++
          format_10f (x a) ++ (p1 ++ " ") ++
          format_10f (y a) ++ (p2 ++ " ") ++ format_10f (z a) ++ p3)
    by (rewrite <- !app_assoc; reflexivity).
  rewrite split_ws_go_token_then;
    [ | exact Ne | exact He | apply (S p0 H0) | apply (S p0 H0) ].
  rewrite split_ws_go_token_then;
    [ | apply format_10f_not_nil | apply format_10f_no_space
      | apply (S p1 H1) | apply (S p1 H1) ].
  rewrite split_ws_go_token_then;
    [ | apply format_10f_not_nil | apply format_10f_no_space
      | apply (S p2 H2) | apply (S p2 H2) ].
  rewrite split_ws_go_app_spaces by exact H3.
  now rewrite split_ws_go_one_token
    by (apply format_10f_not_nil || apply format_10f_no_space).
Qed.

Lemma isalpha_no_space c : isalpha c = true -> no_space c = true.
Proof.
  unfold isalpha, isupper, islower, no_space, isspace, in_range.
  rewrite orb_true_iff, !andb_true_iff, !Nat.leb_le. intros H.
  apply negb_true_iff, orb_false_iff. split;
    apply andb_false_iff; right; apply Nat.leb_gt; lia.
Qed.

Lemma table_row_parses a :
  run_of isalpha (element a) ->
  parseElementLine (table_row a) = Some (printed a).
Proof.
  intros [Ne Ha].
  assert (Hs : forallb no_space (element a) = true).
  { rewrite forallb_forall in *. intros c Hc.
    now apply isalpha_no_space, Ha. }
  rewrite parseElementLine_cases, table_row_tokens by assumption.
  rewrite (proj2 (@is_match_alpha_re_token _ Hs) (conj Ne Ha)).
  now rewrite !py_float_format_10f.
Qed.

(** X18.  A row of the printed table is an atom line of a Gaussian
    input or a MOLPRO block.  For a non-empty list whose elements are
    words of letters, the table is a summary line, an empty line, one
    row for each atom in order and an empty line, and the line parser
    reads from each row the element and the three coordinates as
    printed with ten decimal places. *)
Theorem table_rows_parse_back
    (path_str : Path -> str) (coordinates : list AtomCoordinate)
    (file_path : option Path) (output_format : str) :
  coordinates <> [] ->
  output_format <> "csv" ->
  Forall (fun a => run_of isalpha (element a)) coordinates ->
  exists summary rows,
    print_coordinates path_str coordinates file_path true output_format
    = summary :: [] :: rows ++ [[]]
    /\ map parseElementLine rows = map (fun a => Some (printed a)) coordinates
    /\ forall v, py_float (format_10f v) = Ok (read_back v).
Proof.
  intros Hn Hf He. destruct coordinates as [ | c rest]; [ contradiction | ].
  unfold print_coordinates. apply str_eqb_neq in Hf. rewrite Hf.
  eexists. exists (map table_row (c :: rest)).
  split; [ reflexivity | ].
  split; [ | exact py_float_format_10f ].
  rewrite map_map. apply map_ext_in. intros a Ha.
  rewrite Forall_forall in He. now apply table_row_parses, He.
Qed.

Lemma table_rows_parse_back_witness :
  carbon_hydrogen <> []
  /\ "table" <> "csv"
  /\ Forall (fun a => run_of isalpha (element a)) carbon_hydrogen
  /\ exists summary rows,
       print_coordinates (fun p => name p) carbon_hydrogen (Some job_log)
         true "table"
       = summary :: [] :: rows ++ [[]]
       /\ map parseElementLine rows
          = map (fun a => Some (printed a)) carbon_hydrogen.
Proof.
  assert (Hn : carbon_hydrogen <> []) by discriminate.
  assert (Hf : "table" <> "csv") by discriminate.
  assert (He : Forall (fun a => run_of isalpha (element a)) carbon_hydrogen)
    by (repeat constructor; discriminate).
  split; [ exact Hn | ]. split; [ exact Hf | ]. split; [ exact He | ].
  destruct (@table_rows_parse_back (fun p => name p) carbon_hydrogen
              (Some job_log) "table" Hn Hf He) as (summary & rows & E & Er & _).
  now exists summary, rows.
Defined.

(** ** Line ends and indentation *)

Lemma universal_newlines_to_crlf s :
  ~ In CR s -> universal_newlines (to_crlf s) = s.
Proof.
  induction s as [ | c t IH]; intros H; [ reflexivity | ].
  assert (Hc : eqc c CR = false).
  { destruct (eqc c CR) eqn:E; [ | reflexivity ].
    apply eqc_eq in E. exfalso. apply H. now left. }
  assert (Ht : ~ In CR t) by (intros Hin; apply H; now right).
  cbn [to_crlf]. destruct (eqc c LF) eqn:E.
  - apply eqc_eq in E. subst c. cbn. now rewrite IH.
  - cbn [universal_newlines]. now rewrite Hc, IH.
Qed.

Lemma universal_newlines_without_CR s :
  ~ In CR s -> universal_newlines s = s.
Proof.
  induction s as [ | c t IH]; intros H; [ reflexivity | ].
  assert (Hc : eqc c CR = false).
  { destruct (eqc c CR) eqn:E; [ | reflexivity ].
    apply eqc_eq in E. exfalso. apply H. now left. }
  cbn [universal_newlines]. rewrite Hc, IH; [ reflexivity | ].
  intros Hin. apply H. now right.
Qed.

(** X19.  Windows line ends do not change what is read from a Gaussian
    input or a MOLPRO file: the file with every newline preceded by a
    carriage return gives the same result as the file itself.  (A
    Gaussian log is left out: its termination check counts bytes.) *)
Theorem line_ends_do_not_matter
    (fs fs' : filesystem) (file_path : Path) (data : str) :
  fs file_path = Ok data ->
  fs' file_path = Ok (to_crlf data) ->
  ~ In CR data ->
  _detect_file_type file_path <> gaussian_log ->
  extract_coordinates fs' file_path = extract_coordinates fs file_path.
Proof.
  intros H H' Hcr Ht. unfold extract_coordinates, extract_coordinates_with.
  rewrite (_read_file_content_Ok _ _ H), (_read_file_content_Ok _ _ H').
  rewrite universal_newlines_to_crlf, universal_newlines_without_CR
    by exact Hcr.
  cbn [bind]. now destruct (_detect_file_type file_path).
Qed.

Lemma line_ends_do_not_matter_witness :
  ~ In CR two_blocks
  /\ _detect_file_type job_out <> gaussian_log
  /\ extract_coordinates (only_file (to_crlf two_blocks)) job_out
     = Ok oxygen_hydrogen.
Proof.
  assert (Hcr : ~ In CR two_blocks).
  { apply forallb_absent with (P := fun c => negb (eqc c CR));
      reflexivity. }
  assert (Ht : _detect_file_type job_out <> gaussian_log) by discriminate.
  split; [ exact Hcr | ]. split; [ exact Ht | ].
  rewrite (@line_ends_do_not_matter (only_file two_blocks)
             (only_file (to_crlf two_blocks)) job_out two_blocks
             eq_refl eq_refl Hcr Ht).
  vm_compute. reflexivity.
Defined.

Lemma rstrip_app a b :
  rstrip (a ++ b) = if forallb isspace b then rstrip a else a ++ rstrip b.
Proof.
  induction b as [ | c b IH] using rev_ind.
  - now rewrite app_nil_r.
  - rewrite app_assoc, !rstrip_snoc, forallb_app. cbn [forallb].
    rewrite andb_true_r. destruct (isspace c).
    + now rewrite andb_true_r.
    + now rewrite andb_false_r, app_assoc.
Qed.

Lemma lstrip_app w s : forallb isspace w = true -> lstrip (w ++ s) = lstrip s.
Proof.
  unfold lstrip. induction w as [ | c w IH]; intros H; [ reflexivity | ].
  cbn in H. apply andb_true_iff in H as [Hc Hw]. cbn. rewrite Hc. auto.
Qed.

Lemma rstrip_blank s : forallb isspace s = true -> rstrip s = [].
Proof.
  intros H. unfold rstrip. rewrite dropwhile_all; [ reflexivity | ].
  rewrite forallb_forall in *. intros c Hc. apply H. now apply in_rev.
Qed.

(** Whitespace around a line is not part of what [strip] returns. *)
Lemma strip_padded w1 w2 line :
  forallb isspace w1 = true -> forallb isspace w2 = true ->
  strip (w1 ++ line ++ w2) = strip line.
Proof.
  intros H1 H2. unfold strip.
  rewrite app_assoc, rstrip_app, H2.
  rewrite rstrip_app. destruct (forallb isspace line) eqn:E.
  - now rewrite !rstrip_blank by assumption.
  - now apply lstrip_app.
Qed.

(** X20.  Indentation and trailing whitespace never matter: every line
    classifier gives the same answer on a line and on the line between
    two runs of whitespace. *)
Theorem classifiers_ignore_indentation (w1 w2 line : str) :
  forallb isspace w1 = true -> forallb isspace w2 = true ->
  parseElementLine (w1 ++ line ++ w2) = parseElementLine line
  /\ parseCenterLine (w1 ++ line ++ w2) = parseCenterLine line
  /\ looksLikeChargeMultiplicity (w1 ++ line ++ w2)
     = looksLikeChargeMultiplicity line
  /\ isStructuralDelimiter (w1 ++ line ++ w2) = isStructuralDelimiter line
  /\ is_blank (w1 ++ line ++ w2) = is_blank line.
Proof.
  intros H1 H2. pose proof (@strip_padded w1 w2 line H1 H2) as E.
  split; [ | split; [ | split; [ | split ] ] ].
  - now rewrite <- parseElementLine_strip, E, parseElementLine_strip.
  - now rewrite <- parseCenterLine_strip, E, parseCenterLine_strip.
  - unfold looksLikeChargeMultiplicity. now rewrite E.
  - unfold isStructuralDelimiter. now rewrite E.
  - unfold is_blank. now rewrite E.
Qed.

Lemma classifiers_ignore_indentation_witness :
  forallb isspace "   " = true
  /\ forallb isspace "  " = true
  /\ parseElementLine ("   " ++ "C 0.0 0.0 1.1" ++ "  ")
     = Some (atom "C" zero zero one_point_one).
Proof.
  split; [ reflexivity | ]. split; [ reflexivity | ].
  rewrite (proj1 (@classifiers_ignore_indentation "   " "  "
                    "C 0.0 0.0 1.1" eq_refl eq_refl)).
  vm_compute. reflexivity.
Defined.

(** ** A file that ends with the termination line *)

Lemma universal_newlines_app_bounded n :
  forall a X,
    length a <= n ->
    match X with
    | c :: _ => c <> LF
    | [] => True
    end ->
    universal_newlines (a ++ X) = universal_newlines a ++ universal_newlines X.
Proof.
  induction n as [ | n IH]; intros a X Hl HX.
  - destruct a; [ reflexivity | cbn in Hl; lia ].
  - destruct a as [ | c t]; [ reflexivity | ]. cbn in Hl.
    cbn [app universal_newlines]. destruct (eqc c CR).
    + destruct t as [ | c' t'].
      * cbn [app]. destruct X as [ | x X']; [ reflexivity | ].
        destruct (eqc x LF) eqn:E; [ | reflexivity ].
        apply eqc_eq in E. contradiction.
      * cbn [app]. cbn in Hl. destruct (eqc c' LF).
        -- rewrite (IH t' X) by (lia || exact HX). reflexivity.
        -- assert (H : length (c' :: t') <= n) by (cbn; lia).
           pose proof (IH (c' :: t') X H HX) as E. cbn [app] in E.
           rewrite E. reflexivity.
    + rewrite (IH t X) by (lia || exact HX). reflexivity.
Qed.

Lemma universal_newlines_app a X :
  match X with
  | c :: _ => c <> LF
  | [] => True
  end ->
  universal_newlines (a ++ X) = universal_newlines a ++ universal_newlines X.
Proof. now apply (universal_newlines_app_bounded (n := length a)). Qed.

Lemma universal_newlines_line l X :
  ~ In CR l -> universal_newlines (l ++ X) = l ++ universal_newlines X.
Proof.
  induction l as [ | c l IH]; intros H; [ reflexivity | ].
  cbn [app universal_newlines].
  destruct (eqc c CR) eqn:E.
  - apply eqc_eq in E. exfalso. apply H. now left.
  - rewrite IH; [ reflexivity | ]. intros Hin. apply H. now right.
Qed.

Lemma universal_newlines_blank_bounded n :
  forall t,
    length t <= n -> forallb isspace t = true ->
    forallb isspace (universal_newlines t) = true.
Proof.
  induction n as [ | n IH]; intros t Hl Ht.
  - destruct t; [ reflexivity | cbn in Hl; lia ].
  - destruct t as [ | c t]; [ reflexivity | ]. cbn in Hl, Ht.
    apply andb_true_iff in Ht as [Hc Ht].
    cbn [universal_newlines]. destruct (eqc c CR).
    + destruct t as [ | c' t']; [ reflexivity | ].
      cbn in Hl, Ht. apply andb_true_iff in Ht as [Hc' Ht'].
      destruct (eqc c' LF); cbn [forallb];
        rewrite IH; try reflexivity; try lia; try assumption.
      * cbn. lia.
      * cbn. now rewrite Hc', Ht'.
    + cbn [forallb]. rewrite Hc, IH; try reflexivity; try lia; assumption.
Qed.

Lemma lstrip_app_cases a b :
  lstrip (a ++ b) = if forallb isspace a then lstrip b else lstrip a ++ b.
Proof.
  unfold lstrip. induction a as [ | c a IH]; [ reflexivity | ].
  cbn. destruct (isspace c); [ exact IH | reflexivity ].
Qed.

Lemma last_line_app a b : ~ In LF b -> last_line (a ++ b) = last_line a ++ b.
Proof.
  induction b as [ | c b IH] using rev_ind; intros H.
  - now rewrite !app_nil_r.
  - rewrite app_assoc, last_line_snoc.
    destruct (eqc LF c) eqn:E.
    + apply eqc_eq in E. exfalso. apply H, in_or_app. right. now left.
    + rewrite IH, app_assoc; [ reflexivity | ].
      intros Hin. apply H, in_or_app. now left.
Qed.

Lemma contains_app_r sub a b :
  contains sub b = true -> contains sub (a ++ b) = true.
Proof.
  intros H. induction a as [ | c a IH]; [ exact H | ].
  cbn [app contains]. rewrite IH. apply orb_true_r.
Qed.

Lemma contains_normal_termination_strip line :
  contains normal_termination_text (strip line)
  = contains normal_termination_text line.
Proof.
  unfold strip.
  destruct (rstrip_decompose line) as (w & E & Hw).
  destruct (lstrip_decompose (rstrip line)) as (v & E' & Hv).
  rewrite E at 2.
  rewrite (@contains_app_spaces normal_termination_text
             "N"%char "n"%char "ormal terminatio" eq_refl eq_refl eq_refl
             (rstrip line) w Hw).
  rewrite E' at 2.
  now rewrite (@contains_spaces_app normal_termination_text
                 "N"%char "n"%char "ormal terminatio" eq_refl eq_refl eq_refl
                 v (lstrip (rstrip line)) Hv).
Qed.

(** X21.  A sufficient condition for the termination check.  If the
    file ends with a line that contains "Normal termination", followed
    by whitespace only, and the line with that whitespace takes at most
    1000 bytes, the check answers [true], whatever stands before. *)
Theorem normal_termination_line_is_found
    (fs : filesystem) (file_path : Path) (head line trailing : str) :
  fs file_path = Ok (head ++ line ++ trailing) ->
  contains normal_termination_text line = true ->
  ~ In LF line -> ~ In CR line ->
  forallb isspace trailing = true ->
  length (line ++ trailing) <= 1000 ->
  _check_normal_termination fs file_path = Ok true.
Proof.
  intros Hfs Hc Hlf Hcr Ht Hlen.
  unfold _check_normal_termination. rewrite Hfs.
  cbn [bind try_except]. rewrite tail_offset. f_equal.
  fold (last_line
          (strip (universal_newlines
                    (skipn (length (head ++ line ++ trailing) - 1000)
                       (head ++ line ++ trailing))))).
  rewrite skipn_app.
  replace (length (head ++ line ++ trailing) - 1000 - length head) with 0
    by (rewrite length_app; lia).
  cbn [skipn].
  set (h := skipn (length (head ++ line ++ trailing) - 1000) head).
  assert (Hs : contains normal_termination_text (strip line) = true)
    by now rewrite contains_normal_termination_strip.
  assert (Hb : forallb isspace line = false).
  { destruct (forallb isspace line) eqn:E; [ | reflexivity ].
    unfold strip in Hs. rewrite rstrip_blank in Hs by exact E.
    discriminate. }
  destruct line as [ | c0 line0] eqn:El; [ discriminate | ].
  rewrite <- El in *.
  rewrite universal_newlines_app.
  2: { rewrite El. cbn [app]. intros ->. apply Hlf. rewrite El. now left. }
  rewrite universal_newlines_line by exact Hcr.
  set (U := universal_newlines h).
  set (T := universal_newlines trailing).
  assert (HT : forallb isspace T = true)
    by now apply (universal_newlines_blank_bounded (n := length trailing)).
  assert (E : exists A, strip (U ++ line ++ T) = A ++ strip line).
  { unfold strip. rewrite app_assoc, rstrip_app, HT, rstrip_app, Hb.
    rewrite lstrip_app_cases. destruct (forallb isspace U).
    - now exists [].
    - destruct (lstrip_decompose (rstrip line)) as (v & Ev & _).
      exists (lstrip U ++ v). rewrite Ev at 1. now rewrite app_assoc. }
  destruct E as (A & ->).
  rewrite last_line_app by (intros Hin; now apply Hlf, strip_In).
  now apply contains_app_r.
Qed.

Lemma normal_termination_line_is_found_witness :
  contains normal_termination_text " Normal termination of Gaussian 16."
  = true
  /\ ~ In LF " Normal termination of Gaussian 16."
  /\ ~ In CR " Normal termination of Gaussian 16."
  /\ forallb isspace ([LF] ++ "  " ++ [LF]) = true
  /\ length (" Normal termination of Gaussian 16." ++ [LF] ++ "  " ++ [LF])
     <= 1000
  /\ _check_normal_termination
       (only_file (unfinished_log ++ " Normal termination of Gaussian 16." ++
                   ([LF] ++ "  " ++ [LF])))
       job_log
     = Ok true.
Proof.
  assert (H1 : ~ In LF " Normal termination of Gaussian 16.")
    by (apply forallb_absent with (P := fun c => negb (eqc c LF));
        reflexivity).
  assert (H2 : ~ In CR " Normal termination of Gaussian 16.")
    by (apply forallb_absent with (P := fun c => negb (eqc c CR));
        reflexivity).
  assert (H3 : length (" Normal termination of Gaussian 16." ++
                       [LF] ++ "  " ++ [LF]) <= 1000)
    by (apply Nat.leb_le; reflexivity).
  split; [ reflexivity | ]. split; [ exact H1 | ]. split; [ exact H2 | ].
  split; [ reflexivity | ]. split; [ exact H3 | ].
  exact (@normal_termination_line_is_found
           (only_file (unfinished_log ++
                       " Normal termination of Gaussian 16." ++
                       ([LF] ++ "  " ++ [LF])))
           job_log unfinished_log " Normal termination of Gaussian 16."
           ([LF] ++ "  " ++ [LF]) eq_refl eq_refl H1 H2 eq_refl H3).
Defined.

Lemma startswith_app p :
  forall l post, startswith p l = true -> startswith p (l ++ post) = true.
Proof.
  induction p as [ | x p IH]; intros l post H; [ reflexivity | ].
  destruct l as [ | y l]; [ discriminate | ].
  cbn in H |- *. apply andb_true_iff in H as [-> H]. now apply IH.
Qed.

Lemma contains_app_l sub l post :
  contains sub l = true -> contains sub (l ++ post) = true.
Proof.
  induction l as [ | c l IH]; intros H.
  - cbn in H. rewrite orb_false_r in H.
    destruct sub; [ | discriminate ].
    destruct post; reflexivity.
  - cbn [contains] in H. apply orb_true_iff in H as [H | H].
    + pose proof (startswith_app sub (c :: l) post H) as H'.
      cbn [app] in H'. cbn [app contains]. now rewrite H'.
    + cbn [app contains]. rewrite (IH H). apply orb_true_r.
Qed.

(** A line of a text is a part of the text. *)
Lemma split_LF_parts s :
  (exists h r post, split [LF] s = h :: r /\ s = h ++ post)
  /\ (forall l, In l (split [LF] s) -> exists pre post, s = pre ++ l ++ post).
Proof.
  induction s as [ | c s [(h & r & post & E & Es) IH]].
  - rewrite split_LF_nil. split.
    + now exists [], [], [].
    + intros l [<- | []]. now exists [], [].
  - rewrite split_LF_cons. destruct (eqc LF c) eqn:Ec.
    + split.
      * now exists [], (split [LF] s), (c :: s).
      * intros l [<- | Hl]; [ now exists [], (c :: s) | ].
        destruct (IH l Hl) as (pre & post' & ->).
        now exists (c :: pre), post'.
    + rewrite E. cbn [cons_first]. split.
      * exists (c :: h), r, post. split; [ reflexivity | ].
        now rewrite Es at 1.
      * intros l [<- | Hl].
        -- exists [], post. now rewrite Es at 1.
        -- destruct (IH l) as (pre & post' & E');
             [ rewrite E; now right | ].
           exists (c :: pre), post'. now rewrite E' at 1.
Qed.

Lemma last_In A (l : list A) : forall b, In (last l b) (b :: l).
Proof.
  induction l as [ | c l IH]; intros b; [ now left | ].
  rewrite last_cons_default. right. apply IH.
Qed.

Lemma last_error_In A (l : list A) a : last_error l = Some a -> In a l.
Proof.
  destruct l as [ | b l]; [ discriminate | ].
  cbn [last_error]. intros [= <-]. apply last_In.
Qed.

(** X22.  The termination check never answers [true] for a file whose
    last 1000 bytes, as read in text mode, do not contain "Normal
    termination": a positive answer means the file was read and the
    phrase occurs in that tail. *)
Theorem normal_termination_needs_the_phrase
    (fs : filesystem) (file_path : Path) :
  _check_normal_termination fs file_path = Ok true ->
  exists data,
    fs file_path = Ok data
    /\ contains normal_termination_text (tail_text data) = true.
Proof.
  rewrite _check_normal_termination_eq.
  destruct (fs file_path) as [data | e]; [ | discriminate ].
  destruct (last_nonblank_line (tail_text data)) as [l | ] eqn:E;
    [ | discriminate ].
  intros [= Hc]. exists data. split; [ reflexivity | ].
  unfold last_nonblank_line in E. apply last_error_In in E.
  apply filter_In in E as [Hl _].
  destruct (proj2 (split_LF_parts (tail_text data)) l Hl)
    as (pre & post & ->).
  apply contains_app_r. now apply contains_app_l.
Qed.

Lemma normal_termination_needs_the_phrase_witness :
  _check_normal_termination (only_file punch_log) job_log = Ok true
  /\ contains normal_termination_text (tail_text punch_log) = true.
Proof.
  assert (H : _check_normal_termination (only_file punch_log) job_log
              = Ok true) by (vm_compute; reflexivity).
  split; [ exact H | ].
  destruct (@normal_termination_needs_the_phrase (only_file punch_log)
              job_log H) as (data & [= <-] & Hc).
  exact Hc.
Defined.
